(** * Wilson maze generator (maze_generator.py): shallow embedding and properties

    The Python class [MazeGenerator] is embedded function by function.
    Python integers are [Z]; a cell is a pair of integers; the maze is a list
    of rows of characters; the [in_maze] and [visited] sets are [gset]s.
    A subscript that Python would reject raises [IndexError] here as well,
    through the [outcome] monad.  The random module is an oracle
    [rnd : nat -> nat] read at a running position: the n-th draw over a
    sequence of length [len] selects position [rnd n mod len]. *)

From stdpp Require Import base numbers list gmap sets strings sorting.
From Stdlib Require Import ZArith Lia Ascii.

Open Scope Z_scope.

(** ** Outcomes of a computation *)

Inductive exn := IndexError.

(** [Timeout] is the model's own: a [while] loop is unrolled a bounded number
    of times, and the bound is shown to be enough. *)
Inductive outcome (A : Type) :=
  | Done (a : A)
  | Raise (e : exn)
  | Timeout.
Arguments Done {A} a.
Arguments Raise {A} e.
Arguments Timeout {A}.

#[global] Instance outcome_ret : MRet outcome := λ A a, Done a.
#[global] Instance outcome_bind : MBind outcome := λ A B f m,
  match m with
  | Done a => f a
  | Raise e => Raise e
  | Timeout => Timeout
  end.

(** ** Python sequences *)

(** [range(start, stop, step)] for a non-zero step. *)
Definition range (start stop step : Z) : list Z :=
  let n := if 0 <? step then (stop - start + step - 1) `div` step
           else (start - stop - step - 1) `div` (- step) in
  (λ i : nat, start + Z.of_nat i * step) <$> seq 0 (Z.to_nat n).

(** The position a subscript [i] denotes in a sequence of length [len]:
    negative subscripts count from the end. *)
Definition subscript (len : nat) (i : Z) : outcome nat :=
  let n := Z.of_nat len in
  if bool_decide (0 ≤ i < n) then Done (Z.to_nat i)
  else if bool_decide (- n ≤ i < 0) then Done (Z.to_nat (n + i))
  else Raise IndexError.

Definition getitem {A} (l : list A) (i : Z) : outcome A :=
  k ← subscript (length l) i;
  match l !! k with
  | Some x => Done x
  | None => Raise IndexError
  end.

Definition setitem {A} (l : list A) (i : Z) (x : A) : outcome (list A) :=
  k ← subscript (length l) i;
  Done (<[k:=x]> l).

(** [random.choice(seq)] at draw number [k]; the callers test that the
    sequence is not empty before they draw, [d] is never returned. *)
Definition choice {A} (rnd : nat → nat) (k : nat) (d : A) (l : list A) : A :=
  nth (rnd k `mod` length l)%nat l d.

(** ** The grid *)

Abbreviation cell := (Z * Z)%type.
Abbreviation grid := (list (list ascii)).

Definition WALL : ascii := "#"%char.
Definition OPEN : ascii := " "%char.
Definition START : ascii := "A"%char.
Definition GOAL : ascii := "B"%char.

(** [maze[r][c]] *)
Definition maze_get (maze : grid) (r c : Z) : outcome ascii :=
  row ← getitem maze r;
  getitem row c.

(** [maze[r][c] = ch] *)
Definition maze_set (maze : grid) (r c : Z) (ch : ascii) : outcome grid :=
  row ← getitem maze r;
  row' ← setitem row c ch;
  setitem maze r row'.

(** ** The generator object *)

Record MazeGenerator := {
  width : Z;
  height : Z;
  multiple_solutions : bool;
  maze : option grid
}.

(** [MazeGenerator.__init__]: no statement of the constructor can raise. *)
Definition __init__ (width height : Z) (multiple_solutions : bool)
  : outcome MazeGenerator :=
  Done {| width := if bool_decide (width `mod` 2 = 1) then width else width + 1;
          height := if bool_decide (height `mod` 2 = 1) then height else height + 1;
          multiple_solutions := multiple_solutions;
          maze := None |}.

(** ** Generation events *)

Inductive payload :=
  | PCell (c : cell)
  | PPath (p : list cell)
  | PNone.

(** What one [yield] hands out: the maze as it is at that moment (the Python
    object is the same list at every yield), the phase tag, the payload. *)
Definition event : Type := grid * string * payload.

Definition max_steps : nat := 1000.
Opaque max_steps.

Section generator.
Variable self : MazeGenerator.
Variable rnd : nat → nat.

(** The candidate cells two steps away from [current], in the order of the
    source's direction list, kept when they lie strictly inside the grid. *)
Definition neighbors (current : cell) : list cell :=
  filter (λ n : cell, 1 ≤ n.1 < height self - 1 ∧ 1 ≤ n.2 < width self - 1)
         ((λ d : Z * Z, (current.1 + d.1, current.2 + d.2))
            <$> [(0, 2); (0, -2); (2, 0); (-2, 0)]).

(** Lines 47-51: erase the loop or extend the path. *)
Definition extend_path (path : list cell) (next_cell : cell) : list cell :=
  match list_find (λ x, x = next_cell) path with
  | Some (loop_start, _) => take (S loop_start) path
  | None => path ++ [next_cell]
  end.

(** The inner [while] of lines 35-54; [budget] is [max_steps - steps].
    Returns the path, the current cell, the next draw number and the
    events yielded. *)
Fixpoint walk (budget : nat) (maze : grid) (in_maze : gset cell)
    (path : list cell) (current : cell) (k : nat)
  : list cell * cell * nat * list event :=
  match budget with
  | O => (path, current, k, [])
  | S budget' =>
    if decide (current ∈ in_maze) then (path, current, k, [])
    else match neighbors current with
         | [] => (path, current, k, [])
         | n0 :: _ =>
           let next_cell := choice rnd k n0 (neighbors current) in
           let path' := extend_path path next_cell in
           let '(p, c, k', evs) :=
             walk budget' maze in_maze path' next_cell (S k) in
           (p, c, k', (maze, "walking"%string, PPath path') :: evs)
         end
  end.

(** The [for] of lines 57-70 over the cells of the path that are left. *)
Fixpoint connect (maze : grid) (in_maze : gset cell) (path : list cell)
  : outcome (grid * gset cell * list event) :=
  match path with
  | [] => Done (maze, in_maze, [])
  | (r, c) :: rest =>
    maze1 ← maze_set maze r c OPEN;
    let in_maze1 := {[(r, c)]} ∪ in_maze in
    maze2 ← match rest with
            | [] => Done maze1
            | (r2, c2) :: _ =>
              maze_set maze1 ((r + r2) `div` 2) ((c + c2) `div` 2) OPEN
            end;
    '(maze3, in_maze3, evs) ← connect maze2 in_maze1 rest;
    Done (maze3, in_maze3, (maze2, "adding_path"%string, PCell (r, c)) :: evs)
  end.

Definition all_cells : list cell :=
  r ← range 1 (height self) 2; c ← range 1 (width self) 2; [(r, c)].

Definition remaining_of (in_maze : gset cell) : list cell :=
  filter (λ cell, cell ∉ in_maze) all_cells.

(** The outer [while remaining_cells] of lines 27-73, at most [fuel]
    rounds. *)
Fixpoint rounds (fuel : nat) (maze : grid) (in_maze : gset cell)
    (remaining_cells : list cell) (k : nat)
  : outcome (grid * gset cell * nat * list event) :=
  match remaining_cells with
  | [] => Done (maze, in_maze, k, [])
  | c0 :: _ =>
    match fuel with
    | O => Timeout
    | S fuel' =>
      let current := choice rnd k c0 remaining_cells in
      let '(path, _, k1, wevs) :=
        walk max_steps maze in_maze [current] current (S k) in
      '(maze', in_maze', cevs) ← connect maze in_maze path;
      '(mazef, in_mazef, kf, evs) ←
        rounds fuel' maze' in_maze' (remaining_of in_maze') k1;
      Done (mazef, in_mazef, kf,
            (maze, "walk_start"%string, PCell current) :: wevs ++ cevs
              ++ (maze', "path_complete"%string, PNone) :: evs)
    end
  end.

(** *** Reachability (lines 117-157) *)

Definition directions : list (Z * Z) := [(0, 1); (0, -1); (1, 0); (-1, 0)].

(** The test of lines 128-129 (and 152-153), left to right as [and] does. *)
Definition may_enter (maze : grid) (visited : gset cell) (n : cell)
  : outcome bool :=
  if bool_decide (0 ≤ n.1 < height self ∧ 0 ≤ n.2 < width self) then
    if bool_decide (n ∉ visited) then
      ch ← maze_get maze n.1 n.2;
      Done (bool_decide (ch ≠ WALL))
    else Done false
  else Done false.

(** The [for dr, dc in ...] loop of both traversals; they differ in the
    queue entry made for a new cell only, which [entry] builds. *)
Fixpoint expand {A} (entry : cell → A) (maze : grid) (r c : Z)
    (dirs : list (Z * Z)) (visited : gset cell) (queue : list A)
  : outcome (gset cell * list A) :=
  match dirs with
  | [] => Done (visited, queue)
  | (dr, dc) :: dirs' =>
    let n := (r + dr, c + dc) in
    ok ← may_enter maze visited n;
    if ok : bool then
      expand entry maze r c dirs' ({[n]} ∪ visited) (queue ++ [entry n])
    else expand entry maze r c dirs' visited queue
  end.

(** The [while queue] of [get_reachable_positions]. *)
Fixpoint reach_loop (fuel : nat) (maze : grid) (visited : gset cell)
    (queue : list cell) : outcome (gset cell) :=
  match queue with
  | [] => Done visited
  | (r, c) :: queue' =>
    match fuel with
    | O => Timeout
    | S fuel' =>
      '(visited', queue'') ← expand id maze r c directions visited queue';
      reach_loop fuel' maze visited' queue''
    end
  end.

(** One more than the number of grid positions: the start cell may lie
    outside the grid. *)
Definition bfs_fuel : nat := S (Z.to_nat (height self) * Z.to_nat (width self)).

Definition get_reachable_positions (maze : grid) (start : cell)
  : outcome (gset cell) :=
  reach_loop bfs_fuel maze {[start]} [start].

(** The [while queue] of [find_furthest_cell]. *)
Fixpoint furthest_loop (fuel : nat) (maze : grid) (visited : gset cell)
    (queue : list (cell * Z)) (furthest_cell : cell) (max_distance : Z)
  : outcome cell :=
  match queue with
  | [] => Done furthest_cell
  | ((r, c), distance) :: queue' =>
    match fuel with
    | O => Timeout
    | S fuel' =>
      let '(max_distance', furthest_cell') :=
        if bool_decide (max_distance < distance) then (distance, (r, c))
        else (max_distance, furthest_cell) in
      '(visited', queue'') ←
        expand (λ n, (n, distance + 1)) maze r c directions visited queue';
      furthest_loop fuel' maze visited' queue'' furthest_cell' max_distance'
    end
  end.

Definition find_furthest_cell (maze : grid) (start : cell) : outcome cell :=
  furthest_loop bfs_fuel maze {[start]} [(start, 0)] start 0.

(** *** Goal placement (lines 94-115) *)

(** The cells of the two nested [range(.. - 2, 0, step)] loops, in order. *)
Definition candidates (step : Z) : list cell :=
  r ← range (height self - 2) 0 step; c ← range (width self - 2) 0 step;
  [(r, c)].

Definition first_reachable (reachable : gset cell) (start_pos : cell)
    (cands : list cell) : option cell :=
  snd <$> list_find (λ p, p ∈ reachable ∧ p ≠ start_pos) cands.

Definition place_connected_goal (maze : grid) : outcome (grid * bool) :=
  let start_pos := (1, 1) in
  reachable ← get_reachable_positions maze start_pos;
  match first_reachable reachable start_pos (candidates (-2)) with
  | Some (r, c) => maze' ← maze_set maze r c GOAL; Done (maze', true)
  | None =>
    match first_reachable reachable start_pos (candidates (-1)) with
    | Some (r, c) => maze' ← maze_set maze r c GOAL; Done (maze', true)
    | None => Done (maze, false)
    end
  end.

(** *** Multiple paths (lines 159-183) *)

(** [maze[a] == ' ' and maze[b] == ' ' and maze[w] == '#'] *)
Definition removable (maze : grid) (a b w : cell) : outcome bool :=
  x ← maze_get maze a.1 a.2;
  if bool_decide (x = OPEN) then
    y ← maze_get maze b.1 b.2;
    if bool_decide (y = OPEN) then
      z ← maze_get maze w.1 w.2;
      Done (bool_decide (z = WALL))
    else Done false
  else Done false.

(** One of the two scans: [sides w] are the two cells the wall [w] lies
    between. *)
Fixpoint collect (maze : grid) (sides : cell → cell * cell)
    (walls : list cell) (walls_to_remove : list cell) : outcome (list cell) :=
  match walls with
  | [] => Done walls_to_remove
  | w :: walls' =>
    ok ← removable maze (sides w).1 (sides w).2 w;
    collect maze sides walls'
            (if ok : bool then walls_to_remove ++ [w] else walls_to_remove)
  end.

(** [random.sample(population, n)]: [n] draws without replacement. *)
Fixpoint sample {A} (k : nat) (population : list A) (n : nat)
  : list A * nat :=
  match n with
  | O => ([], k)
  | S n' =>
    let i := (rnd k `mod` length population)%nat in
    match population !! i with
    | Some x =>
      let '(xs, k') := sample (S k) (delete i population) n' in (x :: xs, k')
    | None => ([], k)
    end
  end.

Fixpoint clear_all (maze : grid) (walls : list cell) : outcome grid :=
  match walls with
  | [] => Done maze
  | (r, c) :: walls' => maze' ← maze_set maze r c OPEN; clear_all maze' walls'
  end.

Definition add_multiple_paths (k : nat) (maze : grid) : outcome (grid * nat) :=
  horizontal ← collect maze (λ w, ((w.1 - 1, w.2), (w.1 + 1, w.2)))
    (r ← range 2 (height self - 1) 2; c ← range 1 (width self - 1) 2; [(r, c)])
    [];
  walls_to_remove ← collect maze (λ w, ((w.1, w.2 - 1), (w.1, w.2 + 1)))
    (r ← range 1 (height self - 1) 2; c ← range 2 (width self - 1) 2; [(r, c)])
    horizontal;
  let num_to_remove := (length walls_to_remove `div` 8)%nat in
  if bool_decide (0 < num_to_remove)%nat then
    let '(chosen, k') := sample k walls_to_remove num_to_remove in
    maze' ← clear_all maze chosen;
    Done (maze', k')
  else Done (maze, k).

(** *** The generator (lines 14-92) *)

(** Lines 79-85: the goal, by [place_connected_goal] or else at the
    furthest cell.  A cell is a pair, which is never falsy: the test
    [furthest_cell and ...] is the comparison alone. *)
Definition goal_placement (maze : grid) : outcome grid :=
  '(maze', goal_placed) ← place_connected_goal maze;
  if goal_placed : bool then Done maze'
  else
    furthest_cell ← find_furthest_cell maze' (1, 1);
    if bool_decide (furthest_cell ≠ (1, 1)) then
      maze_set maze' furthest_cell.1 furthest_cell.2 GOAL
    else Done maze'.

(** The run to its end: the object with [self.maze] set, and the events in
    the order they are yielded. *)
Definition wilson_algorithm_generator : outcome (MazeGenerator * list event) :=
  let maze0 := replicate (Z.to_nat (height self))
                         (replicate (Z.to_nat (width self)) WALL) in
  let start_cell := (1, 1) in
  maze1 ← maze_set maze0 start_cell.1 start_cell.2 OPEN;
  let in_maze := {[start_cell]} in
  let remaining_cells := remaining_of in_maze in
  '(maze2, _, k, evs) ←
    rounds (length remaining_cells) maze1 in_maze remaining_cells 0%nat;
  maze3 ← maze_set maze2 1 1 START;
  maze5 ← goal_placement maze3;
  '(maze6, _) ← (if multiple_solutions self then add_multiple_paths k maze5
                 else Done (maze5, k));
  Done ({| width := width self; height := height self;
           multiple_solutions := multiple_solutions self;
           maze := Some maze6 |},
        (maze1, "initial"%string, PCell start_cell) :: evs
          ++ [(maze6, "complete"%string, PNone)]).

End generator.

(** * The vocabulary of the statements

    The definitions the lemmas and the theorems are stated with: the shape of
    a grid and the reading of a cell, the invariants of the loops, reachability
    and distance in the grid, the spanning-tree property, and the concrete
    generators and grids the examples run on. *)

(** ** Grids and cells *)

(** A grid of [h] rows of [w] characters each. *)
Definition shape (h w : Z) (maze : grid) : Prop :=
  length maze = Z.to_nat h ∧ Forall (λ row, length row = Z.to_nat w) maze.

(** A position of such a grid. *)
Definition inside (h w : Z) (p : cell) : Prop := 0 ≤ p.1 < h ∧ 0 ≤ p.2 < w.

(** The character at a cell of non-negative coordinates, if there is one. *)
Definition peek (maze : grid) (p : cell) : option ascii :=
  if bool_decide (0 ≤ p.1 ∧ 0 ≤ p.2)
  then maze !! Z.to_nat p.1 ≫= λ row, row !! Z.to_nat p.2
  else None.

(** The grid with [ch] at the cell [p]; the same grid when [p] is not one of
    its positions. *)
Definition poke (maze : grid) (p : cell) (ch : ascii) : grid :=
  alter (λ row, <[Z.to_nat p.2 := ch]> row) (Z.to_nat p.1) maze.

(** Strictly inside the border, where passage cells and the walls between
    them lie. *)
Definition interior (self : MazeGenerator) (p : cell) : Prop :=
  1 ≤ p.1 < height self - 1 ∧ 1 ≤ p.2 < width self - 1.

(** Two steps apart along one axis: the coarse graph of the walk. *)
Definition coarse_adjacent (a b : cell) : Prop :=
  (b.1 = a.1 ∧ (b.2 = a.2 + 2 ∨ b.2 = a.2 - 2))
  ∨ (b.2 = a.2 ∧ (b.1 = a.1 + 2 ∨ b.1 = a.1 - 2)).

Section walk_terms.

Variable self : MazeGenerator.

(** Consecutive cells of a path are neighbours in the coarse graph. *)
Definition chained (path : list cell) : Prop :=
  ∀ i a b, path !! i = Some a → path !! S i = Some b → b ∈ neighbors self a.

(** What the inner loop keeps true of [path] and [current]. *)
Record trail (in_maze : gset cell) (path : list cell) (current : cell)
  : Prop := {
  trail_NoDup : NoDup path;
  trail_last : last path = Some current;
  trail_interior : Forall (interior self) path;
  trail_chained : chained path;
  trail_fresh : ∀ x, x ∈ path → x ≠ current → x ∉ in_maze
}.

End walk_terms.

(** Every event of a walk carries a copy of a simple path. *)
Definition walking_event (e : event) : Prop :=
  e.1.2 = "walking"%string ∧ ∃ q, e.2 = PPath q ∧ NoDup q.

Definition midpoint (a b : cell) : cell :=
  ((a.1 + b.1) `div` 2, (a.2 + b.2) `div` 2).

(** The cells lines 57-68 write to, in order: each path cell, followed by
    the cell half way to its successor. *)
Fixpoint trace (path : list cell) : list cell :=
  match path with
  | [] => []
  | p :: rest =>
    p :: match rest with
         | [] => trace rest
         | q :: _ => midpoint p q :: trace rest
         end
  end.

Definition pokes (maze : grid) (l : list cell) : grid :=
  foldl (λ m x, poke m x OPEN) maze l.

Definition nonneg (p : cell) : Prop := 0 ≤ p.1 ∧ 0 ≤ p.2.

Definition adding_event (e : event) : Prop :=
  e.1.2 = "adding_path"%string ∧ ∃ c, e.2 = PCell c.

Definition tag (e : event) : string := e.1.2.

(** The payload an event of each phase carries. *)
Definition well_formed (e : event) : Prop :=
  match e.2 with
  | PCell _ => tag e ∈ ["initial"; "walk_start"; "adding_path"]%string
  | PPath _ => tag e = "walking"%string
  | PNone => tag e ∈ ["path_complete"; "complete"]%string
  end.

(** One round of the outer loop with [n] steps walked and [m] cells added. *)
Definition round_tags (r : nat * nat) : list string :=
  ("walk_start" :: replicate r.1 "walking"
     ++ replicate r.2 "adding_path" ++ ["path_complete"])%string.

(** The valid sizes: odd, three at least. *)
Definition valid (self : MazeGenerator) : Prop :=
  (3 ≤ height self ∧ height self `mod` 2 = 1)
  ∧ (3 ≤ width self ∧ width self `mod` 2 = 1).

(** Passage cells: odd row and odd column. *)
Definition passage (self : MazeGenerator) (p : cell) : Prop :=
  (1 ≤ p.1 < height self ∧ p.1 `mod` 2 = 1)
  ∧ (1 ≤ p.2 < width self ∧ p.2 `mod` 2 = 1).

Section rounds_terms.

Variable self : MazeGenerator.
Variable rnd : nat → nat.

(** The walks of a run, one entry a round: the in-maze set the walk
    started with, the path and the cell it stopped with. *)
Fixpoint walks (fuel : nat) (maze : grid) (in_maze : gset cell)
    (remaining_cells : list cell) (k : nat)
  : list (gset cell * list cell * cell) :=
  match remaining_cells, fuel with
  | c0 :: _, S fuel' =>
    let current := choice rnd k c0 remaining_cells in
    let '(path, c, k1, _) :=
      walk self rnd max_steps maze in_maze [current] current (S k) in
    (in_maze, path, c)
      :: match connect maze in_maze path with
         | Done (maze', in_maze', _) =>
           walks fuel' maze' in_maze' (remaining_of self in_maze') k1
         | _ => []
         end
  | _, _ => []
  end.

End rounds_terms.

(** A cell of the grid that is not a wall. *)
Definition free (maze : grid) (p : cell) : Prop :=
  match peek maze p with
  | Some ch => ch ≠ WALL
  | None => False
  end.

#[global] Instance free_dec (maze : grid) (p : cell) : Decision (free maze p).
Proof. unfold free. destruct (peek maze p); apply _. Defined.

(** The four cells next to [a], in the order the traversals try them. *)
Definition around (a : cell) : list cell :=
  (λ d : Z * Z, (a.1 + d.1, a.2 + d.2)) <$> [(0, 1); (0, -1); (1, 0); (-1, 0)].

(** One move of the traversals: to a cell next to [a] that is not a wall. *)
Definition step (maze : grid) (a b : cell) : Prop := b ∈ around a ∧ free maze b.

(** [b] can be reached from [a] through cells that are not walls. *)
Definition reachable (maze : grid) (a b : cell) : Prop := rtc (step maze) a b.

(** [n] is the least number of moves from [a] to [b]. *)
Definition distance (maze : grid) (a b : cell) (n : nat) : Prop :=
  nsteps (step maze) n a b ∧ ∀ m, nsteps (step maze) m a b → (n ≤ m)%nat.

Section traversal_terms.

Variable maze : grid.

(** The cells a visit of [a] adds. *)
Definition fresh (visited : gset cell) (a : cell) : list cell :=
  filter (λ n, free maze n ∧ n ∉ visited) (around a).

End traversal_terms.

Section reach_terms.

Variable self : MazeGenerator.
Variable maze : grid.

(** Every position of the grid. *)
Definition positions : gset cell :=
  list_to_set (r ← range 0 (height self) 1; c ← range 0 (width self) 1;
               [(r, c)]).

Variable start : cell.

(** What the loop of [get_reachable_positions] keeps true. *)
Record reach_inv (visited : gset cell) (queue : list cell) : Prop := {
  reach_start : start ∈ visited;
  reach_sound : ∀ x, x ∈ visited → reachable maze start x;
  reach_queue : ∀ x, x ∈ queue → x ∈ visited;
  reach_closed : ∀ x y, x ∈ visited → x ∉ queue → step maze x y → y ∈ visited;
  reach_bound : visited ⊆ {[start]} ∪ positions
}.

End reach_terms.

Section discovery.

Variable self : MazeGenerator.

(** The queue entries of [find_furthest_cell] in the order they are taken
    from the queue, which is the order they were put in. *)
Fixpoint discovered (fuel : nat) (maze : grid) (visited : gset cell)
    (queue : list (cell * Z)) : list (cell * Z) :=
  match queue, fuel with
  | ((r, c), distance) :: queue', S fuel' =>
    ((r, c), distance)
      :: match expand self (λ n, (n, distance + 1)) maze r c directions
                 visited queue' with
         | Done (visited', queue'') => discovered fuel' maze visited' queue''
         | _ => []
         end
  | _, _ => []
  end.

(** The cells in the order the traversal from [start] discovers them. *)
Definition discovery (maze : grid) (start : cell) : list cell :=
  (discovered (bfs_fuel self) maze {[start]} [(start, 0)]).*1.

End discovery.

Section furthest_terms.

Variable self : MazeGenerator.
Variable maze : grid.
Variable start : cell.

(** What the loop of [find_furthest_cell] keeps true; [done] are the
    entries taken from the queue so far. *)
Record furthest_inv (done : list (cell * Z)) (visited : gset cell)
    (queue : list (cell * Z)) (furthest_cell : cell) (max_distance : Z)
  : Prop := {
  fi_visited : ∀ x, x ∈ visited ↔ x ∈ (done ++ queue).*1;
  fi_NoDup : NoDup (done ++ queue).*1;
  fi_first : head (done ++ queue) = Some (start, 0);
  fi_label : ∀ x d, (x, d) ∈ done ++ queue →
             0 ≤ d ∧ nsteps (step maze) (Z.to_nat d) start x;
  fi_closed : ∀ x d y, (x, d) ∈ done → step maze x y →
              ∃ d', (y, d') ∈ done ++ queue ∧ d' ≤ d + 1;
  fi_sorted : ∀ i j x d y e, (i ≤ j)%nat →
              (done ++ queue) !! i = Some (x, d) →
              (done ++ queue) !! j = Some (y, e) → d ≤ e;
  fi_window : ∀ x d y e, head queue = Some (x, d) → (y, e) ∈ queue →
              e ≤ d + 1;
  fi_best : (done = [] ∧ furthest_cell = start ∧ max_distance = 0)
            ∨ (∃ i, done !! i = Some (furthest_cell, max_distance)
                    ∧ (∀ j y e, (j < i)%nat → done !! j = Some (y, e) →
                                e < max_distance)
                    ∧ ∀ y e, (y, e) ∈ done → e ≤ max_distance);
  fi_bound : visited ⊆ {[start]} ∪ positions self
}.

End furthest_terms.

Definition removable_wall (maze : grid) (sides : cell → cell * cell)
    (w : cell) : Prop :=
  peek maze (sides w).1 = Some OPEN ∧ peek maze (sides w).2 = Some OPEN
  ∧ peek maze w = Some WALL.

Definition odd2 (p : cell) : Prop := p.1 `mod` 2 = 1 ∧ p.2 `mod` 2 = 1.

(** The cells half way between the consecutive cells of a path. *)
Fixpoint mids (path : list cell) : list cell :=
  match path with
  | a :: (b :: _) as rest => midpoint a b :: mids rest
  | _ => []
  end.

(** Consecutive cells are two steps apart. *)
Definition linked (path : list cell) : Prop :=
  ∀ i a b, path !! i = Some a → path !! S i = Some b → coarse_adjacent a b.

(** The cleared walls: the cells of the grid that are not walls and do not
    lie at odd row and odd column. *)
Definition cleared_walls (self : MazeGenerator) (maze : grid) : gset cell :=
  filter (λ q, free maze q ∧ ¬ odd2 q) (positions self).

(** What every round keeps true of the maze, whatever the walks do. *)
Record plain (self : MazeGenerator) (maze : grid) (s : gset cell) : Prop := {
  plain_chars : ∀ q ch, peek maze q = Some ch → ch = WALL ∨ ch = OPEN;
  plain_free : ∀ q, free maze q → interior self q;
  plain_open : ∀ q, q ∈ s → peek maze q = Some OPEN
}.

(** What every round keeps true when its walk ends in the in-maze set. *)
Record spanning (self : MazeGenerator) (maze : grid) (s : gset cell)
  : Prop := {
  span_passage : ∀ p, p ∈ s → passage self p;
  span_count : (size (cleared_walls self maze) + 1 = size s)%nat;
  span_edge : ∀ a b, odd2 a → coarse_adjacent a b →
              free maze (midpoint a b) → a ∈ s;
  span_reach : ∀ p, p ∈ s → reachable maze (1, 1) p
}.

(** The maze at the first event: walls, but for the start cell. *)
Definition start_maze (self : MazeGenerator) : grid :=
  poke (replicate (Z.to_nat (height self))
                  (replicate (Z.to_nat (width self)) WALL)) (1, 1) OPEN.

(** The walks of the run of the generator. *)
Definition generation_walks (self : MazeGenerator) (rnd : nat → nat)
  : list (gset cell * list cell * cell) :=
  walks self rnd (length (remaining_of self {[(1, 1)]})) (start_maze self)
        {[(1, 1)]} (remaining_of self {[(1, 1)]}) 0%nat.

(** A walk that has stopped on a cell of the in-maze set. *)
Definition reached (w : gset cell * list cell * cell) : Prop := w.2 ∈ w.1.1.

#[global] Instance reached_dec (w : gset cell * list cell * cell) :
  Decision (reached w).
Proof. unfold reached. apply _. Defined.

(** The completed grid is a spanning tree of the passage cells: one cleared
    wall less than there are passage cells, and the cells reached from the
    start among those at odd row and odd column are the passage cells. *)
Definition tree_maze (self : MazeGenerator) (final : grid) : Prop :=
  (size (cleared_walls self final) + 1 = length (all_cells self))%nat
  ∧ ∃ vf, get_reachable_positions self final (1, 1) = Done vf
          ∧ ∀ p, odd2 p → p ∈ vf ↔ passage self p.

(** The next odd integer at or above [n]. *)
Definition rounded (n : Z) : Z := if bool_decide (n `mod` 2 = 1) then n else n + 1.

Definition walk_path (w : list cell * cell * nat * list event) : list cell :=
  w.1.1.1.

Definition walk_stop (w : list cell * cell * nat * list event) : cell :=
  w.1.1.2.

Definition walk_events_of (w : list cell * cell * nat * list event)
  : list event := w.2.

(** The path an event of the walk carries is simple. *)
Definition simple_event (e : event) : Prop :=
  match e.2 with
  | PPath q => NoDup q
  | _ => True
  end.

(** Three passage cells in a row: (1, 1), (1, 3) and (1, 5). *)
Definition corridor : MazeGenerator :=
  {| width := 7; height := 3; multiple_solutions := false; maze := None |}.

(** The random source whose every draw selects the first element. *)
Definition first_choice : nat → nat := λ _, 0%nat.

(** The random source whose n-th draw is n. *)
Definition counting : nat → nat := λ n, n.

(** C3 as the claim states it: a size still below three after the rounding
    is rejected when the generator is constructed. *)
Definition rejects_small_sizes : Prop :=
  ∀ w h m, rounded w < 3 ∨ rounded h < 3 → ∃ e, __init__ w h m = Raise e.

(** C1 as the claim states it: when the walk stops on a cell outside the
    in-maze set, the round leaves the maze and the in-maze set as they
    were. *)
Definition abandons_stalled_walks (self : MazeGenerator) (rnd : nat → nat)
  : Prop :=
  ∀ maze s current k,
    walk_stop (walk self rnd max_steps maze s [current] current k) ∉ s →
    ∃ evs,
      connect maze s
              (walk_path (walk self rnd max_steps maze s [current] current k))
      = Done (maze, s, evs).

(** The maze of the generator when the run is over. *)
Definition final_maze (o : outcome (MazeGenerator * list event)) : option grid :=
  match o with
  | Done (g, _) => maze g
  | _ => None
  end.

Definition row (s : string) : list ascii := String.list_ascii_of_string s.

(** The grid the corridor ends with under [first_choice]. *)
Definition corridor_final : grid :=
  [row "#######"; row "#A#   #"; row "#######"].

(** C2 as the claim states it: the run ends with a grid that is a spanning
    tree of the passage cells. *)
Definition always_tree (self : MazeGenerator) (rnd : nat → nat) : Prop :=
  ∃ final, final_maze (wilson_algorithm_generator self rnd) = Some final
           ∧ tree_maze self final.

(** C5 as the claim states it: with more than one passage cell the run ends
    with a grid that has a goal, reachable from the start. *)
Definition always_goal (self : MazeGenerator) (rnd : nat → nat) : Prop :=
  (1 < length (all_cells self))%nat →
  ∃ final g, final_maze (wilson_algorithm_generator self rnd) = Some final
             ∧ peek final g = Some GOAL ∧ reachable final (1, 1) g.

(** A corridor with its three passage cells joined, the start marked. *)
Definition open_corridor : grid :=
  [row "#######"; row "#A    #"; row "#######"].

(** Seven by seven: nine passage cells. *)
Definition square : MazeGenerator :=
  {| width := 7; height := 7; multiple_solutions := true; maze := None |}.

(** Every passage cell open and every wall standing. *)
Definition cells_only (self : MazeGenerator) : grid :=
  pokes (replicate (Z.to_nat (height self))
                   (replicate (Z.to_nat (width self)) WALL))
        (all_cells self).

(** Five by five. *)
Definition small_square : MazeGenerator :=
  {| width := 5; height := 5; multiple_solutions := false; maze := None |}.

(** The start with an open cell to its right and an open cell below. *)
Definition fork : grid :=
  [row "#####"; row "#A ##"; row "# ###"; row "#####"; row "#####"].

(** C7 as the claim states it: the cell returned is at the greatest
    distance from the start, and no cell at that distance is discovered
    after it. *)
Definition last_discovered_wins (self : MazeGenerator) (maze : grid)
    (start : cell) : Prop :=
  ∃ fc D i,
    find_furthest_cell self maze start = Done fc
    ∧ distance maze start fc D
    ∧ (∀ x n, distance maze start x n → (n ≤ D)%nat)
    ∧ discovery self maze start !! i = Some fc
    ∧ ∀ j y, discovery self maze start !! j = Some y →
             distance maze start y D → (j ≤ i)%nat.

(** The order of the scans of [place_connected_goal]: [p] is tried before
    [q] when it lies in a lower row of the picture (a greater row number),
    or in the same row further to the right. *)
Definition scanned_before (p q : cell) : Prop :=
  q.1 < p.1 ∨ (q.1 = p.1 ∧ q.2 < p.2).

(** A cell the goal may go to: another cell than the start, reachable from
    it. *)
Definition goal_target (maze : grid) (p : cell) : Prop :=
  p ≠ (1, 1) ∧ reachable maze (1, 1) p.

(** [g] is the cell of [P] that the scans try first. *)
Definition first_scanned (P : cell → Prop) (g : cell) : Prop :=
  P g ∧ ∀ q, P q → q = g ∨ scanned_before g q.

(** A corridor whose start has one open cell next to it, a wall cell of the
    tree. *)
Definition stub : grid := [row "#######"; row "#A ####"; row "#######"].

(** A wall with an open cell above it and an open cell below it. *)
Definition between_rows (maze : grid) (w : cell) : Prop :=
  peek maze (w.1 - 1, w.2) = Some OPEN ∧ peek maze (w.1 + 1, w.2) = Some OPEN
  ∧ peek maze w = Some WALL.

(** A wall with an open cell to its left and an open cell to its right. *)
Definition between_cols (maze : grid) (w : cell) : Prop :=
  peek maze (w.1, w.2 - 1) = Some OPEN ∧ peek maze (w.1, w.2 + 1) = Some OPEN
  ∧ peek maze w = Some WALL.

(** The walls [add_multiple_paths] may open: strictly inside the border, at
    an even row and an odd column between two open cells of that column, or
    at an odd row and an even column between two open cells of that row. *)
Definition openable (self : MazeGenerator) (maze : grid) : gset cell :=
  filter (λ w, interior self w
               ∧ ((w.1 `mod` 2 = 0 ∧ w.2 `mod` 2 = 1 ∧ between_rows maze w)
                  ∨ (w.1 `mod` 2 = 1 ∧ w.2 `mod` 2 = 0 ∧ between_cols maze w)))
         (positions self).

(** Even row and even column: the posts between the walls. *)
Definition even2 (p : cell) : Prop := p.1 `mod` 2 = 0 ∧ p.2 `mod` 2 = 0.

(** A cell with one even coordinate whose two neighbours along the other
    axis are not walls: it joins two cells of odd row and odd column. *)
Definition door (maze : grid) (q : cell) : Prop :=
  (q.1 `mod` 2 = 0 ∧ q.2 `mod` 2 = 1
   ∧ free maze (q.1 - 1, q.2) ∧ free maze (q.1 + 1, q.2))
  ∨ (q.1 `mod` 2 = 1 ∧ q.2 `mod` 2 = 0
     ∧ free maze (q.1, q.2 - 1) ∧ free maze (q.1, q.2 + 1)).

(** What every round keeps true of the grid and the in-maze set, whatever
    the walks do: the open cells of odd row and odd column are the cells of
    the in-maze set, and every other open cell is a door. *)
Record layout (self : MazeGenerator) (maze : grid) (s : gset cell) : Prop := {
  lay_plain : plain self maze s;
  lay_cells : ∀ q, odd2 q → free maze q → q ∈ s;
  lay_passage : ∀ q, q ∈ s → passage self q;
  lay_door : ∀ q, free maze q → ¬ odd2 q → door maze q
}.

(** The grid an event hands out: the maze as it is when the event is
    yielded. *)
Definition snapshot (e : event) : grid := e.1.1.

(** Every cell that is not a wall in [maze] is not a wall in [maze']. *)
Definition grows (maze maze' : grid) : Prop :=
  ∀ q, free maze q → free maze' q.

(** * The generation view of the visualizer (visualizer.py)

    What the visualizer computes is embedded; what it asks of pygame is
    kept as a list of commands, in the order of the calls.  The size of the
    display and the width of a rendered text are pygame's to tell: they are
    parameters.  The solving view is not embedded: it runs on the classes
    of maze_solver.py. *)

Definition MAZE_WIDTH : Z := 41.
Definition MAZE_HEIGHT : Z := 31.
Definition MARGIN : Z := 10.
Definition FPS : Z := 30.

Abbreviation color := (Z * Z * Z)%type.

Definition WALL_COLOR : color := (40, 40, 40).
Definition START_COLOR : color := (255, 0, 0).
Definition GOAL_COLOR : color := (0, 171, 28).
Definition EMPTY_COLOR : color := (237, 240, 252).
Definition WALK_COLOR : color := (255, 255, 0).

(** [pygame.font.SysFont("Arial", size, bold=True)] *)
Record font := { font_name : string; font_size : Z; font_bold : bool }.

(** [font.render(text, True, color)] *)
Record surface := {
  surface_font : font;
  surface_text : string;
  surface_color : color
}.

Inductive pygame_key := K_q | K_m | K_g | K_s | K_r | K_other.

(** An event of [pygame.event.get()], by its type. *)
Inductive pygame_event :=
  | QUIT
  | KEYDOWN (key : pygame_key)
  | OTHER_EVENT.

(** The calls that change the screen or wait for the clock. *)
Inductive command :=
  | Tick (framerate : Z)
  | Fill (c : color)
  | DrawRect (c : color) (rect : Z * Z * Z * Z)
  | Blit (source : surface) (dest : Z * Z)
  | Flip.

Inductive ui_state :=
  | STATE_MENU
  | STATE_GENERATING
  | STATE_READY_TO_SOLVE
  | STATE_SOLVING
  | STATE_SOLVED.

Module Visualizer.

(** The fields of a [Visualizer] but for the objects of pygame and of
    maze_solver.py ([screen], [clock], [mazes], [titles], [generators]). *)
Record t := {
  screen_width : Z;
  screen_height : Z;
  quadrant_width : Z;
  quadrant_height : Z;
  cell_size : Z;
  title_font : font;
  stats_font : font;
  menu_font : font;
  state : ui_state;
  maze_data : option grid;
  multiple_solutions : bool;
  all_solved : bool
}.

(** [Visualizer.__init__], [current_w] and [current_h] being what
    [pygame.display.Info()] reports. *)
Definition __init__ (current_w current_h : Z) : t :=
  let screen_width := current_w in
  let screen_height := current_h in
  let quadrant_width := screen_width `div` 2 - 2 * MARGIN in
  let quadrant_height := (screen_height - 60) `div` 2 - 2 * MARGIN in
  let title_font_size := 16 `max` (screen_width `div` 80) in
  let stats_font_size := 12 `max` (screen_width `div` 100) in
  let menu_font_size := 24 `max` (screen_width `div` 60) in
  {| screen_width := screen_width;
     screen_height := screen_height;
     quadrant_width := quadrant_width;
     quadrant_height := quadrant_height;
     cell_size := (quadrant_width `div` MAZE_WIDTH)
                    `min` (quadrant_height `div` MAZE_HEIGHT);
     title_font := {| font_name := "Arial"; font_size := title_font_size;
                      font_bold := true |};
     stats_font := {| font_name := "Arial"; font_size := stats_font_size;
                      font_bold := true |};
     menu_font := {| font_name := "Arial"; font_size := menu_font_size;
                     font_bold := true |};
     state := STATE_MENU;
     maze_data := None;
     multiple_solutions := false;
     all_solved := false |}.

End Visualizer.

(** [status == "walking" and extra_data and (row, col) in extra_data]: a
    path counts when it is not empty and holds the cell; a cell, a pair of
    integers, holds no pair; [None] is false. *)
Definition on_walk (status : string) (extra_data : payload) (row col : Z)
  : bool :=
  bool_decide (status = "walking"%string)
  && match extra_data with
     | PPath path => bool_decide (path ≠ []) && bool_decide ((row, col) ∈ path)
     | PCell _ => false
     | PNone => false
     end.

Definition draw_generation_cell (self : Visualizer.t) (maze_data : grid)
    (row col offset_x offset_y : Z) (status : string) (extra_data : payload)
  : outcome command :=
  let x := offset_x + col * Visualizer.cell_size self in
  let y := offset_y + row * Visualizer.cell_size self in
  cell ← maze_get maze_data row col;
  let color :=
    if bool_decide (cell = "#"%char) then WALL_COLOR
    else if bool_decide (cell = "A"%char) then START_COLOR
    else if bool_decide (cell = "B"%char) then GOAL_COLOR
    else if bool_decide (cell = " "%char) then
      if on_walk status extra_data row col then WALK_COLOR else EMPTY_COLOR
    else WALL_COLOR in
  Done (DrawRect color (x, y, Visualizer.cell_size self - 1,
                        Visualizer.cell_size self - 1)).

(** A [for] loop over [l] whose body yields commands. *)
Fixpoint for_each {A} (l : list Z) (body : Z → outcome (list A))
  : outcome (list A) :=
  match l with
  | [] => Done []
  | i :: l' => cs ← body i; cs' ← for_each l' body; Done (cs ++ cs')
  end.

(** [len(seq)] *)
Definition len {A} (l : list A) : Z := Z.of_nat (length l).

Section visualizer.
Variable get_width : surface → Z.

Definition draw_maze_generation (self : Visualizer.t) (maze_data : grid)
    (status : string) (extra_data : payload) : outcome (list command) :=
  row0 ← getitem maze_data 0;
  let maze_width := len row0 * Visualizer.cell_size self in
  let maze_height := len maze_data * Visualizer.cell_size self in
  let offset_x := (Visualizer.screen_width self - maze_width) `div` 2 in
  let offset_y := (Visualizer.screen_height self - maze_height) `div` 2 in
  cells ← for_each (range 0 (len maze_data) 1) (λ i,
             row0 ← getitem maze_data 0;
             for_each (range 0 (len row0) 1) (λ j,
               c ← draw_generation_cell self maze_data i j offset_x offset_y
                                        status extra_data;
               Done [c]));
  let status_text :=
    ("Generating maze using Wilson's Algorithm... Status: " +:+ status)%string
  in
  let text := {| surface_font := Visualizer.title_font self;
                 surface_text := status_text;
                 surface_color := (255, 255, 255) |} in
  let text_x := (Visualizer.screen_width self - get_width text) `div` 2 in
  let inst_text := {| surface_font := Visualizer.stats_font self;
                      surface_text := "Press Q to quit during generation";
                      surface_color := (200, 200, 200) |} in
  let inst_x := (Visualizer.screen_width self - get_width inst_text) `div` 2 in
  Done (cells ++ [Blit text (text_x, 20); Blit inst_text (inst_x, 50)]).

(** [event.type == pygame.QUIT or (event.type == pygame.KEYDOWN and
    event.key == pygame.K_q)] *)
Definition quits (e : pygame_event) : bool :=
  match e with
  | QUIT => true
  | KEYDOWN K_q => true
  | _ => false
  end.

(** The [for] of lines 229-238 over the events the generator yields;
    [input n] is what [pygame.event.get()] returns at the [n]-th frame.
    Returns whether the loop was left by [return None], and the commands
    frame by frame. *)
Fixpoint frames (self : Visualizer.t) (input : nat → list pygame_event)
    (n : nat) (evs : list event) : outcome (bool * list (list command)) :=
  match evs with
  | [] => Done (false, [])
  | (maze_data, status, extra_data) :: evs' =>
    cs ← draw_maze_generation self maze_data status extra_data;
    if existsb quits (input n)
    then Done (true, [Tick FPS :: Fill (0, 0, 0) :: cs])
    else
      '(stopped, fs) ← frames self input (S n) evs';
      Done (stopped, (Tick FPS :: Fill (0, 0, 0) :: cs ++ [Flip]) :: fs)
  end.

(** [generate_maze].  The generator is run to its end before the frames
    are drawn, where Python runs it frame by frame: the run of a generator
    of this size raises nothing, so no frame is lost to an exception. *)
Definition generate_maze (self : Visualizer.t) (rnd : nat → nat)
    (input : nat → list pygame_event)
  : outcome (option grid * list (list command)) :=
  generator ← __init__ MAZE_WIDTH MAZE_HEIGHT
                       (Visualizer.multiple_solutions self);
  '(generator', evs) ← wilson_algorithm_generator generator rnd;
  '(stopped, fs) ← frames self input 0 evs;
  Done (if stopped : bool then None else maze generator', fs).

End visualizer.

(** The rectangle of the cell [p] in the generation view. *)
Definition cell_rect (self : Visualizer.t) (offset_x offset_y : Z) (p : cell)
  : Z * Z * Z * Z :=
  (offset_x + p.2 * Visualizer.cell_size self,
   offset_y + p.1 * Visualizer.cell_size self,
   Visualizer.cell_size self - 1, Visualizer.cell_size self - 1).

(** A rectangle (left, top, width, height) lies on a screen of the given
    size. *)
Definition on_screen (screen_width screen_height : Z) (rect : Z * Z * Z * Z)
  : Prop :=
  0 ≤ rect.1.1.1 ∧ 0 ≤ rect.1.1.2
  ∧ rect.1.1.1 + rect.1.2 ≤ screen_width
  ∧ rect.1.1.2 + rect.2 ≤ screen_height.

(** Two rectangles have no pixel in common. *)
Definition apart (a b : Z * Z * Z * Z) : Prop :=
  a.1.1.1 + a.1.2 ≤ b.1.1.1 ∨ b.1.1.1 + b.1.2 ≤ a.1.1.1
  ∨ a.1.1.2 + a.2 ≤ b.1.1.2 ∨ b.1.1.2 + b.2 ≤ a.1.1.2.

(** The cells of a grid of [h] rows and [w] columns, row by row. *)
Definition row_major (h w : Z) : list cell :=
  r ← range 0 h 1; c ← range 0 w 1; [(r, c)].

(** A rectangle drawn in the colour of the walk. *)
Definition walk_rect (c : command) : bool :=
  match c with
  | DrawRect col _ => bool_decide (col = WALK_COLOR)
  | _ => false
  end.

(** Four passage cells in a row: (1, 1), (1, 3), (1, 5) and (1, 7). *)
Definition long_corridor : MazeGenerator :=
  {| width := 9; height := 3; multiple_solutions := false; maze := None |}.

(** * Lemmas *)

(** ** Sequences: facts *)

Lemma bind_Done {A B} (m : outcome A) (f : A → outcome B) (b : B) :
  m ≫= f = Done b ↔ ∃ a, m = Done a ∧ f a = Done b.
Proof.
  destruct m as [a|e|]; simpl; split.
  - intros H. by exists a.
  - by intros (a' & [= ->] & H).
  - done.
  - by intros (? & ? & ?).
  - done.
  - by intros (? & ? & ?).
Qed.

Lemma Done_bind {A B} (a : A) (f : A → outcome B) : Done a ≫= f = f a.
Proof. done. Qed.

Lemma elem_of_range_up (start stop step x : Z) :
  0 < step →
  x ∈ range start stop step ↔ start ≤ x < stop ∧ (x - start) `mod` step = 0.
Proof.
  intros Hs. unfold range.
  destruct (Z.ltb_spec 0 step) as [_|]; [|lia].
  set (n := (stop - start + step - 1) `div` step).
  assert (Hn : step * n ≤ stop - start + step - 1)
    by (apply Z.mul_div_le; lia).
  rewrite list_elem_of_fmap. split.
  - intros (i & -> & Hi%elem_of_seq). split.
    + nia.
    + replace (start + Z.of_nat i * step - start) with (Z.of_nat i * step) by lia.
      apply Z.mod_mul. lia.
  - intros [Hx Hm]. exists (Z.to_nat ((x - start) `div` step)).
    assert (Hq : x - start = step * ((x - start) `div` step))
      by (apply Z.div_exact; lia).
    assert (0 ≤ (x - start) `div` step) by (apply Z.div_pos; lia).
    split; [lia|]. apply elem_of_seq. split; [lia|].
    assert ((x - start) `div` step + 1 ≤ n); [|lia].
    apply Z.div_le_lower_bound; lia.
Qed.

Lemma elem_of_range_down (start stop step x : Z) :
  step < 0 →
  x ∈ range start stop step ↔ stop < x ≤ start ∧ (start - x) `mod` (- step) = 0.
Proof.
  intros Hs. unfold range.
  destruct (Z.ltb_spec 0 step) as [|_]; [lia|].
  set (t := - step). assert (0 < t) by lia.
  replace (start - stop - step - 1) with (start - stop + t - 1) by lia.
  set (n := (start - stop + t - 1) `div` t).
  assert (Hn : t * n ≤ start - stop + t - 1)
    by (apply Z.mul_div_le; lia).
  rewrite list_elem_of_fmap. split.
  - intros (i & -> & Hi%elem_of_seq). split.
    + nia.
    + replace (start - (start + Z.of_nat i * step)) with (Z.of_nat i * t) by lia.
      apply Z.mod_mul. lia.
  - intros [Hx Hm]. exists (Z.to_nat ((start - x) `div` t)).
    assert (Hq : start - x = t * ((start - x) `div` t))
      by (apply Z.div_exact; lia).
    assert (0 ≤ (start - x) `div` t) by (apply Z.div_pos; lia).
    split; [nia|]. apply elem_of_seq. split; [lia|].
    assert ((start - x) `div` t + 1 ≤ n); [|lia].
    apply Z.div_le_lower_bound; lia.
Qed.

Lemma NoDup_range (start stop step : Z) : step ≠ 0 → NoDup (range start stop step).
Proof.
  intros Hs. unfold range. apply NoDup_fmap_2; [|apply NoDup_seq].
  intros i j Hij. nia.
Qed.

(** A comprehension over two ranges. *)
Lemma elem_of_product (rows cols : list Z) (p : cell) :
  p ∈ (r ← rows; c ← cols; [(r, c)]) ↔ p.1 ∈ rows ∧ p.2 ∈ cols.
Proof.
  destruct p as [r c]. rewrite list_elem_of_bind. split.
  - intros (r' & (c' & Hc1 & Hc)%list_elem_of_bind & Hr).
    apply list_elem_of_singleton in Hc1 as [= -> ->]. done.
  - intros [Hr Hc]. exists r. split; [|done].
    apply list_elem_of_bind. exists c. split; [|done]. by left.
Qed.

Lemma NoDup_product (rows cols : list Z) :
  NoDup rows → NoDup cols → NoDup (r ← rows; c ← cols; [(r, c)] : list cell).
Proof.
  intros Hr Hc. induction Hr as [|r rows Hnin Hr IH]; simpl; [constructor|].
  apply NoDup_app. split_and!.
  - clear -Hc. induction Hc as [|c cols Hnin Hc IH]; simpl; [constructor|].
    constructor; [|done].
    intros (c' & Hin & Hc')%list_elem_of_bind.
    apply list_elem_of_singleton in Hin as [= ->]. done.
  - intros p (c' & Hin & _)%list_elem_of_bind Hp%elem_of_product.
    apply list_elem_of_singleton in Hin as ->. simpl in Hp. tauto.
  - done.
Qed.

(** ** The grid: facts

    [peek] and [poke] are the reading and the writing of a cell at
    non-negative coordinates, without the exception; [maze_get] and
    [maze_set] agree with them wherever the subscripts are not negative. *)

Lemma subscript_nonneg (len : nat) (i : Z) :
  0 ≤ i →
  subscript len i = if bool_decide (i < Z.of_nat len) then Done (Z.to_nat i)
                    else Raise IndexError.
Proof.
  intros Hi. unfold subscript.
  repeat case_bool_decide; try done; lia.
Qed.

Lemma getitem_nonneg {A} (l : list A) (i : Z) :
  0 ≤ i →
  getitem l i = match l !! Z.to_nat i with
                | Some x => Done x
                | None => Raise IndexError
                end.
Proof.
  intros Hi. unfold getitem. rewrite subscript_nonneg by done.
  case_bool_decide as Hlt; simpl; [done|].
  rewrite lookup_ge_None_2; [done|lia].
Qed.

Lemma setitem_nonneg {A} (l : list A) (i : Z) (x : A) :
  0 ≤ i →
  setitem l i x = match l !! Z.to_nat i with
                  | Some _ => Done (<[Z.to_nat i := x]> l)
                  | None => Raise IndexError
                  end.
Proof.
  intros Hi. unfold setitem. rewrite subscript_nonneg by done.
  case_bool_decide as Hlt; simpl.
  - destruct (lookup_lt_is_Some_2 l (Z.to_nat i)) as [y ->]; [lia|done].
  - rewrite lookup_ge_None_2; [done|lia].
Qed.

Lemma maze_get_peek (maze : grid) (r c : Z) :
  0 ≤ r → 0 ≤ c →
  maze_get maze r c = match peek maze (r, c) with
                      | Some ch => Done ch
                      | None => Raise IndexError
                      end.
Proof.
  intros Hr Hc. unfold maze_get, peek. simpl.
  rewrite bool_decide_eq_true_2 by done.
  rewrite getitem_nonneg by done.
  destruct (maze !! Z.to_nat r) as [row|]; cbn; [|done].
  by rewrite getitem_nonneg.
Qed.

Lemma maze_set_poke (maze : grid) (r c : Z) (ch : ascii) :
  0 ≤ r → 0 ≤ c →
  maze_set maze r c ch = match peek maze (r, c) with
                         | Some _ => Done (poke maze (r, c) ch)
                         | None => Raise IndexError
                         end.
Proof.
  intros Hr Hc. unfold maze_set, peek, poke. simpl.
  rewrite bool_decide_eq_true_2 by done.
  rewrite getitem_nonneg by done.
  destruct (maze !! Z.to_nat r) as [row|] eqn:Hrow; cbn; [|done].
  rewrite setitem_nonneg by done.
  destruct (row !! Z.to_nat c) as [x|]; cbn; [|done].
  rewrite setitem_nonneg by done. rewrite Hrow.
  f_equal. apply list_eq. intros i.
  destruct (decide (i = Z.to_nat r)) as [->|Hne].
  - rewrite list_lookup_insert_eq by (by eapply lookup_lt_Some).
    by rewrite list_lookup_alter_eq, Hrow.
  - rewrite list_lookup_insert_ne by done.
    by rewrite list_lookup_alter_ne.
Qed.

Lemma peek_is_Some (h w : Z) (maze : grid) (p : cell) :
  shape h w maze → is_Some (peek maze p) ↔ inside h w p.
Proof.
  intros [Hlen Hrows]. unfold peek, inside. case_bool_decide as Hnn.
  - split.
    + intros [ch Hch].
      destruct (maze !! Z.to_nat p.1) as [row|] eqn:Hrow; simpl in Hch; [|done].
      assert (length row = Z.to_nat w) as Hw
        by (eapply Forall_lookup_1 in Hrows; eauto).
      apply lookup_lt_Some in Hrow, Hch. lia.
    + intros [Hr Hc].
      destruct (lookup_lt_is_Some_2 maze (Z.to_nat p.1)) as [row Hrow]; [lia|].
      rewrite Hrow. simpl. apply lookup_lt_is_Some_2.
      eapply Forall_lookup_1 in Hrows; eauto. lia.
  - split; [by intros [? ?]|lia].
Qed.

Lemma shape_poke (h w : Z) (maze : grid) (p : cell) (ch : ascii) :
  shape h w maze → shape h w (poke maze p ch).
Proof.
  intros [Hlen Hrows]. split.
  - unfold poke. by rewrite length_alter.
  - unfold poke. apply Forall_alter; [done|].
    intros row _ Hrow. by rewrite length_insert.
Qed.

Lemma peek_poke (maze : grid) (p q : cell) (ch : ascii) :
  0 ≤ p.1 → 0 ≤ p.2 →
  peek (poke maze p ch) q
  = if decide (q = p) then (λ _, ch) <$> peek maze p else peek maze q.
Proof.
  intros Hp1 Hp2. destruct p as [r c], q as [r' c']. simpl in *.
  unfold peek, poke. simpl. case_decide as Heq.
  - injection Heq as -> ->. rewrite bool_decide_eq_true_2 by done.
    rewrite list_lookup_alter_eq.
    destruct (maze !! Z.to_nat r) as [row|]; simpl; [|done].
    destruct (row !! Z.to_nat c) as [x|] eqn:Hx; simpl.
    + apply list_lookup_insert_eq. by eapply lookup_lt_Some.
    + rewrite list_insert_ge; [done|]. by apply lookup_ge_None.
  - case_bool_decide as Hnn; [|done].
    destruct (decide (Z.to_nat r' = Z.to_nat r)) as [Hr|Hr].
    + rewrite Hr, list_lookup_alter_eq.
      destruct (maze !! Z.to_nat r) as [row|]; simpl; [|done].
      apply list_lookup_insert_ne. intros Hc. apply Heq. f_equal; lia.
    + by rewrite list_lookup_alter_ne.
Qed.

Lemma shape_replicate (h w : Z) (ch : ascii) :
  shape h w (replicate (Z.to_nat h) (replicate (Z.to_nat w) ch)).
Proof.
  split.
  - by rewrite length_replicate.
  - apply Forall_replicate. by rewrite length_replicate.
Qed.

Lemma peek_replicate (h w : Z) (ch : ascii) (p : cell) :
  inside h w p →
  peek (replicate (Z.to_nat h) (replicate (Z.to_nat w) ch)) p = Some ch.
Proof.
  intros [Hr Hc]. unfold peek. rewrite bool_decide_eq_true_2 by lia.
  rewrite lookup_replicate_2 by lia. simpl.
  rewrite lookup_replicate_2 by lia. done.
Qed.

(** ** The random walk *)

Lemma choice_elem_of {A} (rnd : nat → nat) (k : nat) (d : A) (l : list A) :
  l ≠ [] → choice rnd k d l ∈ l.
Proof.
  intros Hl. unfold choice.
  assert (rnd k `mod` length l < length l)%nat as Hlt.
  { apply Nat.mod_upper_bound. destruct l; [done|]. simpl. lia. }
  destruct (lookup_lt_is_Some_2 l _ Hlt) as [x Hx].
  rewrite nth_lookup, Hx. simpl. by eapply list_elem_of_lookup_2.
Qed.

Lemma elem_of_neighbors (self : MazeGenerator) (current n : cell) :
  n ∈ neighbors self current ↔ interior self n ∧ coarse_adjacent current n.
Proof.
  unfold neighbors, interior, coarse_adjacent.
  rewrite list_elem_of_filter, list_elem_of_fmap.
  destruct current as [r c], n as [nr nc]. simpl. split.
  - intros [Hin (d & [= -> ->] & Hd)]. split; [done|].
    set_unfold in Hd. destruct Hd as [->|[->|[->|[->|[]]]]]; simpl; lia.
  - intros [Hin Hadj]. split; [done|].
    exists (nr - r, nc - c). simpl. split; [f_equal; lia|].
    destruct Hadj as [[-> [->| ->]]|[-> [->| ->]]].
    + replace (r - r) with 0 by lia. replace (c + 2 - c) with 2 by lia.
      rewrite !elem_of_cons. tauto.
    + replace (r - r) with 0 by lia. replace (c - 2 - c) with (-2) by lia.
      rewrite !elem_of_cons. tauto.
    + replace (c - c) with 0 by lia. replace (r + 2 - r) with 2 by lia.
      rewrite !elem_of_cons. tauto.
    + replace (c - c) with 0 by lia. replace (r - 2 - r) with (-2) by lia.
      rewrite !elem_of_cons. tauto.
Qed.

(** *** Loop erasure *)

Lemma extend_path_erase (path : list cell) (next_cell : cell) (i : nat) :
  path !! i = Some next_cell →
  (∀ j, (j < i)%nat → path !! j ≠ Some next_cell) →
  extend_path path next_cell = take (S i) path.
Proof.
  intros Hi Hfirst. unfold extend_path.
  destruct (list_find _ path) as [[j y]|] eqn:Hfind.
  - apply list_find_Some in Hfind as (Hj & -> & Hmin).
    destruct (Nat.lt_trichotomy i j) as [Hlt|[->|Hgt]]; [|done|].
    + by destruct (Hmin i next_cell).
    + by destruct (Hfirst j).
  - apply list_find_None in Hfind.
    eapply Forall_lookup_1 in Hfind; [|exact Hi]. done.
Qed.

Lemma extend_path_append (path : list cell) (next_cell : cell) :
  next_cell ∉ path → extend_path path next_cell = path ++ [next_cell].
Proof.
  intros Hnin. unfold extend_path.
  destruct (list_find _ path) as [[j y]|] eqn:Hfind; [|done].
  apply list_find_Some in Hfind as (Hj & -> & _).
  destruct Hnin. by eapply list_elem_of_lookup_2.
Qed.

(** Either way the path is the old one up to some position, followed by
    nothing or by the new cell, and ends in the chosen cell. *)
Lemma extend_path_cases (path : list cell) (next_cell : cell) :
  (∃ i, path !! i = Some next_cell
        ∧ (∀ j, (j < i)%nat → path !! j ≠ Some next_cell)
        ∧ extend_path path next_cell = take (S i) path)
  ∨ ((next_cell ∉ path) ∧ extend_path path next_cell = path ++ [next_cell]).
Proof.
  unfold extend_path.
  destruct (list_find _ path) as [[j y]|] eqn:Hfind.
  - apply list_find_Some in Hfind as (Hj & -> & Hmin).
    left. exists j. split_and!; [done| |done].
    intros i Hi Hl. by destruct (Hmin i next_cell).
  - right. split; [|done]. apply list_find_None in Hfind.
    intros (i & Hi)%list_elem_of_lookup_1.
    eapply Forall_lookup_1 in Hfind; [|exact Hi]. done.
Qed.

Lemma last_take_lookup {A} (l : list A) (i : nat) (x : A) :
  l !! i = Some x → last (take (S i) l) = Some x.
Proof.
  intros Hi. rewrite last_lookup, length_take.
  apply lookup_lt_Some in Hi as Hlt.
  rewrite Nat.min_l by lia. simpl. by rewrite lookup_take_lt by lia.
Qed.

Lemma extend_path_last (path : list cell) (next_cell : cell) :
  last (extend_path path next_cell) = Some next_cell.
Proof.
  destruct (extend_path_cases path next_cell) as [(i & Hi & _ & ->)|[_ ->]].
  - by apply last_take_lookup.
  - apply last_snoc.
Qed.

Lemma extend_path_NoDup (path : list cell) (next_cell : cell) :
  NoDup path → NoDup (extend_path path next_cell).
Proof.
  intros Hnd.
  destruct (extend_path_cases path next_cell) as [(i & Hi & _ & ->)|[Hnin ->]].
  - eapply sublist_NoDup; [|apply sublist_take]. done.
  - apply NoDup_app. split_and!; [done| |apply NoDup_singleton].
    intros x Hx ->%list_elem_of_singleton. done.
Qed.

Lemma extend_path_head (path : list cell) (next_cell : cell) :
  path ≠ [] → head (extend_path path next_cell) = head path.
Proof.
  intros Hne.
  destruct (extend_path_cases path next_cell) as [(i & Hi & _ & ->)|[Hnin ->]].
  - by destruct path.
  - by destruct path.
Qed.

Section walk_facts.
Variable self : MazeGenerator.
Variable rnd : nat → nat.

Lemma trail_start (in_maze : gset cell) (current : cell) :
  interior self current → trail self in_maze [current] current.
Proof.
  intros Hin. split.
  - apply NoDup_singleton.
  - done.
  - by constructor.
  - intros [|i] a b Ha Hb; done.
  - by intros x ->%list_elem_of_singleton.
Qed.

Lemma trail_extend (in_maze : gset cell) (path : list cell)
    (current next_cell : cell) :
  trail self in_maze path current →
  current ∉ in_maze →
  next_cell ∈ neighbors self current →
  trail self in_maze (extend_path path next_cell) next_cell.
Proof.
  intros [Hnd Hlast Hint Hch Hfr] Hcur Hnext. split.
  - by apply extend_path_NoDup.
  - apply extend_path_last.
  - destruct (extend_path_cases path next_cell)
      as [(i & Hi & _ & ->)|[Hnin ->]].
    + by apply Forall_take.
    + apply Forall_app. split; [done|]. constructor; [|done].
      by apply elem_of_neighbors in Hnext as [? _].
  - destruct (extend_path_cases path next_cell)
      as [(i & Hi & _ & ->)|[Hnin ->]].
    + intros j a b [Ha _]%lookup_take_Some [Hb _]%lookup_take_Some.
      by eapply Hch.
    + intros j a b Ha Hb.
      apply lookup_lt_Some in Hb as Hlen. rewrite length_app in Hlen.
      simpl in Hlen.
      destruct (decide (S j < length path)%nat) as [Hlt|Hge].
      * rewrite lookup_app_l in Ha, Hb by lia. by eapply Hch.
      * rewrite lookup_app_l in Ha by lia.
        rewrite lookup_app_r in Hb by lia.
        replace (S j - length path)%nat with 0%nat in Hb by lia.
        injection Hb as <-.
        rewrite last_lookup in Hlast.
        replace (pred (length path)) with j in Hlast by lia.
        by simplify_eq.
  - intros x Hx Hne.
    assert (x ∈ path) as Hxp.
    { destruct (extend_path_cases path next_cell)
        as [(i & Hi & _ & Heq)|[Hnin Heq]]; rewrite Heq in Hx.
      - by eapply subseteq_take.
      - apply elem_of_app in Hx as [?|Hx%list_elem_of_singleton]; done. }
    destruct (decide (x = current)) as [->|Hxc]; [done|]. by apply Hfr.
Qed.

Lemma walk_trail (budget : nat) (maze : grid) (in_maze : gset cell)
    (path : list cell) (current : cell) (k : nat)
    (p : list cell) (c : cell) (k' : nat) (evs : list event) :
  trail self in_maze path current →
  walk self rnd budget maze in_maze path current k = (p, c, k', evs) →
  trail self in_maze p c ∧ head p = head path ∧ Forall walking_event evs.
Proof.
  revert path current k p c k' evs.
  induction budget as [|budget IH]; intros path current k p c k' evs Htr;
    simpl.
  { intros [= <- <- <- <-]. done. }
  case_decide as Hcur; [by intros [= <- <- <- <-]|].
  destruct (neighbors self current) as [|n0 ns] eqn:Hns;
    [by intros [= <- <- <- <-]|].
  rewrite <-Hns.
  set (next_cell := choice rnd k n0 (neighbors self current)).
  assert (next_cell ∈ neighbors self current) as Hnext.
  { apply choice_elem_of. by rewrite Hns. }
  destruct (walk _ _ _ _ _ _ _ _) as [[[p1 c1] k1] evs1] eqn:Hw.
  intros [= <- <- <- <-].
  pose proof (trail_extend _ _ _ _ Htr Hcur Hnext) as Htr'.
  destruct (IH _ _ _ _ _ _ _ Htr' Hw) as (Hp & Hhead & Hevs).
  split_and!; [done| |].
  - rewrite Hhead. apply extend_path_head.
    destruct Htr as [_ Hlast _ _ _]. by destruct path.
  - constructor; [|done]. split; [done|]. eexists. split; [done|].
    apply extend_path_NoDup, Htr.
Qed.

End walk_facts.

(** ** Connecting a path *)

Lemma shape_pokes (h w : Z) (maze : grid) (l : list cell) :
  shape h w maze → shape h w (pokes maze l).
Proof.
  revert maze. induction l as [|x l IH]; intros maze Hsh; simpl; [done|].
  apply IH. by apply shape_poke.
Qed.

Lemma peek_pokes (maze : grid) (l : list cell) (q : cell) :
  Forall nonneg l →
  peek (pokes maze l) q
  = if decide (q ∈ l) then (λ _, OPEN) <$> peek maze q else peek maze q.
Proof.
  intros Hl. revert maze.
  induction Hl as [|x l [Hx1 Hx2] Hl IH]; intros maze.
  { by rewrite decide_False by apply not_elem_of_nil. }
  change (pokes maze (x :: l)) with (pokes (poke maze x OPEN) l).
  rewrite IH, peek_poke by done. clear IH.
  destruct (decide (q ∈ l)) as [Hin|Hnin], (decide (q = x)) as [->|Hne],
    (decide (_ ∈ x :: l)) as [Hc|Hc]; rewrite ?elem_of_cons in Hc;
    try done; try tauto.
  by destruct (peek maze x).
Qed.

Lemma pokes_app (maze : grid) (l1 l2 : list cell) :
  pokes maze (l1 ++ l2) = pokes (pokes maze l1) l2.
Proof. apply foldl_app. Qed.

Lemma list_to_set_step (p : cell) (rest : list cell) (s : gset cell) :
  list_to_set rest ∪ ({[p]} ∪ s) = list_to_set (p :: rest) ∪ s.
Proof.
  rewrite list_to_set_cons, (assoc_L (∪)).
  by rewrite (comm_L (∪) (list_to_set rest) {[p]}).
Qed.

Section connect_facts.
Variable self : MazeGenerator.

Lemma interior_inside (p : cell) :
  interior self p → inside (height self) (width self) p.
Proof. unfold interior, inside. lia. Qed.

Lemma interior_nonneg (p : cell) : interior self p → nonneg p.
Proof. unfold interior, nonneg. lia. Qed.

Lemma midpoint_interior (a b : cell) :
  interior self a → interior self b → interior self (midpoint a b).
Proof.
  unfold interior, midpoint. simpl. intros [Ha1 Ha2] [Hb1 Hb2].
  split; (split;
    [apply Z.div_le_lower_bound|apply Z.div_lt_upper_bound]; lia).
Qed.

Lemma trace_interior (path : list cell) :
  Forall (interior self) path → Forall (interior self) (trace path).
Proof.
  induction 1 as [|p rest Hp Hrest IH]; simpl; [constructor|].
  constructor; [done|].
  destruct Hrest as [|q rest' Hq Hrest']; [done|].
  constructor; [|done]. by apply midpoint_interior.
Qed.

Lemma elem_of_trace_path (path : list cell) (p : cell) :
  p ∈ path → p ∈ trace path.
Proof.
  induction path as [|x rest IH]; [done|].
  intros [->|Hin]%elem_of_cons; simpl; [left|].
  right. destruct rest as [|q rest']; [done|].
  right. by apply IH.
Qed.

Lemma maze_set_interior (maze : grid) (p : cell) (ch : ascii) :
  shape (height self) (width self) maze → interior self p →
  maze_set maze p.1 p.2 ch = Done (poke maze p ch).
Proof.
  intros Hsh Hp. pose proof (interior_inside _ Hp) as Hin.
  rewrite maze_set_poke by (unfold interior in Hp; lia).
  apply (peek_is_Some _ _ _ _ Hsh) in Hin as [x Hx].
  destruct p. simpl in *. by rewrite Hx.
Qed.

(** The loop of lines 57-70 raises nothing on a path inside the grid, and
    this is what it leaves. *)
Lemma connect_Done (maze : grid) (in_maze : gset cell) (path : list cell) :
  shape (height self) (width self) maze →
  Forall (interior self) path →
  ∃ evs, connect maze in_maze path
         = Done (pokes maze (trace path), list_to_set path ∪ in_maze, evs)
       ∧ length evs = length path
       ∧ Forall adding_event evs.
Proof.
  intros Hsh Hpath. revert maze in_maze Hsh.
  induction Hpath as [|p rest Hp Hrest IH]; intros maze in_maze Hsh.
  { exists []. simpl. by rewrite (left_id_L ∅ (∪)). }
  destruct p as [r c]. simpl.
  rewrite (maze_set_interior maze (r, c)) by done.
  rewrite Done_bind.
  destruct Hrest as [|q rest' Hq Hrest'].
  - simpl. rewrite (right_id_L ∅ (∪)).
    eexists. split_and!; [reflexivity|done|].
    constructor; [|done]. split; [done|]. by eexists.
  - destruct q as [r2 c2].
    pose proof (midpoint_interior _ _ Hp Hq) as Hmid.
    rewrite (maze_set_interior _ (midpoint (r, c) (r2, c2)))
      by (by try apply shape_poke).
    rewrite Done_bind.
    edestruct (IH (poke (poke maze (r, c) OPEN) (midpoint (r, c) (r2, c2)) OPEN)
                  ({[(r, c)]} ∪ in_maze)) as (evs & Heq & Hlen & Hevs).
    { by do 2 apply shape_poke. }
    rewrite Heq, Done_bind, list_to_set_step.
    eexists. split_and!; [reflexivity| |].
    + simpl. by rewrite Hlen.
    + constructor; [|done]. split; [done|]. by eexists.
Qed.

End connect_facts.

(** ** The phases of the event stream *)

Lemma tags_replicate (t : string) (evs : list event) :
  Forall (λ e, tag e = t) evs → tag <$> evs = replicate (length evs) t.
Proof. induction 1 as [|e evs He Hevs IH]; simpl; [done|]. by f_equal. Qed.

Section event_facts.
Variable self : MazeGenerator.
Variable rnd : nat → nat.

Lemma walk_events (budget : nat) (maze : grid) (in_maze : gset cell)
    (path : list cell) (current : cell) (k : nat) :
  Forall (λ e, tag e = "walking"%string ∧ well_formed e)
         (walk self rnd budget maze in_maze path current k).2.
Proof.
  revert path current k. induction budget as [|budget IH];
    intros path current k; simpl; [done|].
  case_decide; [done|].
  destruct (neighbors self current) as [|n0 ns] eqn:Hns; [done|].
  rewrite <-Hns.
  specialize (IH (extend_path path (choice rnd k n0 (neighbors self current)))
                 (choice rnd k n0 (neighbors self current)) (S k)).
  destruct (walk _ _ _ _ _ _ _ _) as [[[p1 c1] k1] evs1].
  simpl in *. by constructor.
Qed.

Lemma connect_events (maze : grid) (in_maze : gset cell) (path : list cell)
    (maze' : grid) (in_maze' : gset cell) (evs : list event) :
  connect maze in_maze path = Done (maze', in_maze', evs) →
  Forall (λ e, tag e = "adding_path"%string ∧ well_formed e) evs.
Proof.
  revert maze in_maze maze' in_maze' evs.
  induction path as [|[r c] rest IH]; intros maze in_maze maze' in_maze' evs;
    simpl.
  { by intros [= <- <- <-]. }
  intros (maze1 & _ & (maze2 & _ & ([[maze3 in_maze3] evs3] & Hrec & Heq)
    %bind_Done)%bind_Done)%bind_Done.
  injection Heq as <- <- <-.
  constructor; [|by eapply IH].
  split; [done|]. unfold well_formed, tag. simpl.
  rewrite !elem_of_cons. tauto.
Qed.

(** The rounds of the outer loop, one pair of counts a round. *)
Lemma rounds_events (fuel : nat) (maze : grid) (in_maze : gset cell)
    (remaining_cells : list cell) (k : nat)
    (mazef : grid) (in_mazef : gset cell) (kf : nat) (evs : list event) :
  rounds self rnd fuel maze in_maze remaining_cells k
    = Done (mazef, in_mazef, kf, evs) →
  (∃ rs : list (nat * nat),
      tag <$> evs = rs ≫= round_tags ∧ (length rs ≤ fuel)%nat)
  ∧ Forall well_formed evs.
Proof.
  revert maze in_maze remaining_cells k mazef in_mazef kf evs.
  induction fuel as [|fuel IH];
    intros maze in_maze remaining_cells k mazef in_mazef kf evs;
    destruct remaining_cells as [|c0 rem]; simpl; try done.
  { intros [= <- <- <- <-]. split; [|done]. by exists []. }
  { intros [= <- <- <- <-]. split; [|done]. exists []. simpl. split; [done|lia]. }
  pose proof (walk_events max_steps maze in_maze
    [choice rnd k c0 (c0 :: rem)] (choice rnd k c0 (c0 :: rem)) (S k))
    as Hwalk.
  destruct (walk _ _ _ _ _ _ _ _) as [[[path c1] k1] wevs].
  simpl in Hwalk.
  intros ([[maze' in_maze'] cevs] & Hconn
    & ([[[mz sz] kz] evz] & Hrec & Heq)%bind_Done)%bind_Done.
  injection Heq as <- <- <- <-.
  apply connect_events in Hconn.
  apply IH in Hrec as [(rs & Htags & Hlen) Hwf].
  split.
  - exists ((length wevs, length cevs) :: rs). split; [|simpl; lia].
    change (((length wevs, length cevs) :: rs) ≫= round_tags)
      with (round_tags (length wevs, length cevs) ++ (rs ≫= round_tags)).
    rewrite <-Htags, fmap_cons, !fmap_app, fmap_cons.
    rewrite (tags_replicate "walking" wevs)
      by (eapply Forall_impl; [exact Hwalk|]; by intros ? [? _]).
    rewrite (tags_replicate "adding_path" cevs)
      by (eapply Forall_impl; [exact Hconn|]; by intros ? [? _]).
    unfold round_tags. cbn [fst snd]. cbn [app]. rewrite <-!app_assoc. reflexivity.
  - constructor.
    { unfold well_formed, tag. simpl. rewrite !elem_of_cons. tauto. }
    apply Forall_app. split.
    { eapply Forall_impl; [exact Hwalk|]. by intros ? [_ ?]. }
    apply Forall_app. split.
    { eapply Forall_impl; [exact Hconn|]. by intros ? [_ ?]. }
    constructor; [|done].
    unfold well_formed, tag. simpl. rewrite !elem_of_cons. tauto.
Qed.

End event_facts.

(** ** The outer loop *)

Lemma odd_pred (x : Z) : (x - 1) `mod` 2 = 0 ↔ x `mod` 2 = 1.
Proof.
  pose proof (Z.mod_pos_bound x 2). pose proof (Z.mod_pos_bound (x - 1) 2).
  pose proof (Z.div_mod x 2). pose proof (Z.div_mod (x - 1) 2). lia.
Qed.

Lemma elem_of_all_cells (self : MazeGenerator) (p : cell) :
  p ∈ all_cells self ↔ passage self p.
Proof.
  unfold all_cells, passage. rewrite elem_of_product.
  rewrite !elem_of_range_up by lia. by rewrite !odd_pred.
Qed.

Lemma NoDup_all_cells (self : MazeGenerator) : NoDup (all_cells self).
Proof. apply NoDup_product; by apply NoDup_range. Qed.

Lemma passage_interior (self : MazeGenerator) (p : cell) :
  valid self → passage self p → interior self p.
Proof.
  intros [[_ Hh] [_ Hw]] [[Hr Hr2] [Hc Hc2]]. unfold interior.
  pose proof (Z.div_mod p.1 2). pose proof (Z.div_mod p.2 2).
  pose proof (Z.div_mod (height self) 2). pose proof (Z.div_mod (width self) 2).
  lia.
Qed.

Lemma remaining_of_shrinks (self : MazeGenerator) (s s' : gset cell)
    (current : cell) :
  s ⊆ s' → current ∈ remaining_of self s → current ∈ s' →
  (length (remaining_of self s') < length (remaining_of self s))%nat.
Proof.
  intros Hsub Hcur Hcur'. unfold remaining_of in *.
  rewrite <-(list_filter_filter_l (λ c, c ∉ s') (λ c, c ∉ s))
    by (intros x Hx Hxs; apply Hx, Hsub, Hxs).
  apply (length_filter_lt _ _ current); [done|]. by intros [].
Qed.

Section rounds_facts.
Variable self : MazeGenerator.
Variable rnd : nat → nat.

Hypothesis Hvalid : valid self.

(** A property of the maze and the in-maze set that every round keeps,
    where the walks self rnd of the run all satisfy [ok]. *)
Variable Inv : grid → gset cell → Prop.
Variable ok : gset cell * list cell * cell → Prop.
Hypothesis Inv_step :
  ∀ (maze : grid) (s : gset cell) (current : cell) (p : list cell) (c : cell),
    shape (height self) (width self) maze → Inv maze s →
    passage self current → current ∉ s →
    trail self s p c → head p = Some current → ok (s, p, c) →
    Inv (pokes maze (trace p)) (list_to_set p ∪ s).

Lemma rounds_inv (fuel : nat) (maze : grid) (s : gset cell) (k : nat) :
  shape (height self) (width self) maze → Inv maze s →
  (length (remaining_of self s) ≤ fuel)%nat →
  Forall ok (walks self rnd fuel maze s (remaining_of self s) k) →
  ∃ mazef sf kf evs,
    rounds self rnd fuel maze s (remaining_of self s) k
      = Done (mazef, sf, kf, evs)
    ∧ shape (height self) (width self) mazef ∧ Inv mazef sf
    ∧ remaining_of self sf = [] ∧ s ⊆ sf.
Proof.
  revert maze s k. induction fuel as [|fuel IH]; intros maze s k Hsh Hinv Hlen.
  { destruct (remaining_of self s) eqn:Hrem; [|simpl in Hlen; lia].
    intros _. exists maze, s, k, []. simpl. by rewrite Hrem. }
  destruct (remaining_of self s) as [|c0 rem] eqn:Hrem.
  { intros _. exists maze, s, k, []. simpl. by rewrite Hrem. }
  simpl.
  set (current := choice rnd k c0 (c0 :: rem)).
  assert (current ∈ remaining_of self s) as Hcur.
  { rewrite Hrem. by apply choice_elem_of. }
  apply list_elem_of_filter in Hcur as Hcur2. destruct Hcur2 as [Hfresh Hpass].
  apply elem_of_all_cells in Hpass.
  pose proof (passage_interior _ _ Hvalid Hpass) as Hint.
  destruct (walk _ _ _ _ _ _ _ _) as [[[p c] k1] wevs] eqn:Hwalk.
  apply walk_trail in Hwalk as (Htrail & Hhead & _);
    [|by apply trail_start].
  destruct (connect_Done self maze s p Hsh (trail_interior _ _ _ _ Htrail))
    as (cevs & Hconn & _ & _).
  rewrite Hconn, Done_bind. intros [Hok Hoks]%Forall_cons.
  assert (current ∈ p) as Hcp.
  { simpl in Hhead. by apply head_Some_elem_of. }
  assert (s ⊆ list_to_set p ∪ s) as Hsub by apply union_subseteq_r.
  destruct (IH (pokes maze (trace p)) (list_to_set p ∪ s) k1)
    as (mazef & sf & kf & evs & Hrec & Hshf & Hinvf & Hremf & Hsubf).
  - by apply shape_pokes.
  - by eapply Inv_step.
  - assert (length (remaining_of self (list_to_set p ∪ s))
            < length (remaining_of self s))%nat as Hlt;
      [|rewrite Hrem in Hlt; simpl in Hlen, Hlt; lia].
    eapply remaining_of_shrinks; [done..|].
    apply elem_of_union_l. by apply elem_of_list_to_set.
  - done.
  - rewrite Hrec, Done_bind. eexists _, _, _, _.
    split_and!; [reflexivity|done..|]. by etrans.
Qed.

End rounds_facts.

(** ** Reachability *)

Lemma NoDup_around (a : cell) : NoDup (around a).
Proof.
  unfold around. apply NoDup_fmap_2_strong; [|by compute_done].
  intros [x1 x2] [y1 y2] _ _ [= ? ?]. f_equal; lia.
Qed.

Lemma free_inside (h w : Z) (maze : grid) (p : cell) :
  shape h w maze → free maze p → inside h w p.
Proof.
  intros Hsh Hfree. apply (peek_is_Some _ _ _ _ Hsh).
  unfold free in Hfree. by destruct (peek maze p).
Qed.

Lemma free_poke (maze : grid) (p q : cell) (ch : ascii) :
  nonneg p → ch ≠ WALL → free maze q → free (poke maze p ch) q.
Proof.
  intros [Hp1 Hp2] Hch. unfold free. rewrite peek_poke by done.
  case_decide as Heq; [|done]. subst q. by destruct (peek maze p).
Qed.

Lemma reachable_mono (maze maze' : grid) (a b : cell) :
  (∀ p, free maze p → free maze' p) →
  reachable maze a b → reachable maze' a b.
Proof.
  intros Hfree. apply rtc_subrel. intros x y [Hadj Hy]. split; auto.
Qed.

Lemma filter_ext_elem_of {A} (P Q : A → Prop)
    `{!∀ x, Decision (P x), !∀ x, Decision (Q x)} (l : list A) :
  (∀ x, x ∈ l → P x ↔ Q x) → filter P l = filter Q l.
Proof.
  induction l as [|a l IH]; intros Hiff; [done|].
  rewrite !filter_cons.
  rewrite IH by (intros x Hx; apply Hiff; by right).
  destruct (decide (P a)) as [Ha|Ha], (decide (Q a)) as [Hb|Hb]; try done.
  - destruct Hb. apply Hiff; [left|done].
  - destruct Ha. apply Hiff; [left|done].
Qed.

Section traversal_facts.
Variable self : MazeGenerator.
Variable maze : grid.
Hypothesis Hshape : shape (height self) (width self) maze.

Lemma may_enter_spec (visited : gset cell) (n : cell) :
  may_enter self maze visited n
  = Done (bool_decide (free maze n ∧ n ∉ visited)).
Proof.
  unfold may_enter. case_bool_decide as Hin.
  - case_bool_decide as Hvis.
    + rewrite maze_get_peek by lia.
      assert (inside (height self) (width self) n) as Hins by done.
      apply (peek_is_Some _ _ _ _ Hshape) in Hins as [ch Hch].
      destruct n as [r c]. simpl in *. rewrite Hch, Done_bind.
      f_equal. apply bool_decide_ext. unfold free. rewrite Hch. tauto.
    + f_equal. symmetry. apply bool_decide_eq_false_2. tauto.
  - f_equal. symmetry. apply bool_decide_eq_false_2.
    intros [Hfree _]. apply Hin.
    by apply (free_inside _ _ _ _ Hshape) in Hfree.
Qed.

Lemma expand_spec {A} (entry : cell → A) (r c : Z) (dirs : list (Z * Z))
    (visited : gset cell) (queue : list A) :
  NoDup ((λ d : Z * Z, (r + d.1, c + d.2)) <$> dirs) →
  let news := filter (λ n, free maze n ∧ n ∉ visited)
                     ((λ d : Z * Z, (r + d.1, c + d.2)) <$> dirs) in
  expand self entry maze r c dirs visited queue
  = Done (list_to_set news ∪ visited, queue ++ (entry <$> news)).
Proof.
  revert visited queue.
  induction dirs as [|[dr dc] dirs IH]; intros visited queue Hnd; simpl.
  { by rewrite (left_id_L ∅ (∪)), app_nil_r. }
  rewrite fmap_cons in Hnd. apply NoDup_cons in Hnd as [Hnin Hnd].
  simpl in Hnin.
  rewrite may_enter_spec, Done_bind. rewrite filter_cons. simpl.
  case_bool_decide as Hn.
  - rewrite decide_True by done. rewrite IH by done.
    rewrite (filter_ext_elem_of _ (λ n, free maze n ∧ n ∉ visited)).
    + by rewrite list_to_set_step, fmap_cons, <-app_assoc.
    + intros x Hx. rewrite not_elem_of_union, not_elem_of_singleton.
      split; [tauto|]. intros [? ?]. split_and!; [done| |done].
      by intros ->.
  - rewrite decide_False by done. by rewrite IH.
Qed.

End traversal_facts.

Lemma length_range_up (n : Z) : length (range 0 n 1) = Z.to_nat n.
Proof.
  unfold range. simpl. rewrite length_fmap, length_seq.
  f_equal. rewrite Z.div_1_r. lia.
Qed.

Lemma length_product (rows cols : list Z) :
  length (r ← rows; c ← cols; [(r, c)] : list cell)
  = (length rows * length cols)%nat.
Proof.
  induction rows as [|r rows IH]; [done|].
  rewrite bind_cons, length_app, IH. simpl. f_equal.
  clear IH. induction cols as [|c cols IHc]; [done|].
  rewrite bind_cons. simpl. by f_equal.
Qed.

Section reach_facts.
Variable self : MazeGenerator.
Variable maze : grid.
Hypothesis Hshape : shape (height self) (width self) maze.

Lemma expand_directions {A} (entry : cell → A) (a : cell)
    (visited : gset cell) (queue : list A) :
  expand self entry maze a.1 a.2 directions visited queue
  = Done (list_to_set (fresh maze visited a) ∪ visited,
          queue ++ (entry <$> fresh maze visited a)).
Proof. apply (expand_spec self maze Hshape), (NoDup_around a). Qed.

Lemma elem_of_fresh (visited : gset cell) (a x : cell) :
  x ∈ fresh maze visited a ↔ step maze a x ∧ x ∉ visited.
Proof. unfold fresh, step. rewrite list_elem_of_filter. tauto. Qed.

Lemma NoDup_fresh (visited : gset cell) (a : cell) :
  NoDup (fresh maze visited a).
Proof. apply NoDup_filter, NoDup_around. Qed.

Lemma size_fresh (visited : gset cell) (a : cell) :
  size (list_to_set (fresh maze visited a) ∪ visited)
  = (length (fresh maze visited a) + size visited)%nat.
Proof.
  rewrite size_union.
  - by rewrite size_list_to_set by apply NoDup_fresh.
  - intros x Hx%elem_of_list_to_set%elem_of_fresh Hv. tauto.
Qed.

Lemma elem_of_positions (p : cell) :
  p ∈ (positions self) ↔ inside (height self) (width self) p.
Proof.
  unfold positions, inside.
  rewrite elem_of_list_to_set, elem_of_product, !elem_of_range_up by lia.
  rewrite !Z.mod_1_r. lia.
Qed.

Lemma size_positions :
  size (positions self) = (Z.to_nat (height self) * Z.to_nat (width self))%nat.
Proof.
  unfold positions. rewrite size_list_to_set.
  - by rewrite length_product, !length_range_up.
  - apply NoDup_product; by apply NoDup_range.
Qed.

Lemma size_candidates (start : cell) :
  (size ({[start]} ∪ (positions self)) ≤ bfs_fuel self)%nat.
Proof.
  rewrite size_union_alt, size_singleton. unfold bfs_fuel.
  rewrite <-size_positions.
  assert (size ((positions self) ∖ {[start]}) ≤ size (positions self))%nat; [|lia].
  apply subseteq_size, subseteq_difference_l. done.
Qed.

Variable start : cell.

Lemma reach_inv_next (visited : gset cell) (a : cell) (queue : list cell) :
  reach_inv self maze start visited (a :: queue) →
  reach_inv self maze start (list_to_set (fresh maze visited a) ∪ visited)
            (queue ++ fresh maze visited a).
Proof.
  intros [Hstart Hsound Hqueue Hclosed Hbound]. split.
  - by apply elem_of_union_r.
  - intros x [Hx%elem_of_list_to_set%elem_of_fresh|Hx]%elem_of_union;
      [|by apply Hsound].
    eapply rtc_r; [apply Hsound, Hqueue; left|]. apply Hx.
  - intros x [Hx|Hx]%elem_of_app.
    + apply elem_of_union_r, Hqueue. by right.
    + by apply elem_of_union_l, elem_of_list_to_set.
  - intros x y Hx Hnq Hstep.
    apply not_elem_of_app in Hnq as [Hnq Hnf].
    apply elem_of_union in Hx as [Hx%elem_of_list_to_set|Hx]; [done|].
    destruct (decide (y ∈ visited)) as [Hy|Hy]; [by apply elem_of_union_r|].
    destruct (decide (x = a)) as [->|Hne].
    + apply elem_of_union_l, elem_of_list_to_set, elem_of_fresh. done.
    + destruct Hy. apply (Hclosed x y); [done| |done].
      by intros [?|?]%elem_of_cons.
  - intros x [Hx%elem_of_list_to_set%elem_of_fresh|Hx]%elem_of_union;
      [|by apply Hbound].
    apply elem_of_union_r, elem_of_positions.
    eapply free_inside; [done|]. apply Hx.
Qed.

Lemma reach_inv_final (visited : gset cell) (x : cell) :
  reach_inv self maze start visited [] → x ∈ visited ↔ reachable maze start x.
Proof.
  intros [Hstart Hsound _ Hclosed _]. split; [apply Hsound|].
  assert (∀ a b, rtc (step maze) a b → a ∈ visited → b ∈ visited) as Hall.
  { induction 1 as [a|a b c Hab Hbc IH]; [done|].
    intros Ha. apply IH, (Hclosed a b); [done| |done]. apply not_elem_of_nil. }
  intros Hreach. by apply (Hall start x).
Qed.

Lemma reach_loop_spec (fuel : nat) (visited : gset cell) (queue : list cell) :
  reach_inv self maze start visited queue →
  (length queue + size ({[start]} ∪ (positions self)) ≤ fuel + size visited)%nat →
  ∃ vf, reach_loop self fuel maze visited queue = Done vf
        ∧ ∀ x, x ∈ vf ↔ reachable maze start x.
Proof.
  revert visited queue.
  induction fuel as [|fuel IH]; intros visited queue Hinv Hfuel;
    destruct queue as [|[r c] queue]; cbn [reach_loop].
  - exists visited. split; [done|]. intros x. by apply reach_inv_final.
  - pose proof (subseteq_size _ _ (reach_bound _ _ _ _ _ Hinv)).
    simpl in Hfuel. lia.
  - exists visited. split; [done|]. intros x. by apply reach_inv_final.
  - pose proof (expand_directions id (r, c) visited queue) as Hexp.
    cbn [fst snd] in Hexp. rewrite Hexp, Done_bind.
    rewrite list_fmap_id. apply IH.
    + by apply reach_inv_next.
    + rewrite size_fresh, length_app. simpl in Hfuel. lia.
Qed.

(** [get_reachable_positions] ends, raises nothing, and returns the cells
    that can be reached from [start]. *)
Lemma get_reachable_positions_spec :
  ∃ vf, get_reachable_positions self maze start = Done vf
        ∧ ∀ x, x ∈ vf ↔ reachable maze start x.
Proof.
  apply reach_loop_spec.
  - split.
    + by apply elem_of_singleton.
    + intros x ->%elem_of_singleton. apply rtc_refl.
    + intros x ->%list_elem_of_singleton. by apply elem_of_singleton.
    + intros x y ->%elem_of_singleton Hnq. destruct Hnq. left.
    + apply union_subseteq_l.
  - rewrite size_singleton. pose proof (size_candidates start).
    cbn [length]. lia.
Qed.

End reach_facts.

(** ** The furthest cell *)

Section furthest_facts.
Variable self : MazeGenerator.
Variable maze : grid.
Hypothesis Hshape : shape (height self) (width self) maze.
Variable start : cell.

Lemma furthest_inv_init :
  furthest_inv self maze start [] {[start]} [(start, 0)] start 0.
Proof.
  split; simpl.
  - intros x. by rewrite elem_of_singleton, list_elem_of_singleton.
  - apply NoDup_singleton.
  - done.
  - intros x d [= -> ->]%list_elem_of_singleton. split; [done|]. constructor.
  - intros x d y Hx. by apply not_elem_of_nil in Hx.
  - intros [|i] [|j] x d y e Hij Hi Hj; simplify_eq; done.
  - intros x d y e [= <- <-] [= -> ->]%list_elem_of_singleton. lia.
  - by left.
  - apply union_subseteq_l.
Qed.

Lemma furthest_inv_next (done : list (cell * Z)) (visited : gset cell)
    (a : cell) (d : Z) (queue : list (cell * Z)) (fc : cell) (md : Z) :
  furthest_inv self maze start done visited ((a, d) :: queue) fc md →
  furthest_inv self maze start (done ++ [(a, d)])
               (list_to_set (fresh maze visited a) ∪ visited)
               (queue ++ ((λ n, (n, d + 1)) <$> fresh maze visited a))
               (if bool_decide (md < d) then a else fc)
               (if bool_decide (md < d) then d else md).
Proof.
  intros [Hvis Hnd Hfirst Hlabel Hclosed Hsorted Hwindow Hbest Hbound].
  set (news := (λ n, (n, d + 1)) <$> fresh maze visited a).
  set (L := done ++ (a, d) :: queue) in *.
  assert (HL : (done ++ [(a, d)]) ++ queue ++ news = L ++ news).
  { unfold L. by rewrite <-!app_assoc. }
  assert (Hnews1 : news.*1 = fresh maze visited a).
  { unfold news. rewrite <-list_fmap_compose. apply list_fmap_id. }
  assert (Hat : L !! length done = Some (a, d)).
  { unfold L. rewrite lookup_app_r by lia. by rewrite Nat.sub_diag. }
  assert (Hle : ∀ x dx, (x, dx) ∈ L → dx ≤ d + 1).
  { intros x dx [Hx|Hx]%elem_of_app.
    - apply list_elem_of_lookup_1 in Hx as [i Hi].
      apply lookup_lt_Some in Hi as Hlt.
      assert (dx ≤ d); [|lia].
      eapply (Hsorted i (length done)); [lia| |exact Hat].
      unfold L. by rewrite lookup_app_l.
    - by eapply Hwindow. }
  assert (Hnews : ∀ y e,
    (y, e) ∈ news ↔ e = d + 1 ∧ step maze a y ∧ y ∉ visited).
  { intros y e. unfold news. rewrite list_elem_of_fmap. split.
    - intros (n & [= -> ->] & Hn%elem_of_fresh). tauto.
    - intros (-> & Hst & Hnv). exists y. split; [done|].
      by apply elem_of_fresh. }
  destruct (Hlabel a d) as [Hd Hpath]; [by eapply list_elem_of_lookup_2|].
  split.
  - intros x.
    rewrite HL, fmap_app, elem_of_app, Hnews1, elem_of_union,
      elem_of_list_to_set, Hvis. tauto.
  - rewrite HL, fmap_app. apply NoDup_app.
    split_and!; [done| |rewrite Hnews1; apply NoDup_fresh].
    intros x Hx. rewrite Hnews1. intros Hf%elem_of_fresh.
    apply Hvis in Hx. tauto.
  - rewrite HL. by destruct L.
  - intros x e. rewrite HL.
    intros [Hx|Hx]%elem_of_app; [by apply Hlabel|].
    apply Hnews in Hx as (-> & Hst & _). split; [lia|].
    replace (Z.to_nat (d + 1)) with (S (Z.to_nat d)) by lia.
    by eapply nsteps_r.
  - intros x dx y. rewrite HL.
    intros [Hx|Hx%list_elem_of_singleton]%elem_of_app Hst.
    + destruct (Hclosed x dx y Hx Hst) as (d' & Hin & Hle').
      exists d'. split; [|done]. apply elem_of_app; by left.
    + injection Hx as -> ->.
      destruct (decide (y ∈ visited)) as [Hy|Hy].
      * apply Hvis in Hy.
        apply list_elem_of_fmap in Hy as ([y' e] & -> & Hin). simpl.
        exists e. split; [apply elem_of_app; by left|]. by eapply Hle.
      * exists (d + 1). split; [|lia]. apply elem_of_app. right.
        by apply Hnews.
  - intros i j x dx y e Hij. rewrite HL. intros Hi Hj.
    destruct (decide (j < length L)%nat) as [Hj'|Hj'].
    + rewrite lookup_app_l in Hi, Hj by lia. by eapply (Hsorted i j).
    + rewrite lookup_app_r in Hj by lia.
      apply list_elem_of_lookup_2, Hnews in Hj as (-> & _).
      destruct (decide (i < length L)%nat) as [Hi'|Hi'].
      * rewrite lookup_app_l in Hi by lia.
        eapply Hle, list_elem_of_lookup_2, Hi.
      * rewrite lookup_app_r in Hi by lia.
        apply list_elem_of_lookup_2, Hnews in Hi as (-> & _). lia.
  - intros x dx y e Hhead Hin.
    assert (d ≤ dx) as Hddx.
    { destruct queue as [|[x' dx'] queue']; simpl in Hhead.
      - apply head_Some_elem_of, Hnews in Hhead. lia.
      - injection Hhead as -> ->.
        apply (Hsorted (length done) (S (length done)) a d x dx);
          [lia|done|].
        unfold L. rewrite lookup_app_r by lia.
        by replace (S (length done) - length done)%nat with 1%nat by lia. }
    assert (e ≤ d + 1); [|lia].
    apply elem_of_app in Hin as [Hin|Hin].
    + apply (Hle y). unfold L. apply elem_of_app. right. by right.
    + apply Hnews in Hin. lia.
  - right. destruct Hbest as [(-> & -> & ->)|(i & Hi & Hlt & Hmax)].
    + simpl in Hfirst. injection Hfirst as -> ->.
      rewrite bool_decide_eq_false_2 by lia.
      exists 0%nat. split_and!; [done|intros; lia|].
      by intros y e [= -> ->]%list_elem_of_singleton.
    + case_bool_decide as Hcmp.
      * exists (length done). split_and!.
        -- rewrite lookup_app_r by lia. by rewrite Nat.sub_diag.
        -- intros j y e Hj Hje. rewrite lookup_app_l in Hje by lia.
           apply list_elem_of_lookup_2, Hmax in Hje. lia.
        -- intros y e [Hy%Hmax|[= -> ->]%list_elem_of_singleton]%elem_of_app;
             lia.
      * exists i. apply lookup_lt_Some in Hi as Hilt. split_and!.
        -- by rewrite lookup_app_l by lia.
        -- intros j y e Hj Hje. rewrite lookup_app_l in Hje by lia.
           by eapply Hlt.
        -- intros y e [Hy%Hmax|[= -> ->]%list_elem_of_singleton]%elem_of_app;
             lia.
  - intros x [Hx%elem_of_list_to_set%elem_of_fresh|Hx]%elem_of_union;
      [|by apply Hbound].
    apply elem_of_union_r, elem_of_positions.
    eapply free_inside; [done|]. apply Hx.
Qed.

Lemma furthest_loop_spec (fuel : nat) (done : list (cell * Z))
    (visited : gset cell) (queue : list (cell * Z)) (fc : cell) (md : Z) :
  furthest_inv self maze start done visited queue fc md →
  (length queue + size ({[start]} ∪ positions self)
   ≤ fuel + size visited)%nat →
  ∃ fcf mdf vf,
    furthest_loop self fuel maze visited queue fc md = Done fcf
    ∧ furthest_inv self maze start (done ++ discovered self fuel maze visited queue)
                   vf [] fcf mdf.
Proof.
  revert done visited queue fc md.
  induction fuel as [|fuel IH]; intros done visited queue fc md Hinv Hfuel;
    destruct queue as [|[[r c] d] queue];
    cbn [furthest_loop discovered].
  - exists fc, md, visited. by rewrite app_nil_r.
  - pose proof (subseteq_size _ _ (fi_bound _ _ _ _ _ _ _ _ Hinv)).
    simpl in Hfuel. lia.
  - exists fc, md, visited. by rewrite app_nil_r.
  - pose proof (expand_directions self maze Hshape (λ n, (n, d + 1))
                  (r, c) visited queue) as Hexp.
    cbn [fst snd] in Hexp. rewrite Hexp.
    apply furthest_inv_next in Hinv.
    destruct (IH _ _ _ _ _ Hinv) as (fcf & mdf & vf & Hrun & Hfin).
    { rewrite (size_fresh maze), length_app, length_fmap.
      simpl in Hfuel. lia. }
    exists fcf, mdf, vf. split.
    + case_bool_decide; by rewrite Done_bind.
    + by rewrite <-app_assoc in Hfin.
Qed.

Lemma label_unique (l : list (cell * Z)) (x : cell) (d d' : Z) :
  NoDup l.*1 → (x, d) ∈ l → (x, d') ∈ l → d = d'.
Proof.
  intros Hnd [i Hi]%list_elem_of_lookup_1 [j Hj]%list_elem_of_lookup_1.
  assert (i = j) as ->.
  { eapply NoDup_lookup; [exact Hnd| |];
      rewrite list_lookup_fmap; [by rewrite Hi|by rewrite Hj]. }
  by simplify_eq.
Qed.

(** When the queue is empty, the labels are the distances. *)
Lemma furthest_final_near (done : list (cell * Z)) (visited : gset cell)
    (fc : cell) (md : Z) (n : nat) (x : cell) :
  furthest_inv self maze start done visited [] fc md →
  nsteps (step maze) n start x →
  ∃ d, (x, d) ∈ done ∧ 0 ≤ d ∧ (Z.to_nat d ≤ n)%nat.
Proof.
  intros [_ _ Hfirst Hlabel Hclosed _ _ _ _]. rewrite app_nil_r in *.
  revert x. induction n as [|n IH]; intros x Hn.
  - inv Hn. exists 0. split_and!; [|done|done].
    by apply head_Some_elem_of.
  - apply nsteps_inv_r in Hn as (y & Hy & Hstep).
    destruct (IH y Hy) as (d & Hd & Hd0 & Hdn).
    destruct (Hclosed y d x Hd Hstep) as (d' & Hd' & Hle).
    exists d'. split_and!; [done|by apply Hlabel in Hd' as [? _]|lia].
Qed.

Lemma furthest_final_distance (done : list (cell * Z)) (visited : gset cell)
    (fc : cell) (md : Z) (x : cell) (d : Z) :
  furthest_inv self maze start done visited [] fc md →
  (x, d) ∈ done → 0 ≤ d ∧ distance maze start x (Z.to_nat d).
Proof.
  intros Hinv Hx. pose proof Hinv as [_ Hnd _ Hlabel _ _ _ _ _].
  rewrite app_nil_r in *.
  destruct (Hlabel x d Hx) as [Hd Hpath]. split; [done|]. split; [done|].
  intros m Hm.
  destruct (furthest_final_near _ _ _ _ _ _ Hinv Hm) as (d' & Hd' & _ & Hle).
  by rewrite (label_unique done x d d').
Qed.

Lemma distance_unique (x : cell) (n m : nat) :
  distance maze start x n → distance maze start x m → n = m.
Proof. intros [Hn Hn'] [Hm Hm']. apply Hn' in Hm. apply Hm' in Hn. lia. Qed.

(** [find_furthest_cell] ends and raises nothing; the invariant holds of
    what it returns, with the queue empty and every entry taken. *)
Lemma find_furthest_cell_run :
  ∃ fc md vf,
    find_furthest_cell self maze start = Done fc
    ∧ furthest_inv self maze start
        (discovered self (bfs_fuel self) maze {[start]} [(start, 0)])
        vf [] fc md.
Proof.
  destruct (furthest_loop_spec (bfs_fuel self) [] {[start]} [(start, 0)]
              start 0 furthest_inv_init)
    as (fc & md & vf & Hrun & Hinv).
  { rewrite size_singleton. pose proof (size_candidates self start).
    cbn [length]. lia. }
  rewrite app_nil_l in Hinv. by exists fc, md, vf.
Qed.

(** The cell held at the end is an entry taken from the queue, with the
    greatest label, and the entries taken before it have smaller labels. *)
Lemma furthest_final_best (done : list (cell * Z)) (visited : gset cell)
    (fc : cell) (md : Z) :
  furthest_inv self maze start done visited [] fc md →
  ∃ i, done !! i = Some (fc, md)
       ∧ (∀ j y e, (j < i)%nat → done !! j = Some (y, e) → e < md)
       ∧ ∀ y e, (y, e) ∈ done → e ≤ md.
Proof.
  intros Hinv.
  destruct (fi_best _ _ _ _ _ _ _ _ Hinv) as [(Hnil & _)|?]; [|done].
  pose proof (fi_first _ _ _ _ _ _ _ _ Hinv) as Hhead.
  rewrite Hnil in Hhead. done.
Qed.

End furthest_facts.

(** ** Goal placement *)

Lemma maze_set_inside (h w : Z) (maze : grid) (p : cell) (ch : ascii) :
  shape h w maze → inside h w p →
  maze_set maze p.1 p.2 ch = Done (poke maze p ch).
Proof.
  intros Hsh Hin. rewrite maze_set_poke by (unfold inside in Hin; lia).
  apply (peek_is_Some _ _ _ _ Hsh) in Hin as [x Hx].
  destruct p. simpl in *. by rewrite Hx.
Qed.

Lemma reachable_free (maze : grid) (a b : cell) :
  reachable maze a b → a = b ∨ free maze b.
Proof.
  intros [->|(y & _ & _ & Hfree)]%rtc_inv_r; [by left|by right].
Qed.

Lemma first_reachable_Some (vf : gset cell) (start_pos : cell)
    (cands : list cell) (p : cell) :
  first_reachable vf start_pos cands = Some p →
  p ∈ cands ∧ p ∈ vf ∧ p ≠ start_pos.
Proof.
  unfold first_reachable.
  destruct (list_find _ cands) as [[i q]|] eqn:Hfind; [|done].
  intros [= <-]. apply list_find_Some in Hfind as (Hi & HP & _).
  split; [by eapply list_elem_of_lookup_2|done].
Qed.

Lemma first_reachable_None (vf : gset cell) (start_pos : cell)
    (cands : list cell) (p : cell) :
  first_reachable vf start_pos cands = None →
  p ∈ cands → p ∈ vf → p = start_pos.
Proof.
  unfold first_reachable.
  destruct (list_find _ cands) as [[i q]|] eqn:Hfind; [done|].
  intros _ Hp Hvf. apply list_find_None in Hfind.
  rewrite Forall_forall in Hfind. specialize (Hfind p Hp).
  destruct (decide (p = start_pos)); [done|]. destruct Hfind. done.
Qed.

Section goal_facts.
Variable self : MazeGenerator.

Lemma candidates_interior (step : Z) (p : cell) :
  step < 0 → p ∈ candidates self step → interior self p.
Proof.
  intros Hstep [Hr Hc]%elem_of_product.
  apply elem_of_range_down in Hr as [Hr _]; [|done].
  apply elem_of_range_down in Hc as [Hc _]; [|done].
  unfold interior. lia.
Qed.

(** [place_connected_goal] raises nothing; where it returns [True] it has
    written the goal on a cell reachable from (1, 1), and where it
    returns [False] it has written nothing. *)
Lemma place_connected_goal_spec (maze : grid) :
  shape (height self) (width self) maze →
  ∃ maze' placed,
    place_connected_goal self maze = Done (maze', placed)
    ∧ if placed : bool
      then ∃ g, maze' = poke maze g GOAL ∧ interior self g ∧ g ≠ (1, 1)
                ∧ reachable maze (1, 1) g
      else maze' = maze
           ∧ ∀ p, p ∈ candidates self (-1) → reachable maze (1, 1) p →
                  p = (1, 1).
Proof.
  intros Hsh. unfold place_connected_goal.
  destruct (get_reachable_positions_spec self maze Hsh (1, 1))
    as (vf & -> & Hvf).
  rewrite Done_bind.
  destruct (first_reachable vf (1, 1) (candidates self (-2)))
    as [[r c]|] eqn:H1.
  { apply first_reachable_Some in H1 as (Hcand & Hin & Hne).
    apply candidates_interior in Hcand; [|lia].
    rewrite (maze_set_interior self maze (r, c)), Done_bind by done.
    eexists _, true. split; [done|]. exists (r, c).
    split_and!; [done..|]. by apply Hvf. }
  destruct (first_reachable vf (1, 1) (candidates self (-1)))
    as [[r c]|] eqn:H2.
  { apply first_reachable_Some in H2 as (Hcand & Hin & Hne).
    apply candidates_interior in Hcand; [|lia].
    rewrite (maze_set_interior self maze (r, c)), Done_bind by done.
    eexists _, true. split; [done|]. exists (r, c).
    split_and!; [done..|]. by apply Hvf. }
  eexists _, false. split; [done|]. split; [done|].
  intros p Hp Hreach. eapply first_reachable_None; [exact H2|done|].
  by apply Hvf.
Qed.

(** Lines 79-85 raise nothing, and a goal they write is on a cell
    reachable from (1, 1). *)
Lemma goal_placement_spec (maze : grid) :
  shape (height self) (width self) maze →
  ∃ maze', goal_placement self maze = Done maze'
    ∧ (maze' = maze
       ∨ ∃ g, maze' = poke maze g GOAL ∧ g ≠ (1, 1) ∧ free maze g
              ∧ reachable maze (1, 1) g).
Proof.
  intros Hsh. unfold goal_placement.
  destruct (place_connected_goal_spec maze Hsh)
    as (maze' & [|] & -> & Hplaced); rewrite Done_bind.
  { destruct Hplaced as (g & -> & Hint & Hne & Hreach).
    eexists. split; [done|]. right. exists g. split_and!; [done..| |done].
    by destruct (reachable_free _ _ _ Hreach). }
  destruct Hplaced as [-> _].
  destruct (find_furthest_cell_run self maze Hsh (1, 1))
    as (fc & md & vf & -> & Hinv).
  destruct (furthest_final_best _ _ _ _ _ _ _ Hinv) as (i & Hi & _).
  destruct (furthest_final_distance _ _ _ _ _ _ _ _ _ Hinv
              (list_elem_of_lookup_2 _ _ _ Hi)) as [_ [Hpath _]].
  rewrite Done_bind. apply rtc_nsteps_2 in Hpath.
  case_bool_decide as Hne; [|eexists; split; [done|by left]].
  destruct (reachable_free _ _ _ Hpath) as [?|Hfree]; [done|].
  rewrite (maze_set_inside _ _ maze fc GOAL Hsh)
    by (by eapply free_inside).
  eexists. split; [done|]. right. by exists fc.
Qed.

End goal_facts.

(** ** Multiple paths *)

Section augment_facts.
Variable self : MazeGenerator.
Variable rnd : nat → nat.

Lemma removable_spec (maze : grid) (a b w : cell) :
  shape (height self) (width self) maze →
  inside (height self) (width self) a →
  inside (height self) (width self) b →
  inside (height self) (width self) w →
  removable maze a b w
  = Done (bool_decide (peek maze a = Some OPEN ∧ peek maze b = Some OPEN
                       ∧ peek maze w = Some WALL)).
Proof.
  intros Hsh Ha Hb Hw. unfold removable.
  pose proof Ha as [x Hx]%(peek_is_Some _ _ _ _ Hsh).
  pose proof Hb as [y Hy]%(peek_is_Some _ _ _ _ Hsh).
  pose proof Hw as [z Hz]%(peek_is_Some _ _ _ _ Hsh).
  unfold inside in *.
  rewrite !maze_get_peek by lia.
  rewrite <-!surjective_pairing, Hx, Hy, Hz, Done_bind.
  case_bool_decide as H1.
  - rewrite Done_bind. case_bool_decide as H2.
    + rewrite Done_bind. f_equal. apply bool_decide_ext. subst x y.
      split; [by intros ->|by intros (_ & _ & [= ->])].
    + f_equal. symmetry. apply bool_decide_eq_false_2.
      by intros (_ & [= ?] & _).
  - f_equal. symmetry. apply bool_decide_eq_false_2. by intros ([= ?] & _).
Qed.

Lemma collect_spec (maze : grid) (sides : cell → cell * cell)
    (walls acc : list cell) :
  shape (height self) (width self) maze →
  Forall (λ w, inside (height self) (width self) (sides w).1
               ∧ inside (height self) (width self) (sides w).2
               ∧ inside (height self) (width self) w) walls →
  collect maze sides walls acc
  = Done (acc ++ filter (removable_wall maze sides) walls).
Proof.
  intros Hsh Hwalls. revert acc.
  induction Hwalls as [|w walls (Ha & Hb & Hw) _ IH]; intros acc; simpl.
  { by rewrite app_nil_r. }
  rewrite removable_spec, Done_bind by done. rewrite IH, filter_cons.
  unfold removable_wall at 2. case_bool_decide.
  - by rewrite decide_True, <-app_assoc by done.
  - by rewrite decide_False by done.
Qed.

Lemma sample_subseteq {A} (k : nat) (population : list A) (n : nat) (x : A) :
  x ∈ (sample rnd k population n).1 → x ∈ population.
Proof.
  revert k population. induction n as [|n IH]; intros k population; simpl.
  { intros Hx. by apply not_elem_of_nil in Hx. }
  destruct (population !! _) as [y|] eqn:Hy;
    [|intros Hx; by apply not_elem_of_nil in Hx].
  specialize (IH (S k) (delete (rnd k `mod` length population)%nat population)).
  destruct (sample _ _ _ _) as [xs k']. simpl in *.
  intros [->|Hx]%elem_of_cons.
  - by eapply list_elem_of_lookup_2.
  - eapply elem_of_sublist; [by apply IH|]. apply sublist_delete.
Qed.

Lemma clear_all_spec (maze : grid) (walls : list cell) :
  shape (height self) (width self) maze →
  Forall (interior self) walls →
  clear_all maze walls = Done (pokes maze walls).
Proof.
  intros Hsh Hwalls. revert maze Hsh.
  induction Hwalls as [|[r c] walls Hw _ IH]; intros maze Hsh; simpl; [done|].
  rewrite (maze_set_interior self maze (r, c)), Done_bind by done.
  apply IH. by apply shape_poke.
Qed.

(** [add_multiple_paths] raises nothing, and what it does is to open a
    list of cells that were walls. *)
Lemma add_multiple_paths_spec (k : nat) (maze : grid) :
  shape (height self) (width self) maze →
  ∃ maze' k' walls,
    add_multiple_paths self rnd k maze = Done (maze', k')
    ∧ maze' = pokes maze walls
    ∧ Forall (λ w, interior self w ∧ peek maze w = Some WALL) walls.
Proof.
  intros Hsh. unfold add_multiple_paths.
  rewrite collect_spec, Done_bind; [|done|].
  2:{ apply Forall_forall. intros [r c] [Hr Hc]%elem_of_product. simpl in *.
      apply elem_of_range_up in Hr as [Hr _]; [|lia].
      apply elem_of_range_up in Hc as [Hc _]; [|lia].
      unfold inside. simpl. lia. }
  rewrite collect_spec, Done_bind; [|done|].
  2:{ apply Forall_forall. intros [r c] [Hr Hc]%elem_of_product. simpl in *.
      apply elem_of_range_up in Hr as [Hr _]; [|lia].
      apply elem_of_range_up in Hc as [Hc _]; [|lia].
      unfold inside. simpl. lia. }
  rewrite app_nil_l.
  set (walls_to_remove := _ ++ _).
  assert (Forall (λ w, interior self w ∧ peek maze w = Some WALL)
                 walls_to_remove) as Hall.
  { apply Forall_app. split; apply Forall_forall;
      intros [r c] [(_ & _ & Hwall) [Hr Hc]%elem_of_product]%list_elem_of_filter;
      simpl in *;
      (apply elem_of_range_up in Hr as [Hr _]; [|lia]);
      (apply elem_of_range_up in Hc as [Hc _]; [|lia]);
      (split; [unfold interior; simpl; lia|done]). }
  case_bool_decide; [|by exists maze, k, []].
  pose proof (sample_subseteq k walls_to_remove
                (length walls_to_remove `div` 8)) as Hsub.
  destruct (sample _ _ _ _) as [chosen k'].
  assert (Forall (λ w, interior self w ∧ peek maze w = Some WALL) chosen)
    as Hchosen.
  { rewrite Forall_forall in Hall |- *. intros w Hw. by apply Hall, Hsub. }
  rewrite clear_all_spec, Done_bind; [|done|].
  - by exists (pokes maze chosen), k', chosen.
  - eapply Forall_impl; [exact Hchosen|]. by intros w [? _].
Qed.

End augment_facts.

(** Opening walls keeps every free cell free. *)
Lemma free_pokes (maze : grid) (walls : list cell) (p : cell) :
  Forall nonneg walls → free maze p → free (pokes maze walls) p.
Proof.
  intros Hwalls. unfold free. rewrite peek_pokes by done.
  case_decide; [|done]. by destruct (peek maze p).
Qed.

(** ** Paths in the grid *)

Lemma elem_of_around (a q : cell) :
  q ∈ around a ↔ (q.1 = a.1 ∧ (q.2 = a.2 + 1 ∨ q.2 = a.2 - 1))
                 ∨ (q.2 = a.2 ∧ (q.1 = a.1 + 1 ∨ q.1 = a.1 - 1)).
Proof.
  unfold around. rewrite list_elem_of_fmap.
  destruct a as [r c], q as [qr qc]. simpl. split.
  - intros (d & [= -> ->] & Hd). set_unfold in Hd.
    destruct Hd as [->|[->|[->|[->|[]]]]]; simpl; lia.
  - intros Hq. exists (qr - r, qc - c). simpl. split; [f_equal; lia|].
    rewrite !elem_of_cons.
    destruct Hq as [[-> [->| ->]]|[-> [->| ->]]].
    + left. f_equal; lia.
    + right; left. f_equal; lia.
    + right; right; left. f_equal; lia.
    + right; right; right; left. f_equal; lia.
Qed.

Lemma midpoint_between (a b : cell) :
  coarse_adjacent a b → midpoint a b ∈ around b ∧ a ∈ around (midpoint a b).
Proof.
  unfold coarse_adjacent. rewrite !elem_of_around.
  destruct a as [a1 a2], b as [b1 b2]. unfold midpoint. simpl.
  intros H. Z.div_mod_to_equations. lia.
Qed.

Lemma midpoint_comm (a b : cell) : midpoint a b = midpoint b a.
Proof. unfold midpoint. f_equal; f_equal; lia. Qed.

Lemma coarse_adjacent_sym (a b : cell) :
  coarse_adjacent a b → coarse_adjacent b a.
Proof. unfold coarse_adjacent. lia. Qed.

Lemma coarse_adjacent_odd2 (a b : cell) :
  odd2 a → coarse_adjacent a b → odd2 b.
Proof.
  unfold odd2, coarse_adjacent. destruct a as [a1 a2], b as [b1 b2]. simpl.
  intros Ha H. Z.div_mod_to_equations. lia.
Qed.

Lemma midpoint_not_odd2 (a b : cell) :
  odd2 a → coarse_adjacent a b → ¬ odd2 (midpoint a b).
Proof.
  unfold odd2, coarse_adjacent, midpoint.
  destruct a as [a1 a2], b as [b1 b2]. simpl.
  intros Ha H. Z.div_mod_to_equations. lia.
Qed.

(** The cell half way tells the two ends. *)
Lemma midpoint_determines (a b a' b' : cell) :
  odd2 a → odd2 a' → coarse_adjacent a b → coarse_adjacent a' b' →
  midpoint a b = midpoint a' b' → a = a' ∨ a = b'.
Proof.
  unfold odd2, coarse_adjacent, midpoint.
  destruct a as [a1 a2], b as [b1 b2], a' as [c1 c2], b' as [d1 d2]. simpl.
  intros Ha Ha' H H' [= H1 H2].
  assert ((a1 = c1 ∧ a2 = c2) ∨ (a1 = d1 ∧ a2 = d2)) as [[-> ->]|[-> ->]];
    [|by left|by right].
  Z.div_mod_to_equations. lia.
Qed.

Lemma linked_tail (a : cell) (path : list cell) :
  linked (a :: path) → linked path.
Proof. intros H i x y Hx Hy. by apply (H (S i)). Qed.

Lemma chained_linked (self : MazeGenerator) (path : list cell) :
  chained self path → linked path.
Proof.
  intros H i a b Ha Hb. by apply (H i a b Ha), elem_of_neighbors in Hb as [_ ?].
Qed.

Lemma elem_of_trace (path : list cell) (q : cell) :
  q ∈ trace path ↔ q ∈ path ∨ q ∈ mids path.
Proof.
  induction path as [|a [|b rest] IH].
  - simpl. rewrite !elem_of_nil. tauto.
  - simpl. rewrite !list_elem_of_singleton, elem_of_nil. tauto.
  - change (trace (a :: b :: rest))
      with (a :: midpoint a b :: trace (b :: rest)).
    change (mids (a :: b :: rest)) with (midpoint a b :: mids (b :: rest)).
    rewrite !elem_of_cons, IH, !elem_of_cons. tauto.
Qed.

Lemma length_mids (path : list cell) : length (mids path) = pred (length path).
Proof.
  induction path as [|a [|b rest] IH]; simpl; [done..|].
  simpl in IH. by rewrite IH.
Qed.

Lemma elem_of_mids (path : list cell) (q : cell) :
  q ∈ mids path →
  ∃ i a b, path !! i = Some a ∧ path !! S i = Some b ∧ q = midpoint a b.
Proof.
  induction path as [|a [|b rest] IH]; simpl.
  - by intros ?%elem_of_nil.
  - by intros ?%elem_of_nil.
  - intros [->|Hq]%elem_of_cons.
    + by exists 0%nat, a, b.
    + destruct (IH Hq) as (i & x & y & Hx & Hy & ->).
      by exists (S i), x, y.
Qed.

Lemma linked_odd2 (path : list cell) (a : cell) :
  linked path → head path = Some a → odd2 a → Forall odd2 path.
Proof.
  revert a. induction path as [|x path IH]; intros a Hl [= ->] Ha.
  constructor; [done|]. destruct path as [|y path]; [constructor|].
  apply (IH y); [by eapply linked_tail|done|].
  eapply coarse_adjacent_odd2; [exact Ha|]. by apply (Hl 0%nat).
Qed.

Lemma mids_not_odd2 (path : list cell) (q : cell) :
  linked path → Forall odd2 path → q ∈ mids path → ¬ odd2 q.
Proof.
  intros Hl Hodd (i & a & b & Ha & Hb & ->)%elem_of_mids.
  apply midpoint_not_odd2; [|by eapply Hl].
  eapply Forall_lookup_1; [exact Hodd|exact Ha].
Qed.

Lemma NoDup_mids (path : list cell) :
  linked path → Forall odd2 path → NoDup path → NoDup (mids path).
Proof.
  induction path as [|a [|b rest] IH]; intros Hl Hodd Hnd;
    [constructor..|].
  change (mids (a :: b :: rest)) with (midpoint a b :: mids (b :: rest)).
  apply NoDup_cons in Hnd as [Hnin Hnd].
  apply Forall_cons in Hodd as [Ha Hodd].
  constructor; [|apply IH; [by eapply linked_tail|done..]].
  intros (i & x & y & Hx & Hy & Heq)%elem_of_mids.
  apply midpoint_determines in Heq as [->| ->]; try done.
  - destruct Hnin. by eapply list_elem_of_lookup_2.
  - destruct Hnin. by eapply list_elem_of_lookup_2.
  - eapply Forall_lookup_1; [exact Hodd|exact Hx].
  - by apply (Hl 0%nat).
  - apply (linked_tail _ _ Hl i); done.
Qed.

Lemma free_pokes_iff (h w : Z) (maze : grid) (l : list cell) (q : cell) :
  shape h w maze → Forall (inside h w) l →
  free (pokes maze l) q ↔ q ∈ l ∨ free maze q.
Proof.
  intros Hsh Hl. unfold free. rewrite peek_pokes.
  - case_decide as Hq; [|tauto].
    rewrite Forall_forall in Hl. pose proof Hq as Hq2.
    apply Hl, (peek_is_Some _ _ _ _ Hsh) in Hq2 as [ch ->]. simpl.
    split; [by left|done].
  - eapply Forall_impl; [exact Hl|]. unfold inside, nonneg. lia.
Qed.

Lemma path_reachable (maze : grid) (start c : cell) (path : list cell) :
  linked path → last path = Some c → reachable maze start c →
  (∀ q, q ∈ trace path → free maze q) →
  ∀ x, x ∈ path → reachable maze start x.
Proof.
  induction path as [|x [|y rest] IH]; intros Hl Hlast Hc Hfree z Hz.
  - by apply elem_of_nil in Hz.
  - apply list_elem_of_singleton in Hz as ->. by injection Hlast as ->.
  - assert (∀ u, u ∈ y :: rest → reachable maze start u) as Hrest.
    { apply IH; [by eapply linked_tail|done|done|].
      intros q Hq. apply Hfree.
      change (trace (x :: y :: rest))
        with (x :: midpoint x y :: trace (y :: rest)).
      by do 2 right. }
    apply elem_of_cons in Hz as [->|Hz]; [|by apply Hrest].
    destruct (midpoint_between x y) as [H1 H2]; [by apply (Hl 0%nat)|].
    eapply rtc_r; [eapply rtc_r; [apply (Hrest y); left|]|].
    + split; [exact H1|]. apply Hfree.
      change (trace (x :: y :: rest))
        with (x :: midpoint x y :: trace (y :: rest)).
      right; left.
    + split; [exact H2|]. apply Hfree. left.
Qed.

(** ** The spanning tree *)

Section spanning_facts.
Variable self : MazeGenerator.
Hypothesis Hvalid : valid self.

Lemma passage_odd2 (p : cell) : passage self p → odd2 p.
Proof. unfold passage, odd2. tauto. Qed.

Lemma interior_odd2_passage (p : cell) :
  interior self p → odd2 p → passage self p.
Proof. unfold interior, odd2, passage. lia. Qed.

Lemma plain_step (maze : grid) (s : gset cell) (p : list cell) :
  shape (height self) (width self) maze →
  plain self maze s → Forall (interior self) p →
  plain self (pokes maze (trace p)) (list_to_set p ∪ s).
Proof.
  intros Hsh [Hchars Hfree Hopen] Hp.
  pose proof (trace_interior self p Hp) as Htr.
  assert (Forall nonneg (trace p)) as Hnn.
  { eapply Forall_impl; [exact Htr|]. apply interior_nonneg. }
  assert (Forall (inside (height self) (width self)) (trace p)) as Hins.
  { eapply Forall_impl; [exact Htr|]. apply interior_inside. }
  split.
  - intros q ch. rewrite peek_pokes by done. case_decide; [|apply Hchars].
    destruct (peek maze q); intros [= <-]. by right.
  - intros q [Hq|Hq]%(free_pokes_iff _ _ _ _ _ Hsh Hins); [|by apply Hfree].
    rewrite Forall_forall in Htr. by apply Htr.
  - intros q Hq. rewrite peek_pokes by done.
    case_decide as Hin.
    + rewrite Forall_forall in Hins.
      by apply Hins, (peek_is_Some _ _ _ _ Hsh) in Hin as [ch ->].
    + apply Hopen. apply elem_of_union in Hq as [Hq%elem_of_list_to_set|?];
        [|done].
      destruct Hin. by apply elem_of_trace_path.
Qed.

Lemma spanning_step (maze : grid) (s : gset cell) (current : cell)
    (p : list cell) (c : cell) :
  shape (height self) (width self) maze → spanning self maze s →
  passage self current → current ∉ s →
  trail self s p c → head p = Some current → c ∈ s →
  spanning self (pokes maze (trace p)) (list_to_set p ∪ s).
Proof.
  intros Hsh [Hpass Hcount Hedge Hreach] Hcur Hfresh
    [Hnd Hlast Hint Hch Hnew] Hhead Hc.
  pose proof (chained_linked _ _ Hch) as Hl.
  pose proof (linked_odd2 _ _ Hl Hhead (passage_odd2 _ Hcur)) as Hodd.
  pose proof (trace_interior self p Hint) as Htr.
  assert (Forall (inside (height self) (width self)) (trace p)) as Hins.
  { eapply Forall_impl; [exact Htr|]. apply interior_inside. }
  pose proof (λ q, free_pokes_iff _ _ maze (trace p) q Hsh Hins) as Hfree.
  apply last_Some in Hlast as [init ->]. pose proof Hnd as Hndp.
  apply NoDup_app in Hnd as (Hndi & Hic & _).
  assert (∀ x, x ∈ init → x ∉ s) as Hinit.
  { intros x Hx. apply Hnew; [apply elem_of_app; by left|].
    intros ->. apply (Hic c Hx). left. }
  assert (∀ q, q ∈ mids (init ++ [c]) → ¬ free maze q) as Hmids.
  { intros q (i & x & y & Hx & Hy & ->)%elem_of_mids Hq.
    apply (Hinit x).
    - apply lookup_lt_Some in Hy. rewrite length_app in Hy. simpl in Hy.
      rewrite lookup_app_l in Hx by lia. by eapply list_elem_of_lookup_2.
    - apply (Hedge x y); [|by eapply Hl|done].
      eapply Forall_lookup_1; [exact Hodd|exact Hx]. }
  split.
  - intros x [Hx%elem_of_list_to_set|Hx]%elem_of_union; [|by apply Hpass].
    apply interior_odd2_passage.
    + eapply Forall_forall; [exact Hint|done].
    + eapply Forall_forall; [exact Hodd|done].
  - assert (cleared_walls self (pokes maze (trace (init ++ [c])))
            = list_to_set (mids (init ++ [c])) ∪ cleared_walls self maze)
      as ->.
    { apply set_eq. intros q. unfold cleared_walls.
      rewrite elem_of_union, !elem_of_filter, elem_of_list_to_set, Hfree,
        elem_of_trace, elem_of_positions.
      split.
      - intros [[[[Hq|Hq]|Hq] Hno] Hin]; [|tauto..].
        destruct Hno. eapply Forall_forall; [exact Hodd|done].
      - intros [Hq|[[Hq Hno] Hin]]; [|tauto].
        split_and!; [tauto|by eapply mids_not_odd2|].
        apply interior_inside. eapply Forall_forall; [exact Htr|].
        apply elem_of_trace. by right. }
    assert (list_to_set (init ++ [c]) ∪ s = list_to_set init ∪ s) as ->.
    { apply set_eq. intros q.
      rewrite !elem_of_union, !elem_of_list_to_set, elem_of_app,
        list_elem_of_singleton.
      split; [intros [[?| ->]|?]|]; tauto. }
    rewrite size_union.
    2:{ apply elem_of_disjoint. unfold cleared_walls.
        intros q Hq%elem_of_list_to_set [[Hq' _] _]%elem_of_filter.
        by apply (Hmids q). }
    rewrite (size_union (list_to_set init)).
    2:{ apply elem_of_disjoint. intros q Hq%elem_of_list_to_set.
        by apply Hinit. }
    rewrite size_list_to_set by (by apply NoDup_mids).
    rewrite size_list_to_set by done.
    rewrite length_mids, length_app. simpl. lia.
  - intros a b Ha Hab [Hq|Hq]%Hfree;
      [|apply elem_of_union_r; by apply (Hedge a b)].
    apply elem_of_union_l, elem_of_list_to_set.
    apply elem_of_trace in Hq as [Hq|Hq].
    + destruct (midpoint_not_odd2 a b Ha Hab).
      eapply Forall_forall; [exact Hodd|done].
    + apply elem_of_mids in Hq as (i & x & y & Hx & Hy & Heq).
      apply midpoint_determines in Heq as [->| ->]; try done.
      * by eapply list_elem_of_lookup_2.
      * by eapply list_elem_of_lookup_2.
      * eapply Forall_lookup_1; [exact Hodd|exact Hx].
      * by eapply Hl.
  - assert (∀ q, free maze q → free (pokes maze (trace (init ++ [c]))) q)
      as Hmono by (intros q ?; apply Hfree; by right).
    intros x [Hx%elem_of_list_to_set|Hx]%elem_of_union.
    + eapply (path_reachable _ _ c (init ++ [c])); [done|apply last_snoc| |
        |done].
      * eapply reachable_mono; [exact Hmono|by apply Hreach].
      * intros q Hq. apply Hfree. by left.
    + eapply reachable_mono; [exact Hmono|by apply Hreach].
Qed.

End spanning_facts.

(** ** The whole run *)

Section run_facts.
Variable self : MazeGenerator.
Variable rnd : nat → nat.
Hypothesis Hvalid : valid self.

Lemma start_interior : interior self (1, 1).
Proof. destruct Hvalid as [[? _] [? _]]. unfold interior. simpl. lia. Qed.

Lemma shape_start_maze : shape (height self) (width self) (start_maze self).
Proof. apply shape_poke, shape_replicate. Qed.

Variable Inv : grid → gset cell → Prop.
Variable ok : gset cell * list cell * cell → Prop.
Hypothesis Inv_step :
  ∀ (maze : grid) (s : gset cell) (current : cell) (p : list cell) (c : cell),
    shape (height self) (width self) maze → Inv maze s →
    passage self current → current ∉ s →
    trail self s p c → head p = Some current → ok (s, p, c) →
    Inv (pokes maze (trace p)) (list_to_set p ∪ s).
Hypothesis Inv_init : Inv (start_maze self) {[(1, 1)]}.

(** The run of the generator, phase by phase: nothing raises and no loop
    runs out of its bound. *)
Lemma generator_run :
  Forall ok (generation_walks self rnd) →
  ∃ maze2 s2 k evs maze5 maze6,
    rounds self rnd (length (remaining_of self {[(1, 1)]})) (start_maze self)
           {[(1, 1)]} (remaining_of self {[(1, 1)]}) 0%nat
      = Done (maze2, s2, k, evs)
    ∧ shape (height self) (width self) maze2
    ∧ Inv maze2 s2 ∧ remaining_of self s2 = [] ∧ (1, 1) ∈ s2
    ∧ goal_placement self (poke maze2 (1, 1) START) = Done maze5
    ∧ shape (height self) (width self) maze5
    ∧ (∃ walls, maze6 = pokes maze5 walls
                ∧ Forall (λ w, interior self w ∧ peek maze5 w = Some WALL)
                         walls
                ∧ (multiple_solutions self = false → walls = []))
    ∧ wilson_algorithm_generator self rnd
      = Done ({| width := width self; height := height self;
                 multiple_solutions := multiple_solutions self;
                 maze := Some maze6 |},
              (start_maze self, "initial"%string, PCell (1, 1)) :: evs
                ++ [(maze6, "complete"%string, PNone)]).
Proof.
  intros Hok.
  destruct (rounds_inv self rnd Hvalid Inv ok Inv_step _ _ _ 0%nat
              shape_start_maze Inv_init (Nat.le_refl _) Hok)
    as (maze2 & s2 & k & evs & Hrounds & Hsh2 & Hinv2 & Hrem & Hsub).
  pose proof (shape_poke _ _ maze2 (1, 1) START Hsh2) as Hsh3.
  destruct (goal_placement_spec self _ Hsh3) as (maze5 & Hgoal & Hm5).
  assert (shape (height self) (width self) maze5) as Hsh5.
  { destruct Hm5 as [->|(g & -> & _)]; [done|by apply shape_poke]. }
  assert (∃ maze6 k',
    (if multiple_solutions self then add_multiple_paths self rnd k maze5
     else Done (maze5, k)) = Done (maze6, k')
    ∧ ∃ walls, maze6 = pokes maze5 walls
               ∧ Forall (λ w, interior self w ∧ peek maze5 w = Some WALL)
                        walls
               ∧ (multiple_solutions self = false → walls = []))
    as (maze6 & k' & Hmulti & Hm6).
  { destruct (multiple_solutions self).
    - destruct (add_multiple_paths_spec self rnd k maze5 Hsh5)
        as (maze6 & k' & walls & Hadd & Hm6 & Hwalls).
      exists maze6, k'. split; [done|]. by exists walls.
    - exists maze5, k. split; [done|]. by exists []. }
  exists maze2, s2, k, evs, maze5, maze6.
  split_and!; [done..| |done|done|done|].
  { apply Hsub. by apply elem_of_singleton. }
  unfold wilson_algorithm_generator. cbv zeta.
  rewrite (maze_set_interior self _ (1, 1)) by
    (apply shape_replicate || apply start_interior).
  rewrite Done_bind. fold (start_maze self).
  rewrite Hrounds, Done_bind.
  pose proof (maze_set_interior self maze2 (1, 1) START Hsh2 start_interior)
    as Hset.
  cbn [fst snd] in Hset. rewrite Hset, Done_bind.
  by rewrite Hgoal, Done_bind, Hmulti, Done_bind.
Qed.

End run_facts.

Lemma free_poke_iff (maze : grid) (p q : cell) (ch : ascii) :
  nonneg p → ch ≠ WALL → free maze p →
  free (poke maze p ch) q ↔ free maze q.
Proof.
  intros [Hp1 Hp2] Hch Hp. unfold free in *. rewrite peek_poke by done.
  case_decide as Heq; [|done]. subst q. by destruct (peek maze p).
Qed.

Lemma reachable_iff (maze maze' : grid) (a b : cell) :
  (∀ p, free maze' p ↔ free maze p) →
  reachable maze' a b ↔ reachable maze a b.
Proof.
  intros Hfree. split; apply reachable_mono; intros p; by apply Hfree.
Qed.

Lemma cleared_walls_iff (self : MazeGenerator) (maze maze' : grid) :
  (∀ p, free maze' p ↔ free maze p) →
  cleared_walls self maze' = cleared_walls self maze.
Proof.
  intros Hfree. apply set_eq. intros q. unfold cleared_walls.
  by rewrite !elem_of_filter, Hfree.
Qed.

Lemma peek_replicate_Some (h w : Z) (ch x : ascii) (p : cell) :
  peek (replicate (Z.to_nat h) (replicate (Z.to_nat w) ch)) p = Some x →
  x = ch.
Proof.
  unfold peek. case_bool_decide; [|done].
  destruct (replicate _ _ !! _) as [row|] eqn:Hrow; simpl; [|done].
  apply lookup_replicate in Hrow as [-> _].
  by intros [-> _]%lookup_replicate.
Qed.

Section initial_facts.
Variable self : MazeGenerator.
Hypothesis Hvalid : valid self.

Lemma peek_start_maze (q : cell) (ch : ascii) :
  peek (start_maze self) q = Some ch →
  (q = (1, 1) ∧ ch = OPEN) ∨ (q ≠ (1, 1) ∧ ch = WALL).
Proof.
  unfold start_maze. rewrite peek_poke by done.
  case_decide as Hq.
  - destruct (peek _ (1, 1)); intros [= <-]. by left.
  - intros ->%peek_replicate_Some. by right.
Qed.

Lemma free_start_maze (q : cell) : free (start_maze self) q → q = (1, 1).
Proof.
  unfold free. destruct (peek (start_maze self) q) as [ch|] eqn:Hq; [|done].
  by apply peek_start_maze in Hq as [[-> _]|[_ ->]].
Qed.

Lemma start_passage : passage self (1, 1).
Proof.
  destruct Hvalid as [[? _] [? _]]. unfold passage. simpl.
  split_and!; (lia || reflexivity).
Qed.

Lemma plain_start : plain self (start_maze self) {[(1, 1)]}.
Proof.
  split.
  - intros q ch Hq. apply peek_start_maze in Hq as [[_ ->]|[_ ->]]; auto.
  - intros q ->%free_start_maze. by apply start_interior.
  - intros q ->%elem_of_singleton.
    unfold start_maze. rewrite peek_poke, decide_True by done.
    rewrite peek_replicate; [done|].
    by apply interior_inside, start_interior.
Qed.

Lemma spanning_start : spanning self (start_maze self) {[(1, 1)]}.
Proof.
  split.
  - intros q ->%elem_of_singleton. apply start_passage.
  - assert (cleared_walls self (start_maze self) = ∅) as ->.
    { apply set_eq. intros q. unfold cleared_walls.
      rewrite elem_of_filter, elem_of_empty.
      split; [|done]. intros [[->%free_start_maze Hodd] _].
      by destruct Hodd. }
    by rewrite size_empty, size_singleton.
  - intros a b Ha Hab Hq%free_start_maze.
    destruct (midpoint_not_odd2 a b Ha Hab). by rewrite Hq.
  - intros q ->%elem_of_singleton. apply rtc_refl.
Qed.

End initial_facts.

(** ** Sizes below three *)

Lemma rounded_odd (n : Z) : rounded n `mod` 2 = 1 ∧ n ≤ rounded n ≤ n + 1.
Proof.
  unfold rounded. case_bool_decide as Hn; [lia|].
  split; [|lia]. Z.div_mod_to_equations. lia.
Qed.

Lemma generator_small_raises (self : MazeGenerator) (rnd : nat → nat) :
  height self < 2 ∨ width self < 2 →
  wilson_algorithm_generator self rnd = Raise IndexError.
Proof.
  intros Hsmall. unfold wilson_algorithm_generator. cbv zeta.
  cbn [fst snd]. rewrite maze_set_poke by done.
  destruct (peek _ (1, 1)) as [ch|] eqn:Hpeek; [|done].
  assert (inside (height self) (width self) (1, 1)) as [? ?]; [|simpl in *; lia].
  apply (peek_is_Some _ _ _ _ (shape_replicate _ _ WALL)). by eexists.
Qed.

(** ** Simple paths *)

Lemma walk_simple (self : MazeGenerator) (rnd : nat → nat) (budget : nat)
    (maze : grid) (in_maze : gset cell) (path : list cell) (current : cell)
    (k : nat) :
  NoDup path →
  NoDup (walk_path (walk self rnd budget maze in_maze path current k))
  ∧ Forall simple_event
           (walk_events_of (walk self rnd budget maze in_maze path current k)).
Proof.
  revert path current k. induction budget as [|budget IH];
    intros path current k Hnd; simpl; [done|].
  case_decide; [done|].
  destruct (neighbors self current) as [|n0 ns] eqn:Hns; [done|].
  rewrite <-Hns.
  set (next_cell := choice rnd k n0 (neighbors self current)).
  pose proof (extend_path_NoDup path next_cell Hnd) as Hnd'.
  specialize (IH (extend_path path next_cell) next_cell (S k) Hnd').
  destruct (walk _ _ _ _ _ _ _ _) as [[[p1 c1] k1] evs1].
  unfold walk_path, walk_events_of in *. simpl in *.
  destruct IH as [? ?]. split; [done|]. by constructor.
Qed.

(** ** Progress of a round *)

Lemma round_progress (self : MazeGenerator) (rnd : nat → nat) (maze : grid)
    (s : gset cell) (current : cell) (k : nat) :
  valid self → shape (height self) (width self) maze →
  current ∈ remaining_of self s →
  ∃ maze' s' evs,
    connect maze s
            (walk_path (walk self rnd max_steps maze s [current] current k))
      = Done (maze', s', evs)
    ∧ current ∈ s' ∧ s ⊆ s'
    ∧ (length (remaining_of self s') < length (remaining_of self s))%nat.
Proof.
  intros Hvalid Hsh Hcur.
  apply list_elem_of_filter in Hcur as Hcur2.
  destruct Hcur2 as [Hfresh Hpass%elem_of_all_cells].
  pose proof (passage_interior _ _ Hvalid Hpass) as Hint.
  destruct (walk _ _ _ _ _ _ _ _) as [[[p c] k1] wevs] eqn:Hwalk.
  apply walk_trail in Hwalk as (Htrail & Hhead & _); [|by apply trail_start].
  destruct (connect_Done self maze s p Hsh (trail_interior _ _ _ _ Htrail))
    as (cevs & Hconn & _ & _).
  unfold walk_path. simpl. rewrite Hconn.
  assert (current ∈ (list_to_set p ∪ s : gset cell)) as Hin.
  { apply elem_of_union_l, elem_of_list_to_set.
    simpl in Hhead. by apply head_Some_elem_of. }
  eexists _, _, _. split_and!; [done|done|apply union_subseteq_r|].
  eapply remaining_of_shrinks; [apply union_subseteq_r|done|done].
Qed.

(** * The claims *)

(** ** Runs to compute with *)

Lemma valid_corridor : valid corridor.
Proof. unfold valid, corridor. simpl. split_and!; (lia || reflexivity). Qed.

(** ** C3: sizes below three *)

(** C3, counterexample: the constructor called with width 1 and height 1
    raises nothing, it returns a generator. *)
Lemma construction_not_rejected : ¬ rejects_small_sizes.
Proof.
  intros H. destruct (H 1 1 false) as [e He]; [by left|]. discriminate He.
Qed.

(** C3, amended: for every requested size still below three after the
    rounding, the constructor raises nothing and returns the generator with
    the two dimensions rounded up to odd; it is the run of the generator that
    fails, with an IndexError before its first event. *)
Theorem small_sizes_are_constructed (w h : Z) (m : bool) (rnd : nat → nat) :
  rounded w < 3 ∨ rounded h < 3 →
  ∃ g, __init__ w h m = Done g
       ∧ width g = rounded w ∧ height g = rounded h
       ∧ multiple_solutions g = m ∧ maze g = None
       ∧ wilson_algorithm_generator g rnd = Raise IndexError.
Proof.
  intros Hsmall. eexists. split; [reflexivity|]. split_and!; try reflexivity.
  apply generator_small_raises. simpl. fold (rounded w) (rounded h).
  destruct (rounded_odd w) as [Hw _], (rounded_odd h) as [Hh _].
  Z.div_mod_to_equations. lia.
Qed.

Lemma small_sizes_are_constructed_witness :
  ∃ g, __init__ 1 1 false = Done g
       ∧ width g = rounded 1 ∧ height g = rounded 1
       ∧ multiple_solutions g = false ∧ maze g = None
       ∧ wilson_algorithm_generator g first_choice = Raise IndexError.
Proof.
  apply (small_sizes_are_constructed 1 1 false first_choice).
  left. reflexivity.
Defined.

(** ** C6: loop erasure *)

(** C6: when the chosen neighbour is in the path at index [i], the path
    becomes its first [i + 1] cells and ends in that neighbour; when it is
    not, it is appended; so a simple path stays simple, in each step and
    through the whole walk, events included. *)
Theorem loop_erasure (self : MazeGenerator) (rnd : nat → nat) (budget : nat)
    (maze : grid) (in_maze : gset cell) (path : list cell)
    (current next_cell : cell) (k : nat) :
  NoDup path →
  (∀ i, path !! i = Some next_cell →
        extend_path path next_cell = take (S i) path
        ∧ length (extend_path path next_cell) = S i
        ∧ last (extend_path path next_cell) = Some next_cell)
  ∧ (next_cell ∉ path → extend_path path next_cell = path ++ [next_cell])
  ∧ NoDup (extend_path path next_cell)
  ∧ NoDup (walk_path (walk self rnd budget maze in_maze path current k))
  ∧ Forall simple_event
           (walk_events_of (walk self rnd budget maze in_maze path current k)).
Proof.
  intros Hnd. split_and!.
  - intros i Hi.
    rewrite (extend_path_erase path next_cell i Hi).
    + split_and!; [done| |by apply last_take_lookup].
      apply lookup_lt_Some in Hi. rewrite length_take. lia.
    + intros j Hj Hjn. pose proof (NoDup_lookup _ _ _ _ Hnd Hi Hjn). lia.
  - apply extend_path_append.
  - by apply extend_path_NoDup.
  - by apply walk_simple.
  - by apply walk_simple.
Qed.

Lemma loop_erasure_witness :
  (∀ i, [(1, 3); (1, 5); (3, 5)] !! i = Some (1, 5) →
        extend_path [(1, 3); (1, 5); (3, 5)] (1, 5)
        = take (S i) [(1, 3); (1, 5); (3, 5)]
        ∧ length (extend_path [(1, 3); (1, 5); (3, 5)] (1, 5)) = S i
        ∧ last (extend_path [(1, 3); (1, 5); (3, 5)] (1, 5)) = Some (1, 5))
  ∧ ((1, 5) ∉ [(1, 3); (1, 5); (3, 5)] →
     extend_path [(1, 3); (1, 5); (3, 5)] (1, 5)
     = [(1, 3); (1, 5); (3, 5)] ++ [(1, 5)])
  ∧ NoDup (extend_path [(1, 3); (1, 5); (3, 5)] (1, 5))
  ∧ NoDup (walk_path (walk corridor first_choice 4 (start_maze corridor)
                           {[(1, 1)]} [(1, 3); (1, 5); (3, 5)] (3, 5) 0))
  ∧ Forall simple_event
           (walk_events_of (walk corridor first_choice 4 (start_maze corridor)
                                 {[(1, 1)]} [(1, 3); (1, 5); (3, 5)] (3, 5) 0)).
Proof.
  apply (loop_erasure corridor first_choice 4 (start_maze corridor)
           {[(1, 1)]} [(1, 3); (1, 5); (3, 5)] (3, 5) (1, 5) 0).
  apply (bool_decide_unpack _). vm_compute. exact I.
Defined.

(** ** C9: the phases of the event stream *)

Lemma unconditional_run (self : MazeGenerator) (rnd : nat → nat) :
  valid self →
  ∃ maze2 s2 k evs maze6,
    rounds self rnd (length (remaining_of self {[(1, 1)]})) (start_maze self)
           {[(1, 1)]} (remaining_of self {[(1, 1)]}) 0%nat
      = Done (maze2, s2, k, evs)
    ∧ wilson_algorithm_generator self rnd
      = Done ({| width := width self; height := height self;
                 multiple_solutions := multiple_solutions self;
                 maze := Some maze6 |},
              (start_maze self, "initial"%string, PCell (1, 1)) :: evs
                ++ [(maze6, "complete"%string, PNone)]).
Proof.
  intros Hvalid.
  destruct (generator_run self rnd Hvalid (λ _ _, True) (λ _, True))
    as (maze2 & s2 & k & evs & maze5 & maze6 & Hrounds & _ & _ & _ & _ & _
        & _ & _ & Hrun); [done|done| |].
  { by apply Forall_forall. }
  by exists maze2, s2, k, evs, maze6.
Qed.

(** C9: the run of the generator yields one "initial" event, then rounds of
    one "walk_start", some "walking", some "adding_path" and one
    "path_complete" event, then one "complete" event, the last; and every
    event carries the payload of its phase: a cell for "initial",
    "walk_start" and "adding_path", a path for "walking", nothing for
    "path_complete" and "complete". *)
Theorem event_stream_phases (self : MazeGenerator) (rnd : nat → nat) :
  valid self →
  ∃ g' evs rs,
    wilson_algorithm_generator self rnd = Done (g', evs)
    ∧ tag <$> evs = ("initial" :: (rs ≫= round_tags) ++ ["complete"])%string
    ∧ Forall well_formed evs.
Proof.
  intros Hvalid.
  destruct (unconditional_run self rnd Hvalid)
    as (maze2 & s2 & k & evs & maze6 & Hrounds & Hrun).
  apply rounds_events in Hrounds as [(rs & Htags & _) Hwf].
  eexists _, _, rs. split; [exact Hrun|]. split.
  - by rewrite fmap_cons, fmap_app, Htags.
  - constructor.
    { unfold well_formed, tag. simpl. rewrite !elem_of_cons. tauto. }
    apply Forall_app. split; [done|]. constructor; [|done].
    unfold well_formed, tag. simpl. rewrite !elem_of_cons. tauto.
Qed.

Lemma event_stream_phases_witness :
  ∃ g' evs rs,
    wilson_algorithm_generator corridor counting = Done (g', evs)
    ∧ tag <$> evs = ("initial" :: (rs ≫= round_tags) ++ ["complete"])%string
    ∧ Forall well_formed evs.
Proof.
  apply (event_stream_phases corridor counting).
  unfold valid, corridor. simpl. split_and!; (lia || reflexivity).
Defined.

(** ** C10: termination *)

(** C10: at a valid size the run of the generator ends, whatever the random
    source: its rounds are fewer than the passage cells, and its events are
    a finite list.  The reason is that every round, also one whose walk
    stops at the step bound, connects its path, which holds the cell the
    walk started from: that cell is new in the in-maze set, and the cells
    that remain get fewer. *)
Theorem generation_terminates (self : MazeGenerator) (rnd : nat → nat) :
  valid self →
  (∃ g' evs rs,
      wilson_algorithm_generator self rnd = Done (g', evs)
      ∧ tag <$> evs = ("initial" :: (rs ≫= round_tags) ++ ["complete"])%string
      ∧ (length rs < length (all_cells self))%nat)
  ∧ ∀ maze s current k,
      shape (height self) (width self) maze →
      current ∈ remaining_of self s →
      ∃ maze' s' evs,
        connect maze s
                (walk_path (walk self rnd max_steps maze s [current] current k))
          = Done (maze', s', evs)
        ∧ (current ∉ s) ∧ current ∈ s' ∧ s ⊆ s'
        ∧ (length (remaining_of self s') < length (remaining_of self s))%nat.
Proof.
  intros Hvalid. split.
  - destruct (unconditional_run self rnd Hvalid)
      as (maze2 & s2 & k & evs & maze6 & Hrounds & Hrun).
    apply rounds_events in Hrounds as [(rs & Htags & Hlen) _].
    eexists _, _, rs. split; [exact Hrun|]. split.
    + by rewrite fmap_cons, fmap_app, Htags.
    + eapply Nat.le_lt_trans; [exact Hlen|].
      apply (length_filter_lt _ _ (1, 1)).
      * apply elem_of_all_cells. by apply start_passage.
      * intros Hnin. apply Hnin. by apply elem_of_singleton.
  - intros maze s current k Hsh Hcur.
    destruct (round_progress self rnd maze s current k Hvalid Hsh Hcur)
      as (maze' & s' & evs & Hconn & Hin & Hsub & Hlt).
    exists maze', s', evs. split_and!; try done.
    by apply list_elem_of_filter in Hcur as [? _].
Qed.

Lemma generation_terminates_witness :
  (∃ g' evs rs,
      wilson_algorithm_generator corridor first_choice = Done (g', evs)
      ∧ tag <$> evs = ("initial" :: (rs ≫= round_tags) ++ ["complete"])%string
      ∧ (length rs < length (all_cells corridor))%nat)
  ∧ ∀ maze s current k,
      shape (height corridor) (width corridor) maze →
      current ∈ remaining_of corridor s →
      ∃ maze' s' evs,
        connect maze s
                (walk_path (walk corridor first_choice max_steps maze s
                                 [current] current k))
          = Done (maze', s', evs)
        ∧ (current ∉ s) ∧ current ∈ s' ∧ s ⊆ s'
        ∧ (length (remaining_of corridor s')
           < length (remaining_of corridor s))%nat.
Proof.
  apply (generation_terminates corridor first_choice).
  unfold valid, corridor. simpl. split_and!; (lia || reflexivity).
Defined.

(** ** C1: a walk that stops outside the in-maze set *)

(** The first walk of the corridor under [first_choice]: from (1, 3) it
    goes to (1, 5) and back, a thousand steps, and stops on (1, 3). *)
Lemma corridor_first_walk :
  walk_path (walk corridor first_choice max_steps (start_maze corridor)
                  {[(1, 1)]} [(1, 3)] (1, 3) 1) = [(1, 3)]
  ∧ walk_stop (walk corridor first_choice max_steps (start_maze corridor)
                    {[(1, 1)]} [(1, 3)] (1, 3) 1) = (1, 3)
  ∧ length (walk_events_of
              (walk corridor first_choice max_steps (start_maze corridor)
                    {[(1, 1)]} [(1, 3)] (1, 3) 1)) = max_steps
  ∧ head (generation_walks corridor first_choice)
    = Some ({[(1, 1)]}, [(1, 3)], (1, 3)).
Proof. split_and!; vm_compute; reflexivity. Qed.

(** C1: the claim is false of the corridor under [first_choice]: the first
    walk stops at the step bound on (1, 3), outside the in-maze set, and
    the round clears (1, 3) all the same. *)
Lemma stalled_walk_changes_grid : ¬ abandons_stalled_walks corridor first_choice.
Proof.
  intros H.
  specialize (H (start_maze corridor) {[(1, 1)]} (1, 3) 1%nat).
  destruct corridor_first_walk as (Hpath & Hstop & _).
  rewrite Hpath, Hstop in H.
  destruct H as [evs H].
  { by intros [= ?]%elem_of_singleton. }
  assert (peek (start_maze corridor) (1, 3) = Some WALL) as Hwall
    by (vm_compute; reflexivity).
  destruct (connect_Done corridor (start_maze corridor) {[(1, 1)]} [(1, 3)])
    as (evs' & Hconn & _).
  { apply shape_start_maze. }
  { constructor; [|done]. unfold interior, corridor. simpl. lia. }
  rewrite Hconn in H.
  assert (pokes (start_maze corridor) (trace [(1, 3)]) = start_maze corridor)
    as Hmaze by congruence.
  assert (peek (pokes (start_maze corridor) (trace [(1, 3)])) (1, 3)
          = Some OPEN) as Hopen by (vm_compute; reflexivity).
  rewrite Hmaze, Hwall in Hopen. discriminate Hopen.
Qed.

(** C1: the code at the corridor under [first_choice].  The first walk of
    the run starts on (1, 3) with (1, 1) alone in the in-maze set, yields a
    walking event at each of the [max_steps] steps and stops on (1, 3),
    which is not in the in-maze set; its path is (1, 3) alone.  Lines 56-70
    then connect that path: (1, 3), a wall until then, is cleared and is
    added to the in-maze set, though no cell next to it is open. *)
Theorem stalled_walk_is_carved :
  head (generation_walks corridor first_choice)
  = Some ({[(1, 1)]}, [(1, 3)], (1, 3))
  ∧ ¬ reached (({[(1, 1)]} : gset cell), [(1, 3)], (1, 3))
  ∧ length (walk_events_of
              (walk corridor first_choice max_steps (start_maze corridor)
                    {[(1, 1)]} [(1, 3)] (1, 3) 1)) = max_steps
  ∧ start_maze corridor = [row "#######"; row "# #####"; row "#######"]
  ∧ ∃ s' evs,
      connect (start_maze corridor) {[(1, 1)]} [(1, 3)]
      = Done ([row "#######"; row "# # ###"; row "#######"], s', evs)
      ∧ (1, 3) ∈ s'.
Proof.
  destruct corridor_first_walk as (_ & _ & Hlen & Hhead).
  split_and!; [done| |done|by vm_compute|].
  { unfold reached. simpl. by intros [= ?]%elem_of_singleton. }
  destruct (connect_Done corridor (start_maze corridor) {[(1, 1)]} [(1, 3)])
    as (evs & Hconn & _).
  { apply shape_start_maze. }
  { constructor; [|done]. unfold interior, corridor. simpl. lia. }
  exists (list_to_set [(1, 3)] ∪ {[(1, 1)]}), evs. split.
  - rewrite Hconn. reflexivity.
  - apply elem_of_union_l, elem_of_list_to_set. left.
Qed.

(** ** C2 and C5: the completed grid *)

Lemma corridor_run :
  final_maze (wilson_algorithm_generator corridor first_choice)
  = Some corridor_final.
Proof. vm_compute. reflexivity. Qed.

(** What can be reached from the start on the grid the corridor ends
    with. *)
Lemma corridor_final_reach :
  get_reachable_positions corridor corridor_final (1, 1) = Done {[(1, 1)]}.
Proof. vm_compute. reflexivity. Qed.

Lemma corridor_final_apart : ¬ reachable corridor_final (1, 1) (1, 3).
Proof.
  assert (shape (height corridor) (width corridor) corridor_final) as Hsh.
  { split; [reflexivity|]. repeat constructor. }
  destruct (get_reachable_positions_spec corridor corridor_final Hsh (1, 1))
    as (vf & Hvf & Hiff).
  rewrite corridor_final_reach in Hvf. injection Hvf as <-.
  intros Hreach%Hiff. by apply elem_of_singleton in Hreach.
Qed.

(** C2: the claim is false of the corridor under [first_choice]: the first
    walk stops at the step bound and (1, 3) is connected on its own;
    (1, 5) then joins (1, 3), and (1, 1) stays apart: one cleared wall for
    three passage cells. *)
Lemma corridor_not_tree :
  valid corridor ∧ multiple_solutions corridor = false
  ∧ ¬ always_tree corridor first_choice.
Proof.
  split; [apply valid_corridor|]. split; [done|].
  intros (final & Hrun & Hcount & _).
  rewrite corridor_run in Hrun. injection Hrun as <-.
  vm_compute in Hcount. discriminate Hcount.
Qed.

(** C2: the code at the corridor under [first_choice], with
    [multiple_solutions] off.  The run ends with the grid
    [corridor_final]: three passage cells and one cleared wall, the one
    between (1, 3) and (1, 5); from the start nothing but the start is
    reached, so the passage cell (1, 3) is cut off. *)
Theorem corridor_is_split :
  final_maze (wilson_algorithm_generator corridor first_choice)
  = Some corridor_final
  ∧ multiple_solutions corridor = false
  ∧ all_cells corridor = [(1, 1); (1, 3); (1, 5)]
  ∧ cleared_walls corridor corridor_final = {[(1, 4)]}
  ∧ get_reachable_positions corridor corridor_final (1, 1) = Done {[(1, 1)]}
  ∧ passage corridor (1, 3)
  ∧ ¬ reachable corridor_final (1, 1) (1, 3).
Proof.
  split_and!.
  - apply corridor_run.
  - reflexivity.
  - vm_compute. reflexivity.
  - vm_compute. reflexivity.
  - apply corridor_final_reach.
  - unfold passage, corridor. simpl. split_and!; (lia || reflexivity).
  - apply corridor_final_apart.
Qed.

Lemma interior_candidate (self : MazeGenerator) (p : cell) :
  interior self p → p ∈ candidates self (-1).
Proof.
  intros [Hr Hc]. apply elem_of_product.
  rewrite !elem_of_range_down by lia.
  change (- -1) with 1. rewrite !Z.mod_1_r. lia.
Qed.

Lemma other_passage (self : MazeGenerator) :
  (1 < length (all_cells self))%nat →
  ∃ p, p ∈ all_cells self ∧ p ≠ (1, 1).
Proof.
  intros Hlen. pose proof (NoDup_all_cells self) as Hnd.
  destruct (all_cells self) as [|x [|y l]]; [simpl in Hlen; lia..|].
  apply NoDup_cons in Hnd as [Hxy _].
  destruct (decide (x = (1, 1))) as [->|Hx].
  - exists y. split; [right; left|]. intros ->. apply Hxy. left.
  - exists x. split; [left|done].
Qed.

Section goal_run.
Variable self : MazeGenerator.
Variable rnd : nat → nat.
Hypothesis Hvalid : valid self.

(** The run, with what holds of it in any case and what holds of it when
    every walk has reached the in-maze set. *)
Lemma conditional_run :
  ∃ maze2 s2 maze5 walls,
    shape (height self) (width self) maze2
    ∧ plain self maze2 s2 ∧ (1, 1) ∈ s2
    ∧ (Forall reached (generation_walks self rnd) →
       spanning self maze2 s2 ∧ ∀ p, p ∈ all_cells self → p ∈ s2)
    ∧ goal_placement self (poke maze2 (1, 1) START) = Done maze5
    ∧ shape (height self) (width self) maze5
    ∧ Forall (λ w, interior self w ∧ peek maze5 w = Some WALL) walls
    ∧ final_maze (wilson_algorithm_generator self rnd)
      = Some (pokes maze5 walls).
Proof.
  destruct (generator_run self rnd Hvalid
              (λ m s, plain self m s
                      ∧ (Forall reached (generation_walks self rnd) →
                         spanning self m s))
              (λ w, Forall reached (generation_walks self rnd) → reached w))
    as (maze2 & s2 & k & evs & maze5 & maze6 & _ & Hsh2 & [Hplain Hspan]
        & Hrem & Hstart & Hgoal & Hsh5 & (walls & -> & Hwalls & _) & Hrun).
  { intros maze s current p c Hsh [Hpl Hsp] Hcur Hfresh Htrail Hhead Hc.
    split.
    - apply plain_step; [done..|]. apply Htrail.
    - intros Hall. eapply spanning_step; eauto. by apply Hc. }
  { split; [by apply plain_start|]. intros _. by apply spanning_start. }
  { apply Forall_forall. intros w Hw Hall.
    rewrite Forall_forall in Hall. by apply Hall. }
  exists maze2, s2, maze5, walls. split_and!; try done.
  - intros Hall. split; [by apply Hspan|]. intros p Hp.
    destruct (decide (p ∈ s2)) as [|Hnin]; [done|].
    by destruct (filter_nil_not_elem_of _ _ p Hrem).
  - by rewrite Hrun.
Qed.

End goal_run.

(** C5: the claim is false of the corridor under [first_choice]: the
    corridor has three passage cells, its start cell ends walled in, no
    candidate is reachable, the furthest cell is the start itself, and no
    goal is written. *)
Lemma corridor_has_no_goal :
  valid corridor ∧ ¬ always_goal corridor first_choice.
Proof.
  split; [apply valid_corridor|]. intros H.
  destruct H as (final & g & Hrun & Hgoal & _).
  { vm_compute. lia. }
  rewrite corridor_run in Hrun. injection Hrun as <-.
  assert (shape 3 7 corridor_final) as Hsh.
  { split; [reflexivity|]. repeat constructor. }
  assert (g ∈ elements (positions corridor)) as Hg.
  { apply elem_of_elements, elem_of_positions.
    apply (peek_is_Some _ _ _ _ Hsh). by eexists. }
  assert (Forall (λ q, peek corridor_final q ≠ Some GOAL)
                 (elements (positions corridor))) as Hall.
  { apply (bool_decide_unpack _). vm_compute. exact I. }
  rewrite Forall_forall in Hall. by apply (Hall g Hg).
Qed.

(** C5: the code at the corridor under [first_choice].  With three passage
    cells the run ends with the grid [corridor_final], on which lines 79-85
    have run after the start was written: [place_connected_goal] has found
    no cell to take and returned [False], [find_furthest_cell] has
    returned the start itself, and no cell of the grid holds the goal. *)
Theorem corridor_goal_is_missing :
  final_maze (wilson_algorithm_generator corridor first_choice)
  = Some corridor_final
  ∧ (1 < length (all_cells corridor))%nat
  ∧ place_connected_goal corridor corridor_final = Done (corridor_final, false)
  ∧ find_furthest_cell corridor corridor_final (1, 1) = Done (1, 1)
  ∧ goal_placement corridor corridor_final = Done corridor_final
  ∧ ∀ g, peek corridor_final g ≠ Some GOAL.
Proof.
  split_and!.
  - apply corridor_run.
  - vm_compute. lia.
  - vm_compute. reflexivity.
  - vm_compute. reflexivity.
  - vm_compute. reflexivity.
  - intros g Hgoal.
    assert (shape 3 7 corridor_final) as Hsh.
    { split; [reflexivity|]. repeat constructor. }
    assert (g ∈ elements (positions corridor)) as Hg.
    { apply elem_of_elements, elem_of_positions.
      apply (peek_is_Some _ _ _ _ Hsh). by eexists. }
    assert (Forall (λ q, peek corridor_final q ≠ Some GOAL)
                   (elements (positions corridor))) as Hall.
    { apply (bool_decide_unpack _). vm_compute. exact I. }
    rewrite Forall_forall in Hall. by apply (Hall g Hg).
Qed.

(** ** C4: a goal that is placed *)

(** C4: goal placement (lines 79-85: the two scans of
    [place_connected_goal], then the furthest cell) raises nothing, and a
    cell on which it has set the goal can be reached from the start through
    cells that are not walls: the relation holds, and the traversal of
    [get_reachable_positions] finds the cell. *)
Theorem placed_goal_is_reachable (self : MazeGenerator) (maze : grid) :
  shape (height self) (width self) maze →
  ∃ maze',
    goal_placement self maze = Done maze'
    ∧ ∀ g, peek maze' g = Some GOAL → peek maze g ≠ Some GOAL →
           reachable maze' (1, 1) g
           ∧ ∃ vf, get_reachable_positions self maze' (1, 1) = Done vf
                   ∧ g ∈ vf.
Proof.
  intros Hsh.
  destruct (goal_placement_spec self maze Hsh) as (maze' & Hgoal & Hm).
  exists maze'. split; [done|]. intros g Hg Hnew.
  destruct Hm as [->|(g0 & -> & Hne & Hfree & Hreach)]; [done|].
  assert (nonneg g0) as [? ?].
  { apply (free_inside _ _ _ _ Hsh) in Hfree. unfold inside, nonneg in *. lia. }
  rewrite peek_poke in Hg by done. case_decide as Heq; [subst g0|done].
  assert (reachable (poke maze g GOAL) (1, 1) g) as Hreach'.
  { eapply reachable_mono; [|exact Hreach]. intros q. by apply free_poke. }
  split; [done|].
  destruct (get_reachable_positions_spec self (poke maze g GOAL)
              (shape_poke _ _ _ _ _ Hsh) (1, 1)) as (vf & Hvf & Hiff).
  exists vf. split; [done|]. by apply Hiff.
Qed.

Lemma placed_goal_is_reachable_witness :
  ∃ maze',
    goal_placement corridor open_corridor = Done maze'
    ∧ ∀ g, peek maze' g = Some GOAL → peek open_corridor g ≠ Some GOAL →
           reachable maze' (1, 1) g
           ∧ ∃ vf, get_reachable_positions corridor maze' (1, 1) = Done vf
                   ∧ g ∈ vf.
Proof.
  apply (placed_goal_is_reachable corridor open_corridor).
  split; [reflexivity|]. vm_compute. repeat constructor.
Defined.

(** On [open_corridor] the goal goes to the far end, the first candidate. *)
Example open_corridor_goal :
  goal_placement corridor open_corridor
  = Done [row "#######"; row "#A   B#"; row "#######"].
Proof. vm_compute. reflexivity. Qed.

(** ** C8: multiple paths *)

(** C8: [add_multiple_paths] raises nothing; a cell it changes was a wall
    and is open afterwards, and no other cell changes, so no open cell
    becomes a wall; hence what could be reached from a start cell still can,
    and the set [get_reachable_positions] returns afterwards includes the
    set it returns before, and is no smaller. *)
Theorem augmenter_only_opens (self : MazeGenerator) (rnd : nat → nat)
    (k : nat) (maze : grid) (start : cell) :
  shape (height self) (width self) maze →
  ∃ maze' k',
    add_multiple_paths self rnd k maze = Done (maze', k')
    ∧ (∀ p, peek maze' p = peek maze p
            ∨ (peek maze p = Some WALL ∧ peek maze' p = Some OPEN))
    ∧ (∀ x, reachable maze start x → reachable maze' start x)
    ∧ ∃ vf vf',
        get_reachable_positions self maze start = Done vf
        ∧ get_reachable_positions self maze' start = Done vf'
        ∧ vf ⊆ vf' ∧ (size vf ≤ size vf')%nat.
Proof.
  intros Hsh.
  destruct (add_multiple_paths_spec self rnd k maze Hsh)
    as (maze' & k' & walls & Hadd & -> & Hwalls).
  assert (Forall nonneg walls) as Hnn.
  { eapply Forall_impl; [exact Hwalls|]. intros w [Hw _].
    by apply (interior_nonneg self). }
  assert (∀ x, reachable maze start x → reachable (pokes maze walls) start x)
    as Hmono.
  { intros x. apply reachable_mono. intros q. by apply free_pokes. }
  exists (pokes maze walls), k'. split_and!; [done| |done|].
  - intros p. rewrite peek_pokes by done. case_decide as Hp; [|by left].
    rewrite Forall_forall in Hwalls. destruct (Hwalls p Hp) as [_ ->].
    by right.
  - destruct (get_reachable_positions_spec self maze Hsh start)
      as (vf & Hvf & Hiff).
    destruct (get_reachable_positions_spec self (pokes maze walls)
                (shape_pokes _ _ _ _ Hsh) start) as (vf' & Hvf' & Hiff').
    exists vf, vf'. split_and!; [done|done| |].
    + intros x Hx. by apply Hiff', Hmono, Hiff.
    + apply subseteq_size. intros x Hx. by apply Hiff', Hmono, Hiff.
Qed.

Lemma augmenter_only_opens_witness :
  ∃ maze' k',
    add_multiple_paths square counting 0 (cells_only square) = Done (maze', k')
    ∧ (∀ p, peek maze' p = peek (cells_only square) p
            ∨ (peek (cells_only square) p = Some WALL
               ∧ peek maze' p = Some OPEN))
    ∧ (∀ x, reachable (cells_only square) (1, 1) x → reachable maze' (1, 1) x)
    ∧ ∃ vf vf',
        get_reachable_positions square (cells_only square) (1, 1) = Done vf
        ∧ get_reachable_positions square maze' (1, 1) = Done vf'
        ∧ vf ⊆ vf' ∧ (size vf ≤ size vf')%nat.
Proof.
  apply (augmenter_only_opens square counting 0 (cells_only square) (1, 1)).
  split; [reflexivity|]. vm_compute. repeat constructor.
Defined.

(** On [cells_only square] twelve walls stand between open cells; one is
    opened, and the start reaches a second cell. *)
Example square_augmented :
  (λ o, match o with
        | Done (maze', _) =>
          Some (peek (cells_only square) (2, 1), peek maze' (2, 1))
        | _ => None
        end) (add_multiple_paths square counting 0 (cells_only square))
  = Some (Some WALL, Some OPEN).
Proof. vm_compute. reflexivity. Qed.

(** ** C7: the furthest cell *)

Lemma distance_one (maze : grid) (a b : cell) :
  step maze a b → a ≠ b → distance maze a b 1.
Proof.
  intros Hstep Hne. split; [by apply nsteps_once|].
  intros [|m] Hm; [|lia]. by inv Hm.
Qed.

Lemma fork_run :
  find_furthest_cell small_square fork (1, 1) = Done (1, 2)
  ∧ discovery small_square fork (1, 1) = [(1, 1); (1, 2); (2, 1)].
Proof. split; vm_compute; reflexivity. Qed.

Lemma fork_distances :
  distance fork (1, 1) (1, 2) 1 ∧ distance fork (1, 1) (2, 1) 1.
Proof.
  split; apply distance_one; try (by intros [= ?]).
  - split; [apply elem_of_around; simpl; lia|]. vm_compute. discriminate.
  - split; [apply elem_of_around; simpl; lia|]. vm_compute. discriminate.
Qed.

(** C7, counterexample: on [fork] the cells (1, 2) and (2, 1) are both one
    move from the start, the greatest distance there is; (1, 2) is
    discovered first and (2, 1) last, and the cell returned is (1, 2). *)
Lemma fork_first_discovered_wins :
  shape (height small_square) (width small_square) fork
  ∧ ¬ last_discovered_wins small_square fork (1, 1).
Proof.
  split.
  { split; [reflexivity|]. vm_compute. repeat constructor. }
  intros (fc & D & i & Hrun & Hdist & _ & Hi & Hlast).
  destruct fork_run as [Hfc Hdisc]. destruct fork_distances as [H12 H21].
  rewrite Hfc in Hrun. injection Hrun as <-.
  rewrite (distance_unique fork (1, 1) (1, 2) D 1 Hdist H12) in Hlast.
  rewrite Hdisc in Hi, Hlast.
  specialize (Hlast 2%nat (2, 1) eq_refl H21).
  destruct i as [|[|[|i]]]; simplify_eq/=. lia.
Qed.

(** C7, amended: [find_furthest_cell] ends, raises nothing, and returns a
    cell whose distance from the start, in moves through cells that are not
    walls, is the greatest there is; among the cells at that distance it
    returns the one the traversal discovers first: every cell discovered
    before it is nearer. *)
Theorem furthest_first_discovered (self : MazeGenerator) (maze : grid)
    (start : cell) :
  shape (height self) (width self) maze →
  ∃ fc D i,
    find_furthest_cell self maze start = Done fc
    ∧ distance maze start fc D
    ∧ (∀ x n, distance maze start x n → (n ≤ D)%nat)
    ∧ discovery self maze start !! i = Some fc
    ∧ ∀ j y n, (j < i)%nat → discovery self maze start !! j = Some y →
               distance maze start y n → (n < D)%nat.
Proof.
  intros Hsh.
  destruct (find_furthest_cell_run self maze Hsh start)
    as (fc & md & vf & Hrun & Hinv).
  set (done := discovered self (bfs_fuel self) maze {[start]} [(start, 0)])
    in *.
  destruct (furthest_final_best _ _ _ _ _ _ _ Hinv) as (i & Hi & Hlt & Hmax).
  pose proof (furthest_final_distance _ _ _ _ _ _ _ fc md Hinv
                (list_elem_of_lookup_2 _ _ _ Hi)) as [Hmd Hdist].
  exists fc, (Z.to_nat md), i. split_and!; [done|done| | |].
  - intros x n Hxn. pose proof Hxn as [Hpath _].
    destruct (furthest_final_near _ _ _ _ _ _ _ _ _ Hinv Hpath)
      as (d & Hd & Hd0 & _).
    pose proof (furthest_final_distance _ _ _ _ _ _ _ x d Hinv Hd) as [_ Hxd].
    rewrite (distance_unique maze start x n _ Hxn Hxd). apply Hmax in Hd. lia.
  - unfold discovery. fold done. by rewrite list_lookup_fmap, Hi.
  - intros j y n Hj Hy Hyn. unfold discovery in Hy. fold done in Hy.
    rewrite list_lookup_fmap in Hy.
    destruct (done !! j) as [[y' e]|] eqn:Hje; simplify_eq/=.
    pose proof (furthest_final_distance _ _ _ _ _ _ _ y e Hinv
                  (list_elem_of_lookup_2 _ _ _ Hje)) as [He Hye].
    rewrite (distance_unique maze start y n _ Hyn Hye).
    apply (Hlt j y e Hj) in Hje. lia.
Qed.

Lemma furthest_first_discovered_witness :
  ∃ fc D i,
    find_furthest_cell small_square fork (1, 1) = Done fc
    ∧ distance fork (1, 1) fc D
    ∧ (∀ x n, distance fork (1, 1) x n → (n ≤ D)%nat)
    ∧ discovery small_square fork (1, 1) !! i = Some fc
    ∧ ∀ j y n, (j < i)%nat → discovery small_square fork (1, 1) !! j = Some y →
               distance fork (1, 1) y n → (n < D)%nat.
Proof.
  apply (furthest_first_discovered small_square fork (1, 1)).
  split; [reflexivity|]. vm_compute. repeat constructor.
Defined.

(** * Further properties of the code *)

(** ** Reachable sets *)

Lemma around_sym (a b : cell) : b ∈ around a → a ∈ around b.
Proof. rewrite !elem_of_around. lia. Qed.

(** From a cell that is not a wall the moves can be walked back. *)
Lemma reachable_sym (maze : grid) (a b : cell) :
  free maze a → reachable maze a b → reachable maze b a.
Proof.
  intros Ha Hab. induction Hab as [|a x b [Hx Hfx] Hxb IH]; [apply rtc_refl|].
  eapply rtc_r; [by apply IH|]. split; [by apply around_sym|done].
Qed.

Lemma reachable_trans (maze : grid) (a b c : cell) :
  reachable maze a b → reachable maze b c → reachable maze a c.
Proof. unfold reachable. intros Hab Hbc. by etrans. Qed.

(** X1: on a grid of the generator's size [get_reachable_positions] ends
    and raises nothing, whatever the start cell, which may be a wall or lie
    off the grid.  The set it returns holds the start cell, and besides it
    the cells that a chain of moves through cells that are not walls leads
    to: each of those is a cell of the grid and not a wall, a move from a
    cell of the set to a cell that is not a wall stays in the set, and the
    set has at most one cell more than the grid. *)
Theorem reachable_positions_exact (self : MazeGenerator) (maze : grid)
    (start : cell) :
  shape (height self) (width self) maze →
  ∃ vf, get_reachable_positions self maze start = Done vf
        ∧ start ∈ vf
        ∧ (∀ x, x ∈ vf ↔ reachable maze start x)
        ∧ (∀ x, x ∈ vf → x ≠ start →
                inside (height self) (width self) x ∧ free maze x)
        ∧ (∀ x y, x ∈ vf → y ∈ around x → free maze y → y ∈ vf)
        ∧ (size vf ≤ S (Z.to_nat (height self) * Z.to_nat (width self)))%nat.
Proof.
  intros Hsh.
  destruct (get_reachable_positions_spec self maze Hsh start)
    as (vf & Hrun & Hiff).
  assert (∀ x, x ∈ vf → x ≠ start →
               inside (height self) (width self) x ∧ free maze x) as Hin.
  { intros x Hx%Hiff Hne.
    destruct (reachable_free _ _ _ Hx) as [?|Hfree]; [done|].
    split; [by eapply free_inside|done]. }
  exists vf. split_and!; [done| |done|done| |].
  - apply Hiff, rtc_refl.
  - intros x y Hx%Hiff Hy Hfree. apply Hiff. eapply rtc_r; [exact Hx|done].
  - etrans; [|apply (size_candidates self start)].
    apply subseteq_size. intros x Hx.
    destruct (decide (x = start)) as [->|Hne];
      [by apply elem_of_union_l, elem_of_singleton|].
    apply elem_of_union_r, elem_of_positions. by apply Hin.
Qed.

Lemma reachable_positions_exact_witness :
  ∃ vf, get_reachable_positions small_square fork (1, 1) = Done vf
        ∧ (1, 1) ∈ vf
        ∧ (∀ x, x ∈ vf ↔ reachable fork (1, 1) x)
        ∧ (∀ x, x ∈ vf → x ≠ (1, 1) →
                inside (height small_square) (width small_square) x
                ∧ free fork x)
        ∧ (∀ x y, x ∈ vf → y ∈ around x → free fork y → y ∈ vf)
        ∧ (size vf ≤ S (Z.to_nat (height small_square)
                        * Z.to_nat (width small_square)))%nat.
Proof.
  apply (reachable_positions_exact small_square fork (1, 1)).
  split; [reflexivity|]. vm_compute. repeat constructor.
Defined.

(** X2: the sets [get_reachable_positions] returns from two cells that are
    not walls are the same set or have no cell in common; they are the same
    as soon as one start lies in the set of the other. *)
Theorem reachable_positions_component (self : MazeGenerator) (maze : grid)
    (a b : cell) :
  shape (height self) (width self) maze →
  free maze a → free maze b →
  ∃ va vb,
    get_reachable_positions self maze a = Done va
    ∧ get_reachable_positions self maze b = Done vb
    ∧ (b ∈ va → va = vb)
    ∧ (b ∉ va → va ## vb).
Proof.
  intros Hsh Ha Hb.
  destruct (get_reachable_positions_spec self maze Hsh a) as (va & Hra & Hia).
  destruct (get_reachable_positions_spec self maze Hsh b) as (vb & Hrb & Hib).
  exists va, vb. split_and!; [done|done| |].
  - intros Hab%Hia. apply set_eq. intros x. rewrite Hia, Hib. split.
    + intros Hx. apply (reachable_trans maze b a x); [|done].
      by apply reachable_sym.
    + intros Hx. by eapply reachable_trans.
  - intros Hnin x Hxa%Hia Hxb%Hib. apply Hnin, Hia.
    apply (reachable_trans maze a x b); [done|]. by apply reachable_sym.
Qed.

Lemma reachable_positions_component_witness :
  ∃ va vb,
    get_reachable_positions small_square fork (1, 2) = Done va
    ∧ get_reachable_positions small_square fork (2, 1) = Done vb
    ∧ ((2, 1) ∈ va → va = vb)
    ∧ ((2, 1) ∉ va → va ## vb).
Proof.
  apply (reachable_positions_component small_square fork (1, 2) (2, 1)).
  - split; [reflexivity|]. vm_compute. repeat constructor.
  - vm_compute. discriminate.
  - vm_compute. discriminate.
Defined.

(** ** The order of discovery *)

(** What the entries taken from the queue are when [find_furthest_cell]
    ends: the cells reachable from the start, each once, the start first,
    each with its distance. *)
Lemma discovered_entries (self : MazeGenerator) (maze : grid) (start : cell) :
  shape (height self) (width self) maze →
  ∃ fc md vf done,
    find_furthest_cell self maze start = Done fc
    ∧ furthest_inv self maze start done vf [] fc md
    ∧ discovery self maze start = done.*1
    ∧ head done = Some (start, 0)
    ∧ NoDup done.*1
    ∧ (∀ x, x ∈ done.*1 ↔ reachable maze start x)
    ∧ ∀ x d, (x, d) ∈ done → 0 ≤ d ∧ distance maze start x (Z.to_nat d).
Proof.
  intros Hsh.
  destruct (find_furthest_cell_run self maze Hsh start)
    as (fc & md & vf & Hrun & Hinv).
  set (done := discovered self (bfs_fuel self) maze {[start]} [(start, 0)])
    in *.
  exists fc, md, vf, done.
  pose proof (fi_first _ _ _ _ _ _ _ _ Hinv) as Hhead.
  pose proof (fi_NoDup _ _ _ _ _ _ _ _ Hinv) as Hnd.
  pose proof (fi_label _ _ _ _ _ _ _ _ Hinv) as Hlabel.
  rewrite app_nil_r in Hhead, Hnd, Hlabel.
  split_and!; [done..| |].
  - intros x. split.
    + intros ([x' d] & -> & Hxd)%list_elem_of_fmap. simpl.
      apply Hlabel in Hxd as [_ Hpath]. by eapply rtc_nsteps_2.
    + intros [n Hn]%rtc_nsteps_1.
      destruct (furthest_final_near _ _ _ _ _ _ _ _ _ Hinv Hn)
        as (d & Hd & _).
      apply list_elem_of_fmap. by exists (x, d).
  - intros x d Hxd. by eapply furthest_final_distance.
Qed.

(** X3: [find_furthest_cell] takes the cells from its queue in the order of
    their distance from the start: the start first, then each cell that can
    be reached, once, a nearer cell never after a farther one; and they are
    the cells of the set [get_reachable_positions] returns. *)
Theorem discovery_by_distance (self : MazeGenerator) (maze : grid)
    (start : cell) :
  shape (height self) (width self) maze →
  head (discovery self maze start) = Some start
  ∧ NoDup (discovery self maze start)
  ∧ (∀ x, x ∈ discovery self maze start ↔ reachable maze start x)
  ∧ get_reachable_positions self maze start
    = Done (list_to_set (discovery self maze start))
  ∧ ∀ i j x y n m,
      (i ≤ j)%nat →
      discovery self maze start !! i = Some x →
      discovery self maze start !! j = Some y →
      distance maze start x n → distance maze start y m → (n ≤ m)%nat.
Proof.
  intros Hsh.
  destruct (discovered_entries self maze start Hsh)
    as (fc & md & vf & done & _ & Hinv & -> & Hhead & Hnd & Hiff & Hdist).
  split_and!; [|done|done| |].
  - destruct done as [|[x d] done]; by simplify_eq/=.
  - destruct (get_reachable_positions_spec self maze Hsh start)
      as (vr & -> & Hvr).
    f_equal. apply set_eq. intros x.
    by rewrite Hvr, elem_of_list_to_set, Hiff.
  - intros i j x y n m Hij Hi Hj Hxn Hym.
    rewrite list_lookup_fmap in Hi, Hj.
    destruct (done !! i) as [[x' d]|] eqn:Hdi; simplify_eq/=.
    destruct (done !! j) as [[y' e]|] eqn:Hdj; simplify_eq/=.
    pose proof (fi_sorted _ _ _ _ _ _ _ _ Hinv i j x d y e Hij) as Hde.
    rewrite app_nil_r in Hde. specialize (Hde Hdi Hdj).
    destruct (Hdist x d) as [Hd Hxd]; [by eapply list_elem_of_lookup_2|].
    destruct (Hdist y e) as [He Hye]; [by eapply list_elem_of_lookup_2|].
    rewrite (distance_unique maze start x n _ Hxn Hxd).
    rewrite (distance_unique maze start y m _ Hym Hye). lia.
Qed.

Lemma discovery_by_distance_witness :
  head (discovery small_square fork (1, 1)) = Some (1, 1)
  ∧ NoDup (discovery small_square fork (1, 1))
  ∧ (∀ x, x ∈ discovery small_square fork (1, 1) ↔ reachable fork (1, 1) x)
  ∧ get_reachable_positions small_square fork (1, 1)
    = Done (list_to_set (discovery small_square fork (1, 1)))
  ∧ ∀ i j x y n m,
      (i ≤ j)%nat →
      discovery small_square fork (1, 1) !! i = Some x →
      discovery small_square fork (1, 1) !! j = Some y →
      distance fork (1, 1) x n → distance fork (1, 1) y m → (n ≤ m)%nat.
Proof.
  apply (discovery_by_distance small_square fork (1, 1)).
  split; [reflexivity|]. vm_compute. repeat constructor.
Defined.

(** X4: the cell [find_furthest_cell] returns is one of the cells
    [get_reachable_positions] returns, and it is the start cell exactly
    when no other cell can be reached from the start. *)
Theorem furthest_is_start_iff_alone (self : MazeGenerator) (maze : grid)
    (start : cell) :
  shape (height self) (width self) maze →
  ∃ fc vf,
    find_furthest_cell self maze start = Done fc
    ∧ get_reachable_positions self maze start = Done vf
    ∧ fc ∈ vf
    ∧ (fc = start ↔ vf = {[start]}).
Proof.
  intros Hsh.
  destruct (discovered_entries self maze start Hsh)
    as (fc & md & vf & done & Hrun & Hinv & _ & Hhead & Hnd & Hiff & Hdist).
  destruct (furthest_final_best _ _ _ _ _ _ _ Hinv) as (i & Hi & _ & Hmax).
  apply list_elem_of_lookup_2 in Hi.
  destruct (get_reachable_positions_spec self maze Hsh start)
    as (vr & Hvr & Hreach).
  assert (fc ∈ vr) as Hfc.
  { apply Hreach, Hiff, list_elem_of_fmap. by exists (fc, md). }
  exists fc, vr. split_and!; [done..|]. split.
  - intros ->. apply set_eq. intros x. rewrite elem_of_singleton, Hreach.
    split; [|intros ->; apply rtc_refl].
    intros ([x' d] & -> & Hxd)%Hiff%list_elem_of_fmap. simpl.
    assert (md = 0) as ->.
    { apply (label_unique done start); [done..|].
      by apply head_Some_elem_of. }
    pose proof (Hmax _ _ Hxd) as Hle.
    destruct (Hdist _ _ Hxd) as [Hd [Hpath _]].
    replace d with 0 in Hpath by lia. by inv Hpath.
  - intros Heq. rewrite Heq in Hfc. by apply elem_of_singleton in Hfc.
Qed.

Lemma furthest_is_start_iff_alone_witness :
  ∃ fc vf,
    find_furthest_cell small_square fork (1, 1) = Done fc
    ∧ get_reachable_positions small_square fork (1, 1) = Done vf
    ∧ fc ∈ vf
    ∧ (fc = (1, 1) ↔ vf = {[(1, 1)]}).
Proof.
  apply (furthest_is_start_iff_alone small_square fork (1, 1)).
  split; [reflexivity|]. vm_compute. repeat constructor.
Defined.

(** ** The scans of the goal placement *)

Lemma StronglySorted_lookup_lt {A} (R : relation A) (l : list A)
    (i j : nat) (x y : A) :
  StronglySorted R l → (i < j)%nat → l !! i = Some x → l !! j = Some y →
  R x y.
Proof.
  intros Hl. revert i j. induction Hl as [|a l Hl IH Ha]; intros i j Hij Hi Hj.
  { by rewrite lookup_nil in Hi. }
  destruct j as [|j]; [lia|]. destruct i as [|i]; simplify_eq/=.
  - rewrite Forall_forall in Ha. by eapply Ha, list_elem_of_lookup_2.
  - apply (IH i j); [lia|done..].
Qed.

Lemma range_down_sorted (start stop step : Z) :
  step < 0 → StronglySorted (λ x y, y < x) (range start stop step).
Proof.
  intros Hstep. unfold range.
  destruct (0 <? step) eqn:Hpos; [apply Z.ltb_lt in Hpos; lia|].
  generalize (Z.to_nat ((start - stop - step - 1) `div` (- step))).
  generalize 0%nat. intros a n. revert a.
  induction n as [|n IH]; intros a; simpl; constructor; [apply IH|].
  apply Forall_forall. intros x (i & -> & Hi)%list_elem_of_fmap.
  apply elem_of_seq in Hi. nia.
Qed.

Lemma product_sorted (rows cols : list Z) :
  StronglySorted (λ x y, y < x) rows → StronglySorted (λ x y, y < x) cols →
  StronglySorted scanned_before (r ← rows; c ← cols; [(r, c)]).
Proof.
  intros Hrows Hcols. induction Hrows as [|r rows Hrows IH Hr]; simpl.
  { constructor. }
  apply StronglySorted_app_2.
  - intros [r1 c1] [r2 c2] H1 H2. left. simpl.
    assert (r1 = r) as ->.
    { clear -H1. induction cols as [|c cols IHc]; simpl in H1.
      - by apply elem_of_nil in H1.
      - apply elem_of_cons in H1 as [[= ? ?]|H1]; [done|by apply IHc]. }
    apply (elem_of_product rows cols (r2, c2)) in H2 as [H2 _].
    rewrite Forall_forall in Hr. by apply Hr.
  - clear -Hcols. induction Hcols as [|c cols Hcols IHc Hc]; simpl.
    { constructor. }
    constructor; [done|]. apply Forall_forall. intros [r2 c2] H2.
    right. simpl.
    assert (r2 = r ∧ c2 ∈ cols) as [-> H2c].
    { clear -H2. induction cols as [|c' cols IHc']; simpl in H2.
      - by apply elem_of_nil in H2.
      - apply elem_of_cons in H2 as [[= ? ?]|H2].
        + split; [done|]. subst. left.
        + destruct (IHc' H2) as [? ?]. split; [done|by right]. }
    split; [done|]. rewrite Forall_forall in Hc. by apply Hc.
  - done.
Qed.

Lemma candidates_sorted (self : MazeGenerator) (step : Z) :
  step < 0 → StronglySorted scanned_before (candidates self step).
Proof. intros Hstep. apply product_sorted; by apply range_down_sorted. Qed.

Lemma first_reachable_first (vf : gset cell) (start_pos : cell)
    (cands : list cell) (g : cell) :
  StronglySorted scanned_before cands →
  first_reachable vf start_pos cands = Some g →
  ∀ q, q ∈ cands → q ∈ vf → q ≠ start_pos → q = g ∨ scanned_before g q.
Proof.
  intros Hsorted. unfold first_reachable.
  destruct (list_find _ cands) as [[i g']|] eqn:Hfind; [|done].
  intros [= <-]. apply list_find_Some in Hfind as (Hi & _ & Hleast).
  intros q [j Hj]%list_elem_of_lookup_1 Hq Hne.
  destruct (decide (j < i)%nat) as [Hlt|Hge].
  { by destruct (Hleast j q Hj Hlt). }
  destruct (decide (j = i)) as [->|Hne']; [left; congruence|].
  right. apply (StronglySorted_lookup_lt _ cands i j); [done|lia|done..].
Qed.

Lemma elem_of_candidates_passage (self : MazeGenerator) (p : cell) :
  valid self → p ∈ candidates self (-2) ↔ passage self p.
Proof.
  intros [[Hh Hho] [Hw Hwo]]. unfold candidates, passage.
  rewrite elem_of_product, !elem_of_range_down by lia.
  change (- -2) with 2. Z.div_mod_to_equations. lia.
Qed.

Lemma elem_of_candidates_interior (self : MazeGenerator) (p : cell) :
  p ∈ candidates self (-1) ↔ interior self p.
Proof.
  split; [by apply candidates_interior|apply interior_candidate].
Qed.

(** X5: on a grid of a valid size where a passage cell other than the start
    can be reached from the start, [place_connected_goal] returns [True]
    and writes the goal on one cell, the grid being otherwise as it was:
    of the passage cells that can be reached it is the one in the lowest
    row and, in that row, the one furthest to the right. *)
Theorem goal_prefers_bottom_right (self : MazeGenerator) (maze : grid)
    (p : cell) :
  valid self → shape (height self) (width self) maze →
  passage self p → goal_target maze p →
  ∃ g, place_connected_goal self maze = Done (poke maze g GOAL, true)
       ∧ first_scanned (λ q, passage self q ∧ goal_target maze q) g.
Proof.
  intros Hvalid Hsh Hp [Hne Hreach]. unfold place_connected_goal.
  destruct (get_reachable_positions_spec self maze Hsh (1, 1))
    as (vf & -> & Hvf).
  rewrite Done_bind.
  destruct (first_reachable vf (1, 1) (candidates self (-2)))
    as [[r c]|] eqn:Hfirst.
  - pose proof Hfirst as (Hcand & Hin & Hg)%first_reachable_Some.
    assert (interior self (r, c)) as Hint.
    { by apply (candidates_interior self (-2)). }
    rewrite (maze_set_interior self maze (r, c)), Done_bind by done.
    exists (r, c). split; [done|]. split.
    + split; [by apply elem_of_candidates_passage|]. split; [done|].
      by apply Hvf.
    + intros q (Hq & Hqne & Hqr).
      eapply first_reachable_first; [|exact Hfirst| | |done].
      * apply candidates_sorted. lia.
      * by apply elem_of_candidates_passage.
      * by apply Hvf.
  - destruct Hne.
    eapply first_reachable_None; [exact Hfirst| |by apply Hvf].
    by apply elem_of_candidates_passage.
Qed.

Lemma goal_prefers_bottom_right_witness :
  ∃ g, place_connected_goal corridor open_corridor
       = Done (poke open_corridor g GOAL, true)
       ∧ first_scanned (λ q, passage corridor q ∧ goal_target open_corridor q)
                       g.
Proof.
  apply (goal_prefers_bottom_right corridor open_corridor (1, 3)).
  - unfold valid, corridor. simpl. split_and!; (lia || reflexivity).
  - split; [reflexivity|]. vm_compute. repeat constructor.
  - unfold passage, corridor. simpl. split_and!; (lia || reflexivity).
  - split; [by intros [= ?]|].
    apply (rtc_l _ _ (1, 2)); [|apply rtc_once].
    + split; [apply elem_of_around; simpl; lia|]. vm_compute. discriminate.
    + split; [apply elem_of_around; simpl; lia|]. vm_compute. discriminate.
Defined.

(** X6: where no passage cell other than the start can be reached,
    [place_connected_goal] on a grid of a valid size takes the reachable
    cell strictly inside the border that is lowest and, in its row,
    furthest to the right; and where no cell strictly inside the border can
    be reached but the start, it returns [False] and the grid as it was. *)
Theorem goal_second_scan (self : MazeGenerator) (maze : grid) :
  valid self → shape (height self) (width self) maze →
  (∀ q, passage self q → ¬ goal_target maze q) →
  ∃ maze' placed,
    place_connected_goal self maze = Done (maze', placed)
    ∧ (placed = false ↔ ∀ q, interior self q → ¬ goal_target maze q)
    ∧ (placed = false → maze' = maze)
    ∧ (placed = true →
       ∃ g, maze' = poke maze g GOAL
            ∧ first_scanned (λ q, interior self q ∧ goal_target maze q) g).
Proof.
  intros Hvalid Hsh Hnone. unfold place_connected_goal.
  destruct (get_reachable_positions_spec self maze Hsh (1, 1))
    as (vf & -> & Hvf).
  rewrite Done_bind.
  destruct (first_reachable vf (1, 1) (candidates self (-2)))
    as [[r c]|] eqn:H1.
  { apply first_reachable_Some in H1 as (Hcand & Hin & Hg).
    destruct (Hnone (r, c)); [by apply elem_of_candidates_passage|].
    split; [done|]. by apply Hvf. }
  destruct (first_reachable vf (1, 1) (candidates self (-1)))
    as [[r c]|] eqn:H2.
  - pose proof H2 as (Hcand & Hin & Hg)%first_reachable_Some.
    apply elem_of_candidates_interior in Hcand.
    rewrite (maze_set_interior self maze (r, c)), Done_bind by done.
    eexists _, true. split; [done|]. split_and!; [|done|].
    + split; [done|]. intros Hall. destruct (Hall (r, c) Hcand).
      split; [done|]. by apply Hvf.
    + intros _. exists (r, c). split; [done|]. split.
      * split; [done|]. split; [done|]. by apply Hvf.
      * intros q (Hq & Hqne & Hqr).
        eapply first_reachable_first; [|exact H2| | |done].
        -- apply candidates_sorted. lia.
        -- by apply elem_of_candidates_interior.
        -- by apply Hvf.
  - eexists _, false. split; [done|]. split_and!; [|done|done].
    split; [|done]. intros _ q Hq [Hne Hreach]. destruct Hne.
    eapply first_reachable_None; [exact H2| |by apply Hvf].
    by apply elem_of_candidates_interior.
Qed.

Lemma goal_second_scan_witness :
  ∃ maze' placed,
    place_connected_goal corridor stub = Done (maze', placed)
    ∧ (placed = false ↔ ∀ q, interior corridor q → ¬ goal_target stub q)
    ∧ (placed = false → maze' = stub)
    ∧ (placed = true →
       ∃ g, maze' = poke stub g GOAL
            ∧ first_scanned (λ q, interior corridor q ∧ goal_target stub q) g).
Proof.
  assert (shape (height corridor) (width corridor) stub) as Hsh.
  { split; [reflexivity|]. vm_compute. repeat constructor. }
  apply (goal_second_scan corridor stub).
  - unfold valid, corridor. simpl. split_and!; (lia || reflexivity).
  - exact Hsh.
  - intros q Hq%elem_of_all_cells [Hne Hreach].
    destruct (get_reachable_positions_spec corridor stub Hsh (1, 1))
      as (vf & Hrun & Hvf).
    assert (get_reachable_positions corridor stub (1, 1)
            = Done (list_to_set [(1, 1); (1, 2)])) as Hrun'
      by (vm_compute; reflexivity).
    rewrite Hrun' in Hrun. injection Hrun as <-.
    apply Hvf in Hreach.
    assert (all_cells corridor = [(1, 1); (1, 3); (1, 5)]) as Hcells
      by (vm_compute; reflexivity).
    rewrite Hcells, !elem_of_cons, elem_of_nil in Hq.
    rewrite !elem_of_union, !elem_of_singleton, elem_of_empty in Hreach.
    destruct Hq as [->|[->|[->|[]]]]; destruct Hreach as [?|[?|[]]]; done.
Defined.

(** ** The walls the augmenter opens *)

Section sample_facts.
Context {A : Type}.
Variable rnd : nat → nat.

Lemma NoDup_delete_lookup (l : list A) (i : nat) (x : A) :
  NoDup l → l !! i = Some x → (x ∉ delete i l) ∧ NoDup (delete i l).
Proof.
  intros Hnd Hi. rewrite delete_take_drop.
  rewrite <-(take_drop_middle l i x Hi) in Hnd.
  apply NoDup_app in Hnd as (Hnd1 & Hdisj & [Hx Hnd2]%NoDup_cons).
  split.
  - intros [H1|H2]%elem_of_app; [|done]. apply (Hdisj x H1). left.
  - apply NoDup_app. split_and!; [done| |done].
    intros y Hy1 Hy2. apply (Hdisj y Hy1). by right.
Qed.

Lemma sample_length (k : nat) (population : list A) (n : nat) :
  (n ≤ length population)%nat →
  length (sample rnd k population n).1 = n
  ∧ (sample rnd k population n).2 = (k + n)%nat.
Proof.
  revert k population. induction n as [|n IH]; intros k population Hn; simpl.
  { split; [done|lia]. }
  assert (rnd k `mod` length population < length population)%nat as Hlt.
  { apply Nat.mod_upper_bound. lia. }
  destruct (lookup_lt_is_Some_2 _ _ Hlt) as [x Hx]. rewrite Hx.
  destruct (IH (S k) (delete (rnd k `mod` length population)%nat population))
    as [Hlen Hk].
  { rewrite length_delete by (by eexists). lia. }
  destruct (sample _ _ _ _) as [xs k']. simpl in *. split; [by f_equal|lia].
Qed.

Lemma sample_NoDup (k : nat) (population : list A) (n : nat) :
  NoDup population → NoDup (sample rnd k population n).1.
Proof.
  revert k population. induction n as [|n IH]; intros k population Hnd; simpl.
  { constructor. }
  destruct (population !! _) as [x|] eqn:Hx; [|constructor].
  destruct (NoDup_delete_lookup _ _ _ Hnd Hx) as [Hnin Hnd'].
  pose proof (sample_subseteq rnd (S k)
                (delete (rnd k `mod` length population)%nat population) n x)
    as Hsub.
  specialize (IH (S k) _ Hnd').
  destruct (sample _ _ _ _) as [xs k']. simpl in *.
  constructor; [|done]. intros Hin. by apply Hnin, Hsub.
Qed.

End sample_facts.

Section openable_facts.
Variable self : MazeGenerator.
Variable maze : grid.
Hypothesis Hshape : shape (height self) (width self) maze.

(** The walls the two scans of [add_multiple_paths] collect. *)
Lemma walls_collected :
  ∃ walls,
    (horizontal ← collect maze (λ w, ((w.1 - 1, w.2), (w.1 + 1, w.2)))
       (r ← range 2 (height self - 1) 2; c ← range 1 (width self - 1) 2;
        [(r, c)]) [];
     collect maze (λ w, ((w.1, w.2 - 1), (w.1, w.2 + 1)))
       (r ← range 1 (height self - 1) 2; c ← range 2 (width self - 1) 2;
        [(r, c)]) horizontal) = Done walls
    ∧ NoDup walls
    ∧ ∀ w, w ∈ walls ↔ w ∈ openable self maze.
Proof.
  rewrite (collect_spec self), Done_bind; [|done|].
  2:{ apply Forall_forall. intros [r c] [Hr Hc]%elem_of_product. simpl in *.
      apply elem_of_range_up in Hr as [Hr _]; [|lia].
      apply elem_of_range_up in Hc as [Hc _]; [|lia].
      unfold inside. simpl. lia. }
  rewrite (collect_spec self); [|done|].
  2:{ apply Forall_forall. intros [r c] [Hr Hc]%elem_of_product. simpl in *.
      apply elem_of_range_up in Hr as [Hr _]; [|lia].
      apply elem_of_range_up in Hc as [Hc _]; [|lia].
      unfold inside. simpl. lia. }
  rewrite app_nil_l. eexists. split; [reflexivity|].
  assert (∀ w, w ∈ filter (removable_wall maze
                             (λ w, ((w.1 - 1, w.2), (w.1 + 1, w.2))))
                      (r ← range 2 (height self - 1) 2;
                       c ← range 1 (width self - 1) 2; [(r, c)])
               ↔ interior self w ∧ w.1 `mod` 2 = 0 ∧ w.2 `mod` 2 = 1
                 ∧ between_rows maze w) as Hrows.
  { intros [r c]. rewrite list_elem_of_filter, elem_of_product.
    rewrite !elem_of_range_up by lia.
    unfold removable_wall, between_rows, interior. simpl.
    Z.div_mod_to_equations. intuition lia. }
  assert (∀ w, w ∈ filter (removable_wall maze
                             (λ w, ((w.1, w.2 - 1), (w.1, w.2 + 1))))
                      (r ← range 1 (height self - 1) 2;
                       c ← range 2 (width self - 1) 2; [(r, c)])
               ↔ interior self w ∧ w.1 `mod` 2 = 1 ∧ w.2 `mod` 2 = 0
                 ∧ between_cols maze w) as Hcols.
  { intros [r c]. rewrite list_elem_of_filter, elem_of_product.
    rewrite !elem_of_range_up by lia.
    unfold removable_wall, between_cols, interior. simpl.
    Z.div_mod_to_equations. intuition lia. }
  split.
  - apply NoDup_app. split_and!.
    + apply NoDup_filter, NoDup_product; by apply NoDup_range.
    + intros w (_ & H1 & _)%Hrows (_ & H2 & _)%Hcols. lia.
    + apply NoDup_filter, NoDup_product; by apply NoDup_range.
  - intros w. rewrite elem_of_app, Hrows, Hcols. unfold openable.
    rewrite elem_of_filter, elem_of_positions. split.
    + intros [(Hint & ?)|(Hint & ?)];
        (split; [tauto|by apply interior_inside]).
    + intros [[Hint [?|?]] _]; tauto.
Qed.

End openable_facts.

(** What [add_multiple_paths] does: it opens a number of the walls of
    [openable], no wall twice. *)
Lemma add_multiple_paths_chosen (self : MazeGenerator) (rnd : nat → nat)
    (k : nat) (maze : grid) :
  shape (height self) (width self) maze →
  ∃ chosen k',
    add_multiple_paths self rnd k maze = Done (pokes maze chosen, k')
    ∧ NoDup chosen
    ∧ (∀ w, w ∈ chosen → w ∈ openable self maze)
    ∧ length chosen = (size (openable self maze) `div` 8)%nat
    ∧ k' = (k + length chosen)%nat.
Proof.
  intros Hsh. unfold add_multiple_paths.
  destruct (walls_collected self maze Hsh) as (walls & Hcollect & Hnd & Hiff).
  assert (size (openable self maze) = length walls) as Hsize.
  { rewrite <-(size_list_to_set (C := gset cell) walls) by done.
    f_equal. apply set_eq. intros w. by rewrite elem_of_list_to_set, Hiff. }
  rewrite Hsize.
  apply bind_Done in Hcollect as (horizontal & Hh & Hv).
  rewrite Hh, Done_bind, Hv, Done_bind.
  assert (length walls `div` 8 ≤ length walls)%nat as Hle.
  { apply Nat.Div0.div_le_upper_bound. lia. }
  set (n := (length walls `div` 8)%nat) in *.
  case_bool_decide as Hnum.
  - pose proof (sample_length rnd k walls n Hle) as [Hlen Hk].
    pose proof (sample_NoDup rnd k walls n Hnd) as Hnd'.
    pose proof (sample_subseteq rnd k walls n) as Hsub.
    destruct (sample _ _ _ _) as [chosen k']. simpl in *.
    assert (Forall (interior self) chosen) as Hint.
    { apply Forall_forall. intros w Hw%Hsub%Hiff.
      unfold openable in Hw. apply elem_of_filter in Hw. tauto. }
    rewrite (clear_all_spec self maze chosen Hsh Hint), Done_bind.
    exists chosen, k'. split_and!; [done|done| |done|lia].
    intros w Hw. by apply Hiff, Hsub.
  - exists [], k. simpl. split_and!; [done|apply NoDup_nil_2| |lia|lia].
    intros w Hw. by apply elem_of_nil in Hw.
Qed.

(** X11: [add_multiple_paths] opens one in eight, rounded down, of the
    walls that stand strictly inside the border between two open cells of
    one row or one column; the walls it opens are different walls, each
    becomes an open cell and no other cell changes.  With fewer than
    eight such walls the grid stays as it is and no random number is
    drawn. *)
Theorem augmenter_opens_an_eighth (self : MazeGenerator) (rnd : nat → nat)
    (k : nat) (maze : grid) :
  shape (height self) (width self) maze →
  ∃ maze' k' chosen,
    add_multiple_paths self rnd k maze = Done (maze', k')
    ∧ NoDup chosen
    ∧ length chosen = (size (openable self maze) `div` 8)%nat
    ∧ (∀ w, w ∈ chosen → w ∈ openable self maze)
    ∧ (∀ q, peek maze' q
            = if decide (q ∈ chosen) then Some OPEN else peek maze q)
    ∧ ((size (openable self maze) < 8)%nat → maze' = maze ∧ k' = k).
Proof.
  intros Hsh.
  destruct (add_multiple_paths_chosen self rnd k maze Hsh)
    as (chosen & k' & Hrun & Hnd & Hsub & Hlen & Hk).
  exists (pokes maze chosen), k', chosen. split_and!; [done..| |].
  - intros q. rewrite peek_pokes.
    + case_decide as Hq; [|done]. apply Hsub in Hq.
      unfold openable in Hq. apply elem_of_filter in Hq as [[_ Hq] _].
      by destruct Hq as [(_ & _ & _ & _ & ->)|(_ & _ & _ & _ & ->)].
    + apply Forall_forall. intros w Hw%Hsub. unfold openable in Hw.
      apply elem_of_filter in Hw as [[Hint _] _].
      by apply (interior_nonneg self).
  - intros Hfew.
    assert (length chosen = 0)%nat as Hnil.
    { rewrite Hlen. by apply Nat.div_small. }
    destruct chosen; [|done]. split; [done|]. simpl in Hk. lia.
Qed.

Lemma augmenter_opens_an_eighth_witness :
  ∃ maze' k' chosen,
    add_multiple_paths square counting 0 (cells_only square) = Done (maze', k')
    ∧ NoDup chosen
    ∧ length chosen = (size (openable square (cells_only square)) `div` 8)%nat
    ∧ (∀ w, w ∈ chosen → w ∈ openable square (cells_only square))
    ∧ (∀ q, peek maze' q
            = if decide (q ∈ chosen) then Some OPEN
              else peek (cells_only square) q)
    ∧ ((size (openable square (cells_only square)) < 8)%nat →
       maze' = cells_only square ∧ k' = 0%nat).
Proof.
  apply (augmenter_opens_an_eighth square counting 0 (cells_only square)).
  split; [reflexivity|]. vm_compute. repeat constructor.
Defined.

(** ** The layout of the grid *)

Lemma door_mono (maze maze' : grid) (q : cell) :
  (∀ x, free maze x → free maze' x) → door maze q → door maze' q.
Proof. intros Hm [(? & ? & ? & ?)|(? & ? & ? & ?)]; [left|right]; auto. Qed.

Lemma midpoint_door (maze : grid) (a b : cell) :
  odd2 a → coarse_adjacent a b → free maze a → free maze b →
  door maze (midpoint a b).
Proof.
  destruct a as [a1 a2], b as [b1 b2]. unfold odd2, coarse_adjacent, midpoint.
  simpl. intros [Ha1 Ha2] Hab Ha Hb.
  destruct Hab as [[-> [-> | ->]]|[-> [-> | ->]]]; unfold door; simpl.
  - right.
    replace ((a1 + a1) `div` 2) with a1 by (Z.div_mod_to_equations; lia).
    replace ((a2 + (a2 + 2)) `div` 2) with (a2 + 1)
      by (Z.div_mod_to_equations; lia).
    replace (a2 + 1 - 1) with a2 by lia.
    replace (a2 + 1 + 1) with (a2 + 2) by lia.
    split_and!; [done| |done|done]. Z.div_mod_to_equations. lia.
  - right.
    replace ((a1 + a1) `div` 2) with a1 by (Z.div_mod_to_equations; lia).
    replace ((a2 + (a2 - 2)) `div` 2) with (a2 - 1)
      by (Z.div_mod_to_equations; lia).
    replace (a2 - 1 - 1) with (a2 - 2) by lia.
    replace (a2 - 1 + 1) with a2 by lia.
    split_and!; [done| |done|done]. Z.div_mod_to_equations. lia.
  - left.
    replace ((a2 + a2) `div` 2) with a2 by (Z.div_mod_to_equations; lia).
    replace ((a1 + (a1 + 2)) `div` 2) with (a1 + 1)
      by (Z.div_mod_to_equations; lia).
    replace (a1 + 1 - 1) with a1 by lia.
    replace (a1 + 1 + 1) with (a1 + 2) by lia.
    split_and!; [|done|done|done]. Z.div_mod_to_equations. lia.
  - left.
    replace ((a2 + a2) `div` 2) with a2 by (Z.div_mod_to_equations; lia).
    replace ((a1 + (a1 - 2)) `div` 2) with (a1 - 1)
      by (Z.div_mod_to_equations; lia).
    replace (a1 - 1 - 1) with (a1 - 2) by lia.
    replace (a1 - 1 + 1) with a1 by lia.
    split_and!; [|done|done|done]. Z.div_mod_to_equations. lia.
Qed.

Section layout_facts.
Variable self : MazeGenerator.
Hypothesis Hvalid : valid self.

Lemma layout_start : layout self (start_maze self) {[(1, 1)]}.
Proof.
  split.
  - by apply plain_start.
  - intros q _ ->%free_start_maze. by apply elem_of_singleton.
  - intros q ->%elem_of_singleton. by apply start_passage.
  - intros q ->%free_start_maze Hodd. destruct Hodd. by split.
Qed.

Lemma layout_step (maze : grid) (s : gset cell) (current : cell)
    (p : list cell) (c : cell) :
  shape (height self) (width self) maze → layout self maze s →
  passage self current → current ∉ s →
  trail self s p c → head p = Some current →
  layout self (pokes maze (trace p)) (list_to_set p ∪ s).
Proof.
  intros Hsh [Hplain Hcells Hpass Hdoor] Hcur Hfresh Htrail Hhead.
  pose proof (trail_interior _ _ _ _ Htrail) as Hint.
  pose proof (chained_linked _ _ (trail_chained _ _ _ _ Htrail)) as Hlinked.
  pose proof (linked_odd2 p current Hlinked Hhead (passage_odd2 self _ Hcur))
    as Hodd.
  pose proof (trace_interior self p Hint) as Htr.
  assert (Forall (inside (height self) (width self)) (trace p)) as Hins.
  { eapply Forall_impl; [exact Htr|]. apply interior_inside. }
  assert (∀ x, free maze x → free (pokes maze (trace p)) x) as Hmono.
  { intros x Hx. apply (free_pokes_iff _ _ _ _ _ Hsh Hins). by right. }
  assert (∀ x, x ∈ p → free (pokes maze (trace p)) x) as Hnew.
  { intros x Hx. apply (free_pokes_iff _ _ _ _ _ Hsh Hins). left.
    by apply elem_of_trace_path. }
  split.
  - by apply plain_step.
  - intros q Hq [Hin|Hfree]%(free_pokes_iff _ _ _ _ _ Hsh Hins).
    + apply elem_of_trace in Hin as [Hin|Hin].
      * by apply elem_of_union_l, elem_of_list_to_set.
      * by destruct (mids_not_odd2 p q Hlinked Hodd Hin).
    + by apply elem_of_union_r, Hcells.
  - intros q [Hq%elem_of_list_to_set|Hq]%elem_of_union; [|by apply Hpass].
    rewrite Forall_forall in Hint, Hodd.
    apply interior_odd2_passage; [by apply Hint|by apply Hodd].
  - intros q [Hin|Hfree]%(free_pokes_iff _ _ _ _ _ Hsh Hins) Hq.
    + apply elem_of_trace in Hin as [Hin|Hin].
      * rewrite Forall_forall in Hodd. destruct Hq. by apply Hodd.
      * apply elem_of_mids in Hin as (i & a & b & Ha & Hb & ->).
        apply midpoint_door.
        -- eapply Forall_lookup_1; [exact Hodd|exact Ha].
        -- by apply (Hlinked i).
        -- by eapply Hnew, list_elem_of_lookup_2.
        -- by eapply Hnew, list_elem_of_lookup_2.
    + eapply door_mono; [exact Hmono|]. by apply Hdoor.
Qed.

End layout_facts.

(** ** The goal on the grid of the generator *)

(** Where no cell strictly inside the border can be reached but the start,
    and the open cells all lie strictly inside the border, the furthest
    cell is the start. *)
Lemma fallback_returns_start (self : MazeGenerator) (maze : grid) :
  shape (height self) (width self) maze →
  (∀ q, free maze q → interior self q) →
  (∀ p, interior self p → reachable maze (1, 1) p → p = (1, 1)) →
  find_furthest_cell self maze (1, 1) = Done (1, 1).
Proof.
  intros Hsh Hborder Hnone.
  destruct (find_furthest_cell_run self maze Hsh (1, 1))
    as (fc & md & vf & -> & Hinv).
  destruct (furthest_final_best _ _ _ _ _ _ _ Hinv) as (i & Hi & _).
  apply list_elem_of_lookup_2 in Hi.
  destruct (furthest_final_distance _ _ _ _ _ _ _ _ _ Hinv Hi)
    as [_ [Hpath%rtc_nsteps_2 _]].
  f_equal. destruct (reachable_free _ _ _ Hpath) as [?|Hfree]; [done|].
  by apply Hnone; [apply Hborder|].
Qed.

Section goal_on_layout.
Variable self : MazeGenerator.
Hypothesis Hvalid : valid self.
Variable maze2 : grid.
Variable s2 : gset cell.
Hypothesis Hshape : shape (height self) (width self) maze2.
Hypothesis Hlayout : layout self maze2 s2.
Hypothesis Hstart : (1, 1) ∈ s2.

Lemma free_marked (q : cell) :
  free (poke maze2 (1, 1) START) q ↔ free maze2 q.
Proof.
  apply free_poke_iff; [done|done|]. unfold free.
  by rewrite (plain_open _ _ _ (lay_plain _ _ _ Hlayout) (1, 1) Hstart).
Qed.

(** A cell next to the start that is not a wall leads on to a passage
    cell. *)
Lemma beyond_the_start (y : cell) :
  y ∈ around (1, 1) → free maze2 y →
  ∃ z, z ∈ around y ∧ z ∈ s2 ∧ z ≠ (1, 1).
Proof.
  intros Hy Hfree.
  pose proof (plain_free _ _ _ (lay_plain _ _ _ Hlayout) y Hfree) as Hint.
  assert (¬ odd2 y) as Hodd.
  { apply elem_of_around in Hy. unfold odd2. destruct y as [y1 y2].
    simpl in *. Z.div_mod_to_equations. lia. }
  destruct (lay_door _ _ _ Hlayout y Hfree Hodd)
    as [(H1 & H2 & Ha & Hb)|(H1 & H2 & Ha & Hb)];
    apply elem_of_around in Hy; destruct y as [y1 y2]; simpl in *.
  - assert (y1 = 2 ∧ y2 = 1) as [-> ->].
    { unfold interior in Hint. simpl in Hint. Z.div_mod_to_equations. lia. }
    exists (3, 1). split_and!; [apply elem_of_around; simpl; lia| |done].
    by apply (lay_cells _ _ _ Hlayout).
  - assert (y1 = 1 ∧ y2 = 2) as [-> ->].
    { unfold interior in Hint. simpl in Hint. Z.div_mod_to_equations. lia. }
    exists (1, 3). split_and!; [apply elem_of_around; simpl; lia| |done].
    by apply (lay_cells _ _ _ Hlayout).
Qed.

(** Lines 79-85 on the grid the rounds leave: the goal goes to a passage
    cell of the in-maze set, or nowhere. *)
Lemma goal_on_layout :
  ∃ maze5,
    goal_placement self (poke maze2 (1, 1) START) = Done maze5
    ∧ ((maze5 = poke maze2 (1, 1) START
        ∧ ∀ q, q ∈ s2 → reachable maze2 (1, 1) q → q = (1, 1))
       ∨ ∃ g, maze5 = poke (poke maze2 (1, 1) START) g GOAL
              ∧ g ∈ s2 ∧ g ≠ (1, 1) ∧ reachable maze2 (1, 1) g
              ∧ ∀ q, q ∈ s2 → q ≠ (1, 1) → reachable maze2 (1, 1) q →
                     q = g ∨ scanned_before g q).
Proof.
  set (maze3 := poke maze2 (1, 1) START).
  pose proof (shape_poke _ _ maze2 (1, 1) START Hshape) as Hsh3.
  fold maze3 in Hsh3.
  unfold goal_placement, place_connected_goal.
  destruct (get_reachable_positions_spec self maze3 Hsh3 (1, 1))
    as (vf & -> & Hvf).
  rewrite Done_bind.
  destruct (first_reachable vf (1, 1) (candidates self (-2)))
    as [[r c]|] eqn:H1.
  { pose proof H1 as (Hcand & Hin & Hg)%first_reachable_Some.
    apply elem_of_candidates_passage in Hcand; [|done].
    rewrite (maze_set_interior self maze3 (r, c)), !Done_bind
      by (done || by apply passage_interior).
    eexists. split; [done|]. right. exists (r, c).
    split_and!; [done| |done| |].
    - apply (lay_cells _ _ _ Hlayout); [by apply passage_odd2 in Hcand|].
      apply free_marked. apply Hvf in Hin.
      by destruct (reachable_free _ _ _ Hin).
    - apply (reachable_iff maze2 maze3); [apply free_marked|by apply Hvf].
    - intros q Hq Hne Hreach.
      eapply first_reachable_first; [|exact H1| | |done].
      + apply candidates_sorted. lia.
      + apply elem_of_candidates_passage; [done|].
        by apply (lay_passage _ _ _ Hlayout).
      + apply Hvf. by apply (reachable_iff maze2 maze3); [apply free_marked|]. }
  assert (∀ p, interior self p → reachable maze3 (1, 1) p → p = (1, 1))
    as Hnone.
  { intros p _ Hreach.
    apply rtc_inv in Hreach as [?|(y & [Hy Hfree] & _)]; [done|].
    apply free_marked in Hfree.
    destruct (beyond_the_start y Hy Hfree) as (z & Hz & Hzs & Hne).
    destruct Hne. eapply first_reachable_None; [exact H1| |].
    - apply elem_of_candidates_passage; [done|].
      by apply (lay_passage _ _ _ Hlayout).
    - apply Hvf. apply (rtc_l _ _ y); [by split; [|apply free_marked]|].
      apply rtc_once. split; [done|]. apply free_marked. unfold free.
      by rewrite (plain_open _ _ _ (lay_plain _ _ _ Hlayout) z Hzs). }
  destruct (first_reachable vf (1, 1) (candidates self (-1)))
    as [[r c]|] eqn:H2.
  { apply first_reachable_Some in H2 as (Hcand & Hin & Hg).
    destruct Hg. apply Hnone; [by apply elem_of_candidates_interior|].
    by apply Hvf. }
  rewrite !Done_bind, fallback_returns_start, Done_bind; [|done| |done].
  - rewrite bool_decide_eq_false_2 by (by intros []).
    eexists. split; [done|]. left. split; [done|]. intros q Hq Hreach.
    apply Hnone.
    + by apply passage_interior, (lay_passage _ _ _ Hlayout).
    + by apply (reachable_iff maze2 maze3); [apply free_marked|].
  - intros q Hq%free_marked.
    by apply (plain_free _ _ _ (lay_plain _ _ _ Hlayout)).
Qed.

End goal_on_layout.

(** ** The finished grid *)

Section finished.
Variable self : MazeGenerator.
Variable rnd : nat → nat.
Hypothesis Hvalid : valid self.

(** The stages of the run of the generator at a valid size: the grid the
    rounds leave, with its layout; the grid [tree] that the goal placement
    leaves, which is that grid with the start written and the goal written
    if one is; and the walls [chosen] that are opened in it at the end. *)
Lemma finished_stages :
  ∃ maze2 s2 k evs goal tree chosen,
    rounds self rnd (length (remaining_of self {[(1, 1)]})) (start_maze self)
           {[(1, 1)]} (remaining_of self {[(1, 1)]}) 0%nat
      = Done (maze2, s2, k, evs)
    ∧ wilson_algorithm_generator self rnd
      = Done ({| width := width self; height := height self;
                 multiple_solutions := multiple_solutions self;
                 maze := Some (pokes tree chosen) |},
              (start_maze self, "initial"%string, PCell (1, 1)) :: evs
                ++ [(pokes tree chosen, "complete"%string, PNone)])
    ∧ shape (height self) (width self) maze2
    ∧ shape (height self) (width self) tree
    ∧ layout self maze2 s2
    ∧ (∀ p, passage self p → p ∈ s2)
    ∧ (Forall reached (generation_walks self rnd) → spanning self maze2 s2)
    ∧ (∀ g, goal = Some g →
            g ∈ s2 ∧ g ≠ (1, 1) ∧ reachable maze2 (1, 1) g
            ∧ ∀ q, q ∈ s2 → q ≠ (1, 1) → reachable maze2 (1, 1) q →
                   q = g ∨ scanned_before g q)
    ∧ (goal = None → ∀ q, q ∈ s2 → reachable maze2 (1, 1) q → q = (1, 1))
    ∧ (∀ q, peek tree q = if decide (goal = Some q) then Some GOAL
                          else if decide (q = (1, 1)) then Some START
                          else peek maze2 q)
    ∧ NoDup chosen
    ∧ (∀ w, w ∈ chosen → w ∈ openable self tree)
    ∧ length chosen = (if multiple_solutions self
                       then size (openable self tree) `div` 8 else 0)%nat.
Proof.
  destruct (rounds_inv self rnd Hvalid
              (λ m s, layout self m s
                      ∧ (Forall reached (generation_walks self rnd) →
                         spanning self m s))
              (λ w, Forall reached (generation_walks self rnd) → reached w))
    with (fuel := length (remaining_of self {[(1, 1)]}))
         (maze := start_maze self) (s := ({[(1, 1)]} : gset cell)) (k := 0%nat)
    as (maze2 & s2 & k & evs & Hrounds & Hsh2 & [Hlay Hspan] & Hrem & Hsub).
  { intros maze s current p c Hsh [Hl Hsp] Hcur Hfresh Htrail Hhead Hc.
    split; [by eapply layout_step|].
    intros Hwalks. eapply spanning_step; eauto. by apply Hc. }
  { by apply shape_start_maze. }
  { split; [by apply layout_start|]. intros _. by apply spanning_start. }
  { done. }
  { apply Forall_forall. intros w Hw Hwalks.
    rewrite Forall_forall in Hwalks. by apply Hwalks. }
  assert ((1, 1) ∈ s2) as Hstart by (by apply Hsub, elem_of_singleton).
  assert (∀ p, passage self p → p ∈ s2) as Hall.
  { intros p Hp%elem_of_all_cells.
    destruct (decide (p ∈ s2)) as [|Hnin]; [done|].
    by destruct (filter_nil_not_elem_of _ _ p Hrem). }
  pose proof (lay_plain _ _ _ Hlay) as Hplain.
  set (maze3 := poke maze2 (1, 1) START).
  pose proof (shape_poke _ _ maze2 (1, 1) START Hsh2) as Hsh3.
  destruct (goal_on_layout self Hvalid maze2 s2 Hsh2 Hlay Hstart)
    as (maze5 & Hgoal & Hm5).
  fold maze3 in Hsh3, Hgoal, Hm5.
  assert (∃ goal : option cell,
    (∀ g, goal = Some g →
          g ∈ s2 ∧ g ≠ (1, 1) ∧ reachable maze2 (1, 1) g
          ∧ ∀ q, q ∈ s2 → q ≠ (1, 1) → reachable maze2 (1, 1) q →
                 q = g ∨ scanned_before g q)
    ∧ (goal = None → ∀ q, q ∈ s2 → reachable maze2 (1, 1) q → q = (1, 1))
    ∧ shape (height self) (width self) maze5
    ∧ ∀ q, peek maze5 q = if decide (goal = Some q) then Some GOAL
                          else if decide (q = (1, 1)) then Some START
                          else peek maze2 q)
    as (goal & Hg & Hnogoal & Hsh5 & Hpeek5).
  { assert (∀ q, peek maze3 q = if decide (q = (1, 1)) then Some START
                                else peek maze2 q) as Hpeek3.
    { intros q. unfold maze3. rewrite peek_poke by done.
      case_decide; [|done].
      by rewrite (plain_open _ _ _ Hplain (1, 1) Hstart). }
    destruct Hm5 as [[-> Halone]|(g & -> & Hgs & Hne & Hgr & Hfirst)].
    - exists None. split_and!; [done|done|done|]. intros q.
      by rewrite decide_False by done.
    - exists (Some g). split_and!.
      + by intros ? [= <-].
      + done.
      + by apply shape_poke.
      + intros q.
        pose proof (passage_interior self g Hvalid
                      (lay_passage _ _ _ Hlay g Hgs)) as Hint.
        rewrite peek_poke by (apply (interior_nonneg self g Hint)).
        destruct (decide (q = g)) as [->|Hq].
        * rewrite decide_True by done. rewrite Hpeek3.
          rewrite decide_False by done.
          by rewrite (plain_open _ _ _ Hplain g Hgs).
        * rewrite decide_False by congruence. apply Hpeek3. }
  assert (∃ chosen k',
    (if multiple_solutions self then add_multiple_paths self rnd k maze5
     else Done (maze5, k)) = Done (pokes maze5 chosen, k')
    ∧ NoDup chosen
    ∧ (∀ w, w ∈ chosen → w ∈ openable self maze5)
    ∧ length chosen = (if multiple_solutions self
                       then size (openable self maze5) `div` 8 else 0)%nat)
    as (chosen & k' & Hmulti & Hnd & Hchosen & Hlen).
  { destruct (multiple_solutions self).
    - destruct (add_multiple_paths_chosen self rnd k maze5 Hsh5)
        as (chosen & k' & Hadd & Hnd & Hsub' & Hlen & _).
      by exists chosen, k'.
    - exists [], k. split_and!; [done|apply NoDup_nil_2| |done].
      intros w Hw. by apply elem_of_nil in Hw. }
  exists maze2, s2, k, evs, goal, maze5, chosen.
  split_and!; [done| |done..].
  unfold wilson_algorithm_generator. cbv zeta.
  rewrite (maze_set_interior self _ (1, 1)) by
    (apply shape_replicate || by apply start_interior).
  rewrite Done_bind. fold (start_maze self).
  rewrite Hrounds, Done_bind.
  pose proof (maze_set_interior self maze2 (1, 1) START Hsh2
                (start_interior self Hvalid)) as Hset.
  cbn [fst snd] in Hset. rewrite Hset, Done_bind.
  fold maze3. by rewrite Hgoal, Done_bind, Hmulti, Done_bind.
Qed.

(** The same run, with the finished grid read off the grid the rounds
    leave: the chosen walls open, the goal and the start written. *)
Lemma finished_grid :
  ∃ maze2 s2 k evs goal chosen final,
    rounds self rnd (length (remaining_of self {[(1, 1)]})) (start_maze self)
           {[(1, 1)]} (remaining_of self {[(1, 1)]}) 0%nat
      = Done (maze2, s2, k, evs)
    ∧ wilson_algorithm_generator self rnd
      = Done ({| width := width self; height := height self;
                 multiple_solutions := multiple_solutions self;
                 maze := Some final |},
              (start_maze self, "initial"%string, PCell (1, 1)) :: evs
                ++ [(final, "complete"%string, PNone)])
    ∧ shape (height self) (width self) maze2
    ∧ shape (height self) (width self) final
    ∧ layout self maze2 s2
    ∧ (∀ p, passage self p → p ∈ s2)
    ∧ (Forall reached (generation_walks self rnd) → spanning self maze2 s2)
    ∧ (∀ g, goal = Some g →
            g ∈ s2 ∧ g ≠ (1, 1) ∧ reachable maze2 (1, 1) g
            ∧ ∀ q, q ∈ s2 → q ≠ (1, 1) → reachable maze2 (1, 1) q →
                   q = g ∨ scanned_before g q)
    ∧ (goal = None → ∀ q, q ∈ s2 → reachable maze2 (1, 1) q → q = (1, 1))
    ∧ (∀ w, w ∈ chosen →
            interior self w ∧ peek maze2 w = Some WALL ∧ door maze2 w)
    ∧ (multiple_solutions self = false → chosen = [])
    ∧ ∀ q, peek final q
           = if decide (q ∈ chosen) then Some OPEN
             else if decide (goal = Some q) then Some GOAL
             else if decide (q = (1, 1)) then Some START
             else peek maze2 q.
Proof.
  destruct finished_stages
    as (maze2 & s2 & k & evs & goal & maze5 & chosen & Hrounds & Hrun & Hsh2
        & Hsh5 & Hlay & Hall & Hspan & Hg & Hnogoal & Hpeek5 & Hnd & Hchosen
        & Hlen).
  assert (∀ x, peek maze5 x = Some OPEN → free maze2 x) as Hopen.
  { intros x. rewrite Hpeek5. repeat case_decide; try done.
    unfold free. by intros ->. }
  assert (∀ w, w ∈ chosen →
               interior self w ∧ peek maze2 w = Some WALL ∧ door maze2 w)
    as Hwalls.
  { intros w Hw%Hchosen. unfold openable in Hw.
    apply elem_of_filter in Hw as [[Hint Hw] _].
    assert (peek maze5 w = Some WALL → peek maze2 w = Some WALL) as Hwall.
    { rewrite Hpeek5. by repeat case_decide. }
    split; [done|].
    destruct Hw as [(H1 & H2 & Ha & Hb & Hc)|(H1 & H2 & Ha & Hb & Hc)].
    - split; [by apply Hwall|]. left. split_and!; [done|done|by apply Hopen..].
    - split; [by apply Hwall|]. right. split_and!; [done|done|by apply Hopen..]. }
  exists maze2, s2, k, evs, goal, chosen, (pokes maze5 chosen).
  split_and!;
    [done|done|done|by apply shape_pokes|done|done|done|done|done|done| |].
  - intros Hsingle. rewrite Hsingle in Hlen. by destruct chosen.
  - intros q. rewrite peek_pokes.
    + case_decide as Hq; [|apply Hpeek5].
      rewrite Hpeek5. destruct (Hwalls q Hq) as (_ & Hwall & _).
      repeat case_decide; try done. by rewrite Hwall.
    + apply Forall_forall. intros w Hw.
      apply (interior_nonneg self). by apply Hwalls.
Qed.

End finished.

(** X7: at a valid size the finished grid has [height] rows of [width]
    characters; every cell of its border is a wall, and so is every cell at
    an even row and an even column, with [multiple_solutions] on as well
    as off. *)
Theorem finished_grid_frame (self : MazeGenerator) (rnd : nat → nat) :
  valid self →
  ∃ final,
    final_maze (wilson_algorithm_generator self rnd) = Some final
    ∧ shape (height self) (width self) final
    ∧ (∀ q, inside (height self) (width self) q → ¬ interior self q →
            peek final q = Some WALL)
    ∧ (∀ q, inside (height self) (width self) q → even2 q →
            peek final q = Some WALL).
Proof.
  intros Hvalid.
  destruct (finished_grid self rnd Hvalid)
    as (maze2 & s2 & k & evs & goal & chosen & final & _ & Hrun & Hsh2 & Hshf
        & Hlay & _ & _ & Hgoal & _ & Hchosen & _ & Hpeek).
  pose proof (lay_plain _ _ _ Hlay) as Hplain.
  assert (∀ q, inside (height self) (width self) q → ¬ free maze2 q →
               peek maze2 q = Some WALL) as Hwall.
  { intros q [ch Hq]%(peek_is_Some _ _ _ _ Hsh2) Hfree.
    destruct (plain_chars _ _ _ Hplain q ch Hq) as [->| ->]; [done|].
    destruct Hfree. unfold free. by rewrite Hq. }
  exists final. split_and!; [by rewrite Hrun|done| |].
  - intros q Hin Hout. rewrite Hpeek.
    rewrite decide_False by (intros Hq; by apply Hout, Hchosen).
    rewrite decide_False.
    2:{ intros Hq. destruct (Hgoal q Hq) as [Hs _]. apply Hout.
        by apply passage_interior, (lay_passage _ _ _ Hlay). }
    rewrite decide_False
      by (intros ->; by apply Hout, start_interior).
    apply Hwall; [done|]. intros Hfree. by apply Hout, (plain_free _ _ _ Hplain).
  - intros q Hin [Hq1 Hq2]. rewrite Hpeek.
    rewrite decide_False.
    2:{ intros Hq. destruct (Hchosen q Hq) as (_ & _ & Hdoor).
        destruct Hdoor as [(? & ? & _)|(? & ? & _)]; lia. }
    rewrite decide_False.
    2:{ intros Hq. destruct (Hgoal q Hq) as [Hs _].
        apply (lay_passage _ _ _ Hlay), passage_odd2 in Hs as [? ?]. lia. }
    rewrite decide_False by (intros ->; simpl in *; done).
    apply Hwall; [done|]. intros Hfree.
    destruct (lay_door _ _ _ Hlay q Hfree) as [(? & ? & _)|(? & ? & _)];
      [|lia..].
    intros [? ?]. lia.
Qed.

Lemma finished_grid_frame_witness :
  ∃ final,
    final_maze (wilson_algorithm_generator corridor counting) = Some final
    ∧ shape (height corridor) (width corridor) final
    ∧ (∀ q, inside (height corridor) (width corridor) q →
            ¬ interior corridor q → peek final q = Some WALL)
    ∧ (∀ q, inside (height corridor) (width corridor) q → even2 q →
            peek final q = Some WALL).
Proof.
  apply (finished_grid_frame corridor counting).
  unfold valid, corridor. simpl. split_and!; (lia || reflexivity).
Defined.

(** X8: at a valid size the finished grid holds the start mark at (1, 1)
    and nowhere else, and at most one goal mark, on a passage cell other
    than the start; its characters are the wall, the open cell and the two
    marks; and no passage cell is a wall, whatever the walks did. *)
Theorem finished_grid_marks (self : MazeGenerator) (rnd : nat → nat) :
  valid self →
  ∃ final,
    final_maze (wilson_algorithm_generator self rnd) = Some final
    ∧ (∀ q, peek final q = Some START ↔ q = (1, 1))
    ∧ (∀ g g', peek final g = Some GOAL → peek final g' = Some GOAL → g = g')
    ∧ (∀ g, peek final g = Some GOAL → passage self g ∧ g ≠ (1, 1))
    ∧ (∀ q ch, peek final q = Some ch → ch ∈ [WALL; OPEN; START; GOAL])
    ∧ (∀ p, passage self p → free final p).
Proof.
  intros Hvalid.
  destruct (finished_grid self rnd Hvalid)
    as (maze2 & s2 & k & evs & goal & chosen & final & _ & Hrun & Hsh2 & Hshf
        & Hlay & Hall & _ & Hgoal & _ & Hchosen & _ & Hpeek).
  pose proof (lay_plain _ _ _ Hlay) as Hplain.
  assert (∀ q ch, peek maze2 q = Some ch → ch = WALL ∨ ch = OPEN) as Hchars
    by apply Hplain.
  assert (∀ q, q ∈ s2 → q ∉ chosen) as Hopen.
  { intros q Hq Hin. destruct (Hchosen q Hin) as (_ & Hwall & _).
    by rewrite (plain_open _ _ _ Hplain q Hq) in Hwall. }
  assert (∀ g, peek final g = Some GOAL → goal = Some g) as Hmark.
  { intros g. rewrite Hpeek. repeat case_decide; try done.
    by intros [?|?]%Hchars. }
  exists final. split_and!; [by rewrite Hrun| | | | |].
  - intros q. rewrite Hpeek. split.
    + repeat case_decide; try done. by intros [?|?]%Hchars.
    + intros ->. rewrite decide_False by (by apply Hopen, Hall, start_passage).
      rewrite decide_False; [by rewrite decide_True|].
      intros Hg. by destruct (Hgoal _ Hg) as (_ & ? & _).
  - intros g g' Hg%Hmark Hg'%Hmark. congruence.
  - intros g (Hs & Hne & _)%Hmark%Hgoal. split; [|done].
    by apply (lay_passage _ _ _ Hlay).
  - intros q ch. rewrite Hpeek, !elem_of_cons.
    repeat case_decide; try (intros [= <-]; tauto).
    intros [->| ->]%Hchars; tauto.
  - intros p Hp%Hall. unfold free. rewrite Hpeek.
    rewrite decide_False by (by apply Hopen).
    repeat case_decide; try done.
    by rewrite (plain_open _ _ _ Hplain p Hp).
Qed.

Lemma finished_grid_marks_witness :
  ∃ final,
    final_maze (wilson_algorithm_generator corridor counting) = Some final
    ∧ (∀ q, peek final q = Some START ↔ q = (1, 1))
    ∧ (∀ g g', peek final g = Some GOAL → peek final g' = Some GOAL → g = g')
    ∧ (∀ g, peek final g = Some GOAL → passage corridor g ∧ g ≠ (1, 1))
    ∧ (∀ q ch, peek final q = Some ch → ch ∈ [WALL; OPEN; START; GOAL])
    ∧ (∀ p, passage corridor p → free final p).
Proof.
  apply (finished_grid_marks corridor counting).
  unfold valid, corridor. simpl. split_and!; (lia || reflexivity).
Defined.

(** X9: at a valid size every cell of the finished grid that is not a wall
    is a passage cell or a door: a cell with one even coordinate whose two
    neighbours along the other axis are not walls.  No corridor ends
    in a wall half way between two passage cells, with [multiple_solutions]
    on as well as off. *)
Theorem finished_grid_doors (self : MazeGenerator) (rnd : nat → nat) :
  valid self →
  ∃ final,
    final_maze (wilson_algorithm_generator self rnd) = Some final
    ∧ ∀ q, free final q → passage self q ∨ door final q.
Proof.
  intros Hvalid.
  destruct (finished_grid self rnd Hvalid)
    as (maze2 & s2 & k & evs & goal & chosen & final & _ & Hrun & Hsh2 & Hshf
        & Hlay & Hall & _ & Hgoal & _ & Hchosen & _ & Hpeek).
  pose proof (lay_plain _ _ _ Hlay) as Hplain.
  assert (∀ x, free maze2 x → free final x) as Hmono.
  { intros x. unfold free. rewrite Hpeek. by repeat case_decide. }
  exists final. split; [by rewrite Hrun|]. intros q. unfold free at 1.
  rewrite Hpeek.
  destruct (decide (q ∈ chosen)) as [Hq|Hq].
  { intros _. right. eapply door_mono; [exact Hmono|]. by apply Hchosen. }
  destruct (decide (goal = Some q)) as [Hg|Hg].
  { intros _. left. apply (lay_passage _ _ _ Hlay). by apply Hgoal. }
  destruct (decide (q = (1, 1))) as [->|Hne].
  { intros _. left. by apply start_passage. }
  intros Hfree. fold (free maze2 q) in Hfree.
  destruct (decide (odd2 q)) as [Hodd|Hodd].
  - left. by apply (lay_passage _ _ _ Hlay), (lay_cells _ _ _ Hlay).
  - right. eapply door_mono; [exact Hmono|]. by apply (lay_door _ _ _ Hlay).
Qed.

Lemma finished_grid_doors_witness :
  ∃ final,
    final_maze (wilson_algorithm_generator corridor counting) = Some final
    ∧ ∀ q, free final q → passage corridor q ∨ door final q.
Proof.
  apply (finished_grid_doors corridor counting).
  unfold valid, corridor. simpl. split_and!; (lia || reflexivity).
Defined.

(** X10: on a grid whose cells on the border are all walls, the fallback of
    lines 81-85 writes nothing: when [place_connected_goal] has returned
    [False], the cell [find_furthest_cell] returns is the start itself, and
    the grid goes on as it was; so the goal placement of the generator
    leaves the grid [place_connected_goal] returns. *)
Theorem fallback_is_idle (self : MazeGenerator) (maze : grid) :
  shape (height self) (width self) maze →
  (∀ q, free maze q → interior self q) →
  ∃ maze' placed,
    place_connected_goal self maze = Done (maze', placed)
    ∧ goal_placement self maze = Done maze'
    ∧ (placed = false →
       maze' = maze ∧ find_furthest_cell self maze (1, 1) = Done (1, 1)).
Proof.
  intros Hsh Hborder. unfold goal_placement.
  destruct (place_connected_goal_spec self maze Hsh)
    as (maze' & [|] & -> & Hplaced); rewrite Done_bind.
  { by exists maze', true. }
  destruct Hplaced as [-> Hnone].
  assert (find_furthest_cell self maze (1, 1) = Done (1, 1)) as Hfc.
  { apply fallback_returns_start; [done..|]. intros p Hp Hreach.
    apply Hnone; [by apply elem_of_candidates_interior|done]. }
  rewrite Hfc, Done_bind, bool_decide_eq_false_2 by (by intros []).
  by exists maze, false.
Qed.

Lemma fallback_is_idle_witness :
  place_connected_goal corridor corridor_final = Done (corridor_final, false)
  ∧ goal_placement corridor corridor_final = Done corridor_final
  ∧ find_furthest_cell corridor corridor_final (1, 1) = Done (1, 1).
Proof.
  assert (shape (height corridor) (width corridor) corridor_final) as Hsh.
  { split; [reflexivity|]. vm_compute. repeat constructor. }
  destruct (fallback_is_idle corridor corridor_final Hsh)
    as (maze' & placed & Hplace & Hgoal & Hidle).
  { intros q Hq.
    assert (q ∈ elements (positions corridor)) as Hin.
    { apply elem_of_elements, elem_of_positions. by eapply free_inside. }
    assert (Forall (λ q, free corridor_final q
                         → 1 ≤ q.1 < 3 - 1 ∧ 1 ≤ q.2 < 7 - 1)
                   (elements (positions corridor))) as Hall.
    { apply (bool_decide_unpack _). vm_compute. exact I. }
    rewrite Forall_forall in Hall. by apply (Hall q Hin). }
  assert (place_connected_goal corridor corridor_final
          = Done (corridor_final, false)) as Hrun
    by (vm_compute; reflexivity).
  rewrite Hrun in Hplace. injection Hplace as <- <-.
  destruct (Hidle eq_refl) as [_ Hfar].
  split_and!; [exact Hrun|exact Hgoal|exact Hfar].
Defined.

(** ** The grids of the event stream *)

Lemma grows_refl (maze : grid) : grows maze maze.
Proof. by intros q. Qed.

Lemma grows_trans (m1 m2 m3 : grid) : grows m1 m2 → grows m2 m3 → grows m1 m3.
Proof. intros H1 H2 q Hq. by apply H2, H1. Qed.

Lemma grows_poke (maze : grid) (p : cell) :
  nonneg p → grows maze (poke maze p OPEN).
Proof. intros Hp q. by apply free_poke. Qed.

Lemma grows_pokes (maze : grid) (l : list cell) :
  Forall nonneg l → grows maze (pokes maze l).
Proof. intros Hl q. by apply free_pokes. Qed.

Section stream_facts.
Variable self : MazeGenerator.
Variable rnd : nat → nat.

(** The events of the inner loop: the grid is the grid of the round, and
    the path is the path of the walk at that step. *)
Lemma walk_stream (budget : nat) (maze : grid) (s : gset cell)
    (path : list cell) (current : cell) (k : nat) :
  trail self s path current →
  (length (walk self rnd budget maze s path current k).2 ≤ budget)%nat
  ∧ Forall (λ e, snapshot e = maze
                 ∧ ∃ q c, e.2 = PPath q ∧ trail self s q c
                          ∧ head q = head path)
           (walk self rnd budget maze s path current k).2.
Proof.
  revert path current k.
  induction budget as [|budget IH]; intros path current k Htr; simpl.
  { split; [done|constructor]. }
  case_decide as Hcur; [split; [simpl; lia|constructor]|].
  destruct (neighbors self current) as [|n0 ns] eqn:Hns;
    [split; [simpl; lia|constructor]|].
  rewrite <-Hns.
  set (next_cell := choice rnd k n0 (neighbors self current)).
  assert (next_cell ∈ neighbors self current) as Hnext.
  { apply choice_elem_of. by rewrite Hns. }
  pose proof (trail_extend self _ _ _ _ Htr Hcur Hnext) as Htr'.
  assert (head (extend_path path next_cell) = head path) as Hhead.
  { apply extend_path_head. destruct Htr as [_ Hlast _ _ _]. by destruct path. }
  destruct (IH (extend_path path next_cell) next_cell (S k) Htr')
    as [Hlen Hevs].
  destruct (walk _ _ _ _ _ _ _ _) as [[[p1 c1] k1] evs1]. simpl in *.
  split; [lia|]. constructor.
  - split; [done|]. by exists (extend_path path next_cell), next_cell.
  - eapply Forall_impl; [exact Hevs|]. intros e (? & q & c & ? & ? & Hq).
    split; [done|]. exists q, c. split_and!; [done..|]. by rewrite Hq.
Qed.

Lemma connect_cons (maze : grid) (s : gset cell) (r c : Z)
    (rest : list cell) :
  connect maze s ((r, c) :: rest)
  = (maze1 ← maze_set maze r c OPEN;
     maze2 ← match rest with
             | [] => Done maze1
             | (r2, c2) :: _ =>
               maze_set maze1 ((r + r2) `div` 2) ((c + c2) `div` 2) OPEN
             end;
     '(maze3, in_maze3, evs) ← connect maze2 ({[(r, c)]} ∪ s) rest;
     Done (maze3, in_maze3,
           (maze2, "adding_path"%string, PCell (r, c)) :: evs)).
Proof. reflexivity. Qed.

(** The events of the [for] of lines 57-70: each grid has the cells of the
    one before. *)
Lemma connect_stream (maze : grid) (s : gset cell) (path : list cell) :
  shape (height self) (width self) maze →
  Forall (interior self) path →
  ∃ evs,
    connect maze s path
    = Done (pokes maze (trace path), list_to_set path ∪ s, evs)
    ∧ length evs = length path
    ∧ Forall (λ e, shape (height self) (width self) (snapshot e)
                   ∧ grows maze (snapshot e)
                   ∧ grows (snapshot e) (pokes maze (trace path))) evs
    ∧ StronglySorted (λ e e', grows (snapshot e) (snapshot e')) evs.
Proof.
  intros Hsh Hpath. revert maze s Hsh.
  induction Hpath as [|p rest Hp Hrest IH]; intros maze s Hsh.
  { exists []. cbn [connect list_to_set]. rewrite (left_id_L ∅ (∪)).
    split_and!; [done|done|constructor|constructor]. }
  destruct p as [r c].
  pose proof (interior_nonneg self _ Hp) as Hnn.
  destruct Hrest as [|q rest' Hq Hrest'].
  - exists [(poke maze (r, c) OPEN, "adding_path"%string, PCell (r, c))].
    split_and!.
    + rewrite connect_cons.
      rewrite (maze_set_interior self maze (r, c)) by done.
      rewrite !Done_bind. cbn [connect]. rewrite Done_bind.
      cbn [list_to_set]. by rewrite (right_id_L ∅ (∪)).
    + done.
    + constructor; [|constructor]. unfold snapshot. cbn [fst].
      split_and!; [by apply shape_poke|by apply grows_poke|apply grows_refl].
    + repeat constructor.
  - destruct q as [r2 c2].
    pose proof (midpoint_interior self _ _ Hp Hq) as Hmid.
    pose proof (interior_nonneg self _ Hmid) as Hmnn.
    set (maze2 := poke (poke maze (r, c) OPEN) (midpoint (r, c) (r2, c2)) OPEN).
    assert (shape (height self) (width self) maze2) as Hsh2
      by (by do 2 apply shape_poke).
    assert (grows maze maze2) as Hg2.
    { eapply grows_trans; by apply grows_poke. }
    destruct (IH maze2 ({[(r, c)]} ∪ s) Hsh2)
      as (evs & Heq & Hlen & Hevs & Hsorted).
    assert (pokes maze (trace ((r, c) :: (r2, c2) :: rest'))
            = pokes maze2 (trace ((r2, c2) :: rest'))) as Htr by reflexivity.
    rewrite Htr.
    exists ((maze2, "adding_path"%string, PCell (r, c)) :: evs).
    split_and!.
    + rewrite connect_cons.
      rewrite (maze_set_interior self maze (r, c)) by done.
      rewrite Done_bind.
      rewrite (maze_set_interior self _ (midpoint (r, c) (r2, c2)))
        by (by try apply shape_poke).
      rewrite Done_bind. fold maze2.
      rewrite Heq, Done_bind. by rewrite list_to_set_step.
    + simpl. by rewrite Hlen.
    + constructor.
      * unfold snapshot. cbn [fst]. split_and!; [done|done|].
        apply grows_pokes.
        eapply Forall_impl;
          [apply (trace_interior self _ (Forall_cons_2 _ _ _ Hq Hrest'))|].
        apply interior_nonneg.
      * eapply Forall_impl; [exact Hevs|]. intros e (? & ? & ?).
        split_and!; [done| |done]. by eapply grows_trans.
    + constructor; [done|]. eapply Forall_impl; [exact Hevs|].
      by intros e (? & ? & ?).
Qed.

Hypothesis Hvalid : valid self.

Lemma trail_passages (s : gset cell) (p : list cell) (c current : cell) :
  passage self current → trail self s p c → head p = Some current →
  Forall (passage self) p ∧ (length p ≤ length (all_cells self))%nat.
Proof.
  intros Hcur Htrail Hhead.
  pose proof (trail_interior _ _ _ _ Htrail) as Hint.
  pose proof (chained_linked _ _ (trail_chained _ _ _ _ Htrail)) as Hlinked.
  pose proof (linked_odd2 p current Hlinked Hhead (passage_odd2 self _ Hcur))
    as Hodd.
  assert (Forall (passage self) p) as Hpass.
  { apply Forall_forall. intros x Hx. rewrite Forall_forall in Hint, Hodd.
    apply interior_odd2_passage; [by apply Hint|by apply Hodd]. }
  split; [done|]. apply submseteq_length, NoDup_submseteq.
  - apply Htrail.
  - intros x Hx. rewrite Forall_forall in Hpass.
    by apply elem_of_all_cells, Hpass.
Qed.

(** The events of the rounds: their grids have the size of the maze, each
    has the open cells of the ones before, and they are no more than the
    bound of a round for each cell that remains. *)
Lemma rounds_stream (fuel : nat) (maze : grid) (s : gset cell) (k : nat) :
  shape (height self) (width self) maze →
  (length (remaining_of self s) ≤ fuel)%nat →
  ∃ mazef sf kf evs,
    rounds self rnd fuel maze s (remaining_of self s) k
      = Done (mazef, sf, kf, evs)
    ∧ shape (height self) (width self) mazef
    ∧ grows maze mazef
    ∧ Forall (λ e, shape (height self) (width self) (snapshot e)
                   ∧ grows maze (snapshot e) ∧ grows (snapshot e) mazef) evs
    ∧ StronglySorted (λ e e', grows (snapshot e) (snapshot e')) evs
    ∧ (length evs ≤ length (remaining_of self s)
                     * (max_steps + length (all_cells self) + 2))%nat.
Proof.
  revert maze s k. induction fuel as [|fuel IH]; intros maze s k Hsh Hlen.
  { destruct (remaining_of self s) eqn:Hrem; [|simpl in Hlen; lia].
    exists maze, s, k, []. simpl.
    split_and!; [done|done|apply grows_refl|constructor|constructor|lia]. }
  destruct (remaining_of self s) as [|c0 rem] eqn:Hrem.
  { exists maze, s, k, []. simpl.
    split_and!; [done|done|apply grows_refl|constructor|constructor|lia]. }
  simpl.
  set (current := choice rnd k c0 (c0 :: rem)).
  assert (current ∈ remaining_of self s) as Hcur.
  { rewrite Hrem. by apply choice_elem_of. }
  apply list_elem_of_filter in Hcur as Hcur2. destruct Hcur2 as [Hfresh Hpass].
  apply elem_of_all_cells in Hpass.
  pose proof (passage_interior _ _ Hvalid Hpass) as Hint.
  pose proof (walk_stream max_steps maze s [current] current (S k)
                (trail_start self s current Hint)) as [Hwlen Hwevs].
  destruct (walk _ _ _ _ _ _ _ _) as [[[p c] k1] wevs] eqn:Hwalk.
  simpl in Hwlen, Hwevs.
  apply walk_trail in Hwalk as (Htrail & Hhead & _);
    [|by apply trail_start].
  simpl in Hhead.
  destruct (trail_passages s p c current Hpass Htrail Hhead) as [_ Hplen].
  pose proof (trail_interior _ _ _ _ Htrail) as Hpint.
  destruct (connect_stream maze s p Hsh Hpint)
    as (cevs & Hconn & Hclen & Hcevs & Hcsorted).
  rewrite Hconn, Done_bind.
  set (maze' := pokes maze (trace p)) in *.
  assert (shape (height self) (width self) maze') as Hsh' by
    (by apply shape_pokes).
  assert (grows maze maze') as Hg'.
  { apply grows_pokes. eapply Forall_impl; [by apply trace_interior|].
    apply interior_nonneg. }
  assert (length (remaining_of self (list_to_set p ∪ s))
          < length (remaining_of self s))%nat as Hlt.
  { eapply remaining_of_shrinks; [apply union_subseteq_r|done|].
    apply elem_of_union_l, elem_of_list_to_set.
    by apply head_Some_elem_of. }
  rewrite Hrem in Hlt. simpl in Hlt, Hlen.
  destruct (IH maze' (list_to_set p ∪ s) k1 Hsh')
    as (mazef & sf & kf & evs & Hrec & Hshf & Hgf & Hevs & Hsorted & Hbound);
    [lia|].
  rewrite Hrec, Done_bind.
  eexists mazef, sf, kf, _. split_and!; [reflexivity|done| | | |].
  - by eapply grows_trans.
  - constructor.
    { unfold snapshot. simpl.
      split_and!; [done|apply grows_refl|by eapply grows_trans]. }
    apply Forall_app. split.
    { eapply Forall_impl; [exact Hwevs|]. intros e [-> _].
      split_and!; [done|apply grows_refl|by eapply grows_trans]. }
    apply Forall_app. split.
    { eapply Forall_impl; [exact Hcevs|]. intros e (? & ? & ?).
      split_and!; [done|done|by eapply grows_trans]. }
    constructor.
    { unfold snapshot. simpl. split_and!; done. }
    eapply Forall_impl; [exact Hevs|]. intros e (? & ? & ?).
    split_and!; [done|by eapply grows_trans|done].
  - constructor.
    2:{ apply Forall_app. split.
        { eapply Forall_impl; [exact Hwevs|]. intros e [-> _].
          apply grows_refl. }
        apply Forall_app. split.
        { eapply Forall_impl; [exact Hcevs|]. by intros e (? & ? & ?). }
        constructor; [done|].
        eapply Forall_impl; [exact Hevs|]. intros e (? & ? & ?).
        unfold snapshot at 1. simpl. by eapply grows_trans. }
    apply StronglySorted_app_2.
    + intros e e' [He _]%(proj1 (Forall_forall _ _) Hwevs) He'.
      rewrite He. apply elem_of_app in He' as [He'|He'].
      * by apply (proj1 (Forall_forall _ _) Hcevs) in He' as (? & ? & ?).
      * apply elem_of_cons in He' as [->|He']; [done|].
        apply (proj1 (Forall_forall _ _) Hevs) in He' as (? & ? & ?).
        by eapply grows_trans.
    + clear -Hwevs. induction Hwevs as [|e evs [He _] Hevs IHe];
        constructor; [done|].
      eapply Forall_impl; [exact Hevs|]. intros e' [-> _]. rewrite He.
      apply grows_refl.
    + apply StronglySorted_app_2; [|done|].
      * intros e e' (? & ? & He)%(proj1 (Forall_forall _ _) Hcevs) He'.
        apply elem_of_cons in He' as [->|He']; [done|].
        apply (proj1 (Forall_forall _ _) Hevs) in He' as (? & ? & ?).
        by eapply grows_trans.
      * constructor; [done|]. eapply Forall_impl; [exact Hevs|].
        by intros e (? & ? & ?).
  - unfold event in *.
    rewrite length_cons, !length_app, length_cons, Hclen. cbn [length].
    set (B := (max_steps + length (all_cells self) + 2)%nat) in *.
    assert (length wevs + length p + 2 ≤ B)%nat by (unfold B; lia).
    nia.
Qed.

End stream_facts.

(** X14: at a valid size every grid the event stream hands out has [height]
    rows of [width] characters, the first has the start cell open and
    walls elsewhere, the last is the finished grid the generator keeps in
    [self.maze], and from one event to any later one no cell goes back to
    a wall. *)
Theorem snapshots_grow (self : MazeGenerator) (rnd : nat → nat) :
  valid self →
  ∃ g' evs final,
    wilson_algorithm_generator self rnd = Done (g', evs)
    ∧ maze g' = Some final
    ∧ Forall (λ e, shape (height self) (width self) (snapshot e)) evs
    ∧ snapshot <$> head evs = Some (start_maze self)
    ∧ snapshot <$> last evs = Some final
    ∧ ∀ i j e e', (i ≤ j)%nat → evs !! i = Some e → evs !! j = Some e' →
                  grows (snapshot e) (snapshot e').
Proof.
  intros Hvalid.
  destruct (finished_grid self rnd Hvalid)
    as (maze2 & s2 & k & evs & goal & chosen & final & Hrounds & Hrun & Hsh2
        & Hshf & Hlay & _ & _ & _ & _ & _ & _ & Hpeek).
  destruct (rounds_stream self rnd Hvalid
              (length (remaining_of self {[(1, 1)]})) (start_maze self)
              {[(1, 1)]} 0%nat (shape_start_maze self) (Nat.le_refl _))
    as (mazef & sf & kf & evs' & Hrounds' & _ & Hgf & Hevs & Hsorted & _).
  rewrite Hrounds in Hrounds'. injection Hrounds' as <- <- <- <-.
  assert (grows maze2 final) as Hfinal.
  { intros x. unfold free. rewrite Hpeek. by repeat case_decide. }
  eexists _, _, final. split; [exact Hrun|]. split; [done|].
  assert (StronglySorted (λ e e', grows (snapshot e) (snapshot e'))
            ((start_maze self, "initial"%string, PCell (1, 1)) :: evs
               ++ [(final, "complete"%string, PNone)])) as Hall.
  { constructor.
    - apply StronglySorted_app_2; [|done|repeat constructor].
      intros e e' (_ & _ & He)%(proj1 (Forall_forall _ _) Hevs)
        ->%list_elem_of_singleton.
      by eapply grows_trans.
    - apply Forall_app. split.
      + eapply Forall_impl; [exact Hevs|]. by intros e (_ & ? & _).
      + constructor; [|done]. by eapply grows_trans. }
  split_and!.
  - constructor; [by apply shape_start_maze|]. apply Forall_app. split.
    + eapply Forall_impl; [exact Hevs|]. by intros e (? & _).
    + by constructor.
  - done.
  - by rewrite last_cons, last_snoc.
  - intros i j e e' Hij Hi Hj.
    destruct (decide (i = j)) as [->|Hne].
    + rewrite Hi in Hj. injection Hj as <-. apply grows_refl.
    + by apply (StronglySorted_lookup_lt _ _ i j e e' Hall); [lia|..].
Qed.

Lemma snapshots_grow_witness :
  ∃ g' evs final,
    wilson_algorithm_generator corridor counting = Done (g', evs)
    ∧ maze g' = Some final
    ∧ Forall (λ e, shape (height corridor) (width corridor) (snapshot e)) evs
    ∧ snapshot <$> head evs = Some (start_maze corridor)
    ∧ snapshot <$> last evs = Some final
    ∧ ∀ i j e e', (i ≤ j)%nat → evs !! i = Some e → evs !! j = Some e' →
                  grows (snapshot e) (snapshot e').
Proof.
  apply (snapshots_grow corridor counting).
  unfold valid, corridor. simpl. split_and!; (lia || reflexivity).
Defined.

(** The passage cells number half the height by half the width, rounded
    down. *)
Lemma length_all_cells (self : MazeGenerator) :
  valid self →
  length (all_cells self)
  = (Z.to_nat ((height self - 1) `div` 2)
     * Z.to_nat ((width self - 1) `div` 2))%nat.
Proof.
  intros [[Hh Hhodd] [Hw Hwodd]]. unfold all_cells.
  rewrite length_product. unfold range. simpl.
  rewrite !length_fmap, !length_seq. f_equal; f_equal;
    Z.div_mod_to_equations; lia.
Qed.

(** X15: at a valid size the event stream has at most two events and, for
    each passage cell but the start, the bound of a round: [max_steps]
    walking events, one adding_path event a passage cell and the two events
    that open and close the round.  The passage cells number half the
    height by half the width, rounded down. *)
Theorem event_stream_bound (self : MazeGenerator) (rnd : nat → nat) :
  valid self →
  ∃ g' evs,
    wilson_algorithm_generator self rnd = Done (g', evs)
    ∧ (length evs
       ≤ 2 + (length (all_cells self) - 1)
             * (max_steps + length (all_cells self) + 2))%nat
    ∧ length (all_cells self)
      = (Z.to_nat ((height self - 1) `div` 2)
         * Z.to_nat ((width self - 1) `div` 2))%nat.
Proof.
  intros Hvalid.
  destruct (finished_grid self rnd Hvalid)
    as (maze2 & s2 & k & evs & goal & chosen & final & Hrounds & Hrun & _).
  destruct (rounds_stream self rnd Hvalid
              (length (remaining_of self {[(1, 1)]})) (start_maze self)
              {[(1, 1)]} 0%nat (shape_start_maze self) (Nat.le_refl _))
    as (mazef & sf & kf & evs' & Hrounds' & _ & _ & _ & _ & Hbound).
  rewrite Hrounds in Hrounds'. injection Hrounds' as <- <- <- <-.
  eexists _, _. split; [exact Hrun|]. split; [|by apply length_all_cells].
  assert (length (remaining_of self {[(1, 1)%Z]})
          < length (all_cells self))%nat as Hlt.
  { apply (length_filter_lt _ _ (1, 1)).
    - apply elem_of_all_cells. by apply start_passage.
    - intros Hnin. apply Hnin. by apply elem_of_singleton. }
  unfold event in *. rewrite length_cons, length_app. cbn [length].
  set (B := (max_steps + length (all_cells self) + 2)%nat) in *.
  nia.
Qed.

Lemma event_stream_bound_witness :
  ∃ g' evs,
    wilson_algorithm_generator corridor counting = Done (g', evs)
    ∧ (length evs
       ≤ 2 + (length (all_cells corridor) - 1)
             * (max_steps + length (all_cells corridor) + 2))%nat
    ∧ length (all_cells corridor)
      = (Z.to_nat ((height corridor - 1) `div` 2)
         * Z.to_nat ((width corridor - 1) `div` 2))%nat.
Proof.
  apply (event_stream_bound corridor counting).
  unfold valid, corridor. simpl. split_and!; (lia || reflexivity).
Defined.

(** ** The walk and its events *)

(** X16: the inner loop of a round yields at most [max_steps] events; each
    is a walking event that hands out the grid of the round unchanged and a
    path that begins at the cell the walk started from, lies strictly
    inside the border, goes two cells along one axis at each step, and of
    which no cell but the last is in the in-maze set. *)
Theorem walking_events_follow_the_walk (self : MazeGenerator)
    (rnd : nat → nat) (maze : grid) (s : gset cell) (current : cell)
    (k : nat) :
  interior self current →
  (length (walk_events_of (walk self rnd max_steps maze s [current] current k))
   ≤ max_steps)%nat
  ∧ Forall (λ e, tag e = "walking"%string ∧ snapshot e = maze
                 ∧ ∃ q c, e.2 = PPath q
                          ∧ head q = Some current ∧ last q = Some c
                          ∧ Forall (interior self) q ∧ linked q
                          ∧ ∀ x, x ∈ q → x ≠ c → x ∉ s)
           (walk_events_of (walk self rnd max_steps maze s [current] current k)).
Proof.
  intros Hint.
  pose proof (walk_stream self rnd max_steps maze s [current] current k
                (trail_start self s current Hint)) as [Hlen Hevs].
  pose proof (walk_events self rnd max_steps maze s [current] current k)
    as Htags.
  unfold walk_events_of. split; [done|].
  apply Forall_forall. intros e He.
  rewrite Forall_forall in Hevs, Htags.
  destruct (Hevs e He) as (Hsnap & q & c & Hq & Htrail & Hhead).
  destruct (Htags e He) as [Htag _].
  split_and!; [done|done|]. exists q, c. split_and!; [done|done|..].
  - apply Htrail.
  - apply Htrail.
  - eapply chained_linked, Htrail.
  - apply Htrail.
Qed.

Lemma walking_events_follow_the_walk_witness :
  (length (walk_events_of (walk corridor first_choice max_steps
                                (start_maze corridor) {[(1, 1)%Z]}
                                [(1, 3)%Z] (1, 3)%Z 1))
   ≤ max_steps)%nat
  ∧ Forall (λ e, tag e = "walking"%string
                 ∧ snapshot e = start_maze corridor
                 ∧ ∃ q c, e.2 = PPath q
                          ∧ head q = Some (1, 3) ∧ last q = Some c
                          ∧ Forall (interior corridor) q ∧ linked q
                          ∧ ∀ x, x ∈ q → x ≠ c → x ∉ ({[(1, 1)]} : gset cell))
           (walk_events_of (walk corridor first_choice max_steps
                                 (start_maze corridor) {[(1, 1)]}
                                 [(1, 3)] (1, 3) 1)).
Proof.
  apply (walking_events_follow_the_walk corridor first_choice
           (start_maze corridor) {[(1, 1)]} (1, 3) 1).
  unfold interior, corridor. simpl. lia.
Defined.

(** ** The sizes a generator is built with *)

(** X12: the constructor raises nothing, whatever the two integers; the
    generator it returns has an odd width and an odd height, each the
    requested integer or the next one, and to build a generator from these
    two gives the same generator.  A negative odd integer is kept as it
    is. *)
Theorem construction_rounds_to_odd (w h : Z) (m : bool) :
  ∃ g, __init__ w h m = Done g
       ∧ width g `mod` 2 = 1 ∧ height g `mod` 2 = 1
       ∧ w ≤ width g ≤ w + 1 ∧ h ≤ height g ≤ h + 1
       ∧ (w `mod` 2 = 1 → width g = w) ∧ (h `mod` 2 = 1 → height g = h)
       ∧ multiple_solutions g = m ∧ maze g = None
       ∧ __init__ (width g) (height g) m = Done g.
Proof.
  eexists. split; [reflexivity|]. simpl.
  fold (rounded w) (rounded h).
  destruct (rounded_odd w) as [Hw1 Hw2], (rounded_odd h) as [Hh1 Hh2].
  assert (∀ n, n `mod` 2 = 1 → rounded n = n) as Hodd.
  { intros n Hn. unfold rounded. by rewrite bool_decide_eq_true_2. }
  split_and!; [done|done|lia|lia|lia|lia|apply Hodd|apply Hodd|done|done|].
  unfold __init__. fold (rounded (rounded w)) (rounded (rounded h)).
  by rewrite (Hodd (rounded w)), (Hodd (rounded h)) by done.
Qed.

(** X13: a generator built from a width and a height of two or more runs to
    its end, whatever the random source, and leaves a grid of the rounded
    size in [self.maze]; built from a width or a height below two, its run
    raises IndexError. *)
Theorem generation_from_two (w h : Z) (m : bool) (rnd : nat → nat) :
  ∃ g, __init__ w h m = Done g
       ∧ (2 ≤ w ∧ 2 ≤ h →
          ∃ g' evs final,
            wilson_algorithm_generator g rnd = Done (g', evs)
            ∧ maze g' = Some final
            ∧ shape (rounded h) (rounded w) final)
       ∧ (¬ (2 ≤ w ∧ 2 ≤ h) →
          wilson_algorithm_generator g rnd = Raise IndexError).
Proof.
  eexists. split; [reflexivity|].
  set (g := {| width := _ |}).
  assert (width g = rounded w ∧ height g = rounded h) as [Hw Hh] by done.
  destruct (rounded_odd w) as [Hw1 Hw2], (rounded_odd h) as [Hh1 Hh2].
  split.
  - intros [H2w H2h].
    assert (valid g) as Hvalid.
    { unfold valid. rewrite Hw, Hh. split_and!; [|done| |done];
        Z.div_mod_to_equations; lia. }
    destruct (finished_grid g rnd Hvalid)
      as (maze2 & s2 & k & evs & goal & chosen & final & _ & Hrun & _ & Hshf
          & _).
    eexists _, _, final. split; [exact Hrun|]. split; [done|].
    by rewrite <-Hw, <-Hh.
  - intros Hsmall. apply generator_small_raises. rewrite Hw, Hh.
    Z.div_mod_to_equations. lia.
Qed.

(** ** Where the goal goes *)

(** X17: at a valid size, with [multiple_solutions] off, the goal of the
    finished grid is, of the passage cells other than the start that can
    be reached from the start, the one in the lowest row and, in that row,
    the one furthest to the right; and in either mode, when every walk of
    the run has reached the in-maze set and there is more than one passage
    cell, the goal is in the corner: at row [height - 2] and column
    [width - 2]. *)
Theorem goal_is_lowest_rightmost (self : MazeGenerator) (rnd : nat → nat) :
  valid self →
  ∃ final,
    final_maze (wilson_algorithm_generator self rnd) = Some final
    ∧ (multiple_solutions self = false →
       ∀ g, peek final g = Some GOAL →
            first_scanned (λ q, passage self q ∧ goal_target final q) g)
    ∧ (Forall reached (generation_walks self rnd) →
       (1 < length (all_cells self))%nat →
       peek final (height self - 2, width self - 2) = Some GOAL).
Proof.
  intros Hvalid.
  destruct (finished_grid self rnd Hvalid)
    as (maze2 & s2 & k & evs & goal & chosen & final & _ & Hrun & Hsh2 & Hshf
        & Hlay & Hall & Hspan & Hgoal & Hnogoal & Hchosen & Hsingle & Hpeek).
  pose proof (lay_plain _ _ _ Hlay) as Hplain.
  assert (∀ q, q ∈ s2 → q ∉ chosen) as Hopen.
  { intros q Hq Hin. destruct (Hchosen q Hin) as (_ & Hwall & _).
    by rewrite (plain_open _ _ _ Hplain q Hq) in Hwall. }
  exists final. split_and!; [by rewrite Hrun| |].
  - intros Hoff g Hg. rewrite (Hsingle Hoff) in Hpeek.
    assert (∀ q, free final q ↔ free maze2 q) as Hfree.
    { intros q. unfold free. rewrite Hpeek.
      rewrite decide_False by apply not_elem_of_nil.
      destruct (decide (goal = Some q)) as [Hq|Hq].
      - destruct (Hgoal q Hq) as (Hs & _).
        by rewrite (plain_open _ _ _ Hplain q Hs).
      - destruct (decide (q = (1, 1))) as [->|Hne]; [|done].
        by rewrite (plain_open _ _ _ Hplain (1, 1))
          by (by apply Hall, start_passage). }
    assert (goal = Some g) as Hgg.
    { revert Hg. rewrite Hpeek. repeat case_decide; try done.
      by intros [?|?]%(plain_chars _ _ _ Hplain). }
    destruct (Hgoal g Hgg) as (Hs & Hne & Hreach & Hfirst).
    split.
    + split; [by apply (lay_passage _ _ _ Hlay)|]. split; [done|].
      by apply (reachable_iff maze2 final).
    + intros q (Hq & Hqne & Hqr). apply Hfirst; [by apply Hall|done|].
      by apply (reachable_iff maze2 final) in Hqr.
  - intros Hwalks Hmany.
    set (corner := (height self - 2, width self - 2)).
    destruct (other_passage self Hmany) as (p & Hp%elem_of_all_cells & Hpne).
    assert (passage self corner ∧ corner ≠ (1, 1)) as [Hcorner Hcne].
    { destruct Hvalid as [[Hh Hho] [Hw Hwo]].
      destruct Hp as [[Hp1 Hp1o] [Hp2 Hp2o]]. unfold passage, corner.
      simpl. split.
      - split_and!; try lia; Z.div_mod_to_equations; lia.
      - intros [= H1 H2]. apply Hpne. destruct p as [p1 p2]. simpl in *.
        f_equal; Z.div_mod_to_equations; lia. }
    pose proof (Hall corner Hcorner) as Hcs.
    pose proof (span_reach _ _ _ (Hspan Hwalks) corner Hcs) as Hcr.
    destruct goal as [g|]; [|by destruct Hcne; apply Hnogoal].
    destruct (Hgoal g eq_refl) as (Hs & Hne & _ & Hfirst).
    assert (corner = g) as <-.
    { destruct (Hfirst corner Hcs Hcne Hcr) as [?|Hbefore]; [done|].
      apply (lay_passage _ _ _ Hlay) in Hs as [[Hg1 Hg1o] [Hg2 Hg2o]].
      destruct Hvalid as [[Hh Hho] [Hw Hwo]].
      unfold scanned_before, corner in Hbefore. simpl in Hbefore.
      Z.div_mod_to_equations. lia. }
    rewrite Hpeek, decide_False by (by apply Hopen).
    by rewrite decide_True.
Qed.

Lemma goal_is_lowest_rightmost_witness :
  ∃ final,
    final_maze (wilson_algorithm_generator corridor counting) = Some final
    ∧ (multiple_solutions corridor = false →
       ∀ g, peek final g = Some GOAL →
            first_scanned (λ q, passage corridor q ∧ goal_target final q) g)
    ∧ (Forall reached (generation_walks corridor counting) →
       (1 < length (all_cells corridor))%nat →
       peek final (height corridor - 2, width corridor - 2) = Some GOAL).
Proof.
  apply (goal_is_lowest_rightmost corridor counting).
  unfold valid, corridor. simpl. split_and!; (lia || reflexivity).
Defined.

(** * The generation view *)

Lemma for_each_Done {A} (l : list Z) (body : Z → outcome (list A))
    (f : Z → list A) :
  (∀ i, i ∈ l → body i = Done (f i)) → for_each l body = Done (l ≫= f).
Proof.
  induction l as [|i l IH]; intros Hbody; simpl; [done|].
  rewrite (Hbody i) by left. rewrite Done_bind, IH, Done_bind; [done|].
  intros j Hj. apply Hbody. by right.
Qed.

Lemma elem_of_row_major (h w : Z) (p : cell) :
  p ∈ row_major h w ↔ inside h w p.
Proof.
  unfold row_major, inside. rewrite elem_of_product.
  rewrite !elem_of_range_up by lia. rewrite !Z.mod_1_r. lia.
Qed.

Lemma NoDup_row_major (h w : Z) : NoDup (row_major h w).
Proof. apply NoDup_product; by apply NoDup_range. Qed.

Section view_facts.
Variable get_width : surface → Z.
Variable self : Visualizer.t.
Variables (h w : Z) (maze_data : grid).
Hypothesis Hshape : shape h w maze_data.
Hypothesis Hh : 0 < h.
Hypothesis Hw : 0 ≤ w.

Lemma len_rows : len maze_data = h.
Proof. destruct Hshape as [Hlen _]. unfold len. rewrite Hlen. lia. Qed.

Lemma first_row : ∃ row0, getitem maze_data 0 = Done row0 ∧ len row0 = w.
Proof.
  destruct Hshape as [Hlen Hrows].
  destruct (lookup_lt_is_Some_2 maze_data 0) as [row0 Hrow0]; [lia|].
  exists row0. rewrite getitem_nonneg by done. change (Z.to_nat 0) with 0%nat.
  rewrite Hrow0. split; [done|].
  unfold len. rewrite (Forall_lookup_1 _ _ _ _ Hrows Hrow0). lia.
Qed.

(** The colour [draw_generation_cell] gives a cell of the grid. *)
Lemma draw_generation_cell_inside (p : cell) (offset_x offset_y : Z)
    (status : string) (extra_data : payload) :
  inside h w p →
  ∃ ch col,
    peek maze_data p = Some ch
    ∧ draw_generation_cell self maze_data p.1 p.2 offset_x offset_y
                           status extra_data
      = Done (DrawRect col (cell_rect self offset_x offset_y p))
    ∧ (col = WALK_COLOR ↔
       ch = OPEN ∧ on_walk status extra_data p.1 p.2 = true)
    ∧ (ch = WALL → col = WALL_COLOR).
Proof.
  intros Hin. pose proof Hin as [ch Hch]%(peek_is_Some _ _ _ _ Hshape).
  unfold draw_generation_cell.
  rewrite maze_get_peek by (unfold inside in Hin; lia).
  rewrite <-surjective_pairing, Hch, Done_bind.
  eexists ch, _. split; [done|]. split; [reflexivity|].
  unfold WALL, OPEN.
  repeat case_bool_decide; subst; try done;
    destruct (on_walk _ _ _ _); split; (done || (split; [done|]); try done);
    try (by intros [? ?]); by intros [[= ?] ?].
Qed.

(** The commands of one frame: a rectangle a cell, row by row, and the two
    lines of text. *)
Lemma draw_maze_generation_cells (status : string) (extra_data : payload) :
  ∃ (col : cell → color) (text inst_text : surface) (text_x inst_x : Z),
    draw_maze_generation get_width self maze_data status extra_data
    = Done (((λ p, DrawRect (col p)
                     (cell_rect self
                        ((Visualizer.screen_width self
                          - w * Visualizer.cell_size self) `div` 2)
                        ((Visualizer.screen_height self
                          - h * Visualizer.cell_size self) `div` 2) p))
               <$> row_major h w)
            ++ [Blit text (text_x, 20); Blit inst_text (inst_x, 50)])
    ∧ ∀ p, inside h w p →
           ∃ ch, peek maze_data p = Some ch
                 ∧ (col p = WALK_COLOR ↔
                    ch = OPEN ∧ on_walk status extra_data p.1 p.2 = true)
                 ∧ (ch = WALL → col p = WALL_COLOR).
Proof.
  set (ox := (Visualizer.screen_width self
              - w * Visualizer.cell_size self) `div` 2).
  set (oy := (Visualizer.screen_height self
              - h * Visualizer.cell_size self) `div` 2).
  set (colour := λ p : cell,
         match draw_generation_cell self maze_data p.1 p.2 ox oy
                                    status extra_data with
         | Done (DrawRect c _) => c
         | _ => WALL_COLOR
         end).
  assert (∀ p, inside h w p →
               draw_generation_cell self maze_data p.1 p.2 ox oy
                                    status extra_data
               = Done (DrawRect (colour p) (cell_rect self ox oy p))) as Hcell.
  { intros p Hp.
    destruct (draw_generation_cell_inside p ox oy status extra_data Hp)
      as (ch & c & _ & Heq & _).
    unfold colour. by rewrite Heq. }
  destruct first_row as (row0 & Hrow0 & Hlen0).
  unfold draw_maze_generation.
  rewrite Hrow0, Done_bind, Hlen0, len_rows. fold ox oy.
  rewrite (for_each_Done _ _
             (λ i, range 0 w 1 ≫= λ j,
                [DrawRect (colour (i, j)) (cell_rect self ox oy (i, j))])).
  2:{ intros i Hi. cbv beta. rewrite Done_bind, Hlen0.
      apply for_each_Done. intros j Hj. cbv beta.
      pose proof (Hcell (i, j)) as Hij. cbn [fst snd] in Hij.
      rewrite Hij, Done_bind; [done|].
      apply elem_of_range_up in Hi; [|lia].
      apply elem_of_range_up in Hj; [|lia]. unfold inside. simpl. lia. }
  rewrite Done_bind.
  eexists colour, _, _, _, _. split.
  - f_equal. f_equal. unfold row_major.
    generalize (range 0 h 1) (range 0 w 1). intros rows cols.
    induction rows as [|r rows IH]; [done|].
    cbn [mbind list_bind]. rewrite fmap_app, <-IH. f_equal.
    clear. induction cols as [|c cols IH]; [done|].
    cbn [mbind list_bind app fmap list_fmap] in *. by rewrite IH.
  - intros p Hp.
    destruct (draw_generation_cell_inside p ox oy status extra_data Hp)
      as (ch & c & Hch & Heq & Hwalk & Hwall).
    exists ch. unfold colour. rewrite Heq. done.
Qed.

End view_facts.

(** X18: on a grid of [h] rows of [w] characters, one row at least,
    [draw_maze_generation] raises nothing and asks for one rectangle a
    cell, row by row, then for the two lines of text at heights 20 and 50.
    The rectangle of the cell at row [i] and column [j] is [cell_size - 1]
    wide and high, [j] cells to the right and [i] cells below the corner
    of the maze, which is centred on the screen to the pixel.  With a cell
    size of one or more the rectangles of two cells have no pixel in
    common, and when the maze is no larger than the screen they all lie on
    the screen. *)
Theorem generation_view_layout (get_width : surface → Z)
    (self : Visualizer.t) (h w : Z) (maze_data : grid) (status : string)
    (extra_data : payload) :
  shape h w maze_data → 0 < h → 0 ≤ w →
  ∃ (col : cell → color) (text inst_text : surface) (text_x inst_x : Z)
    (offset_x offset_y : Z),
    draw_maze_generation get_width self maze_data status extra_data
    = Done (((λ p, DrawRect (col p) (cell_rect self offset_x offset_y p))
               <$> row_major h w)
            ++ [Blit text (text_x, 20); Blit inst_text (inst_x, 50)])
    ∧ 0 ≤ Visualizer.screen_width self
          - (offset_x + w * Visualizer.cell_size self) - offset_x ≤ 1
    ∧ 0 ≤ Visualizer.screen_height self
          - (offset_y + h * Visualizer.cell_size self) - offset_y ≤ 1
    ∧ (1 ≤ Visualizer.cell_size self →
       ∀ p q, p ≠ q →
              apart (cell_rect self offset_x offset_y p)
                    (cell_rect self offset_x offset_y q))
    ∧ (0 ≤ Visualizer.cell_size self →
       w * Visualizer.cell_size self ≤ Visualizer.screen_width self →
       h * Visualizer.cell_size self ≤ Visualizer.screen_height self →
       ∀ p, inside h w p →
            on_screen (Visualizer.screen_width self)
                      (Visualizer.screen_height self)
                      (cell_rect self offset_x offset_y p)).
Proof.
  intros Hsh Hh Hw.
  destruct (draw_maze_generation_cells get_width self h w maze_data Hsh Hh Hw
              status extra_data)
    as (col & text & inst_text & text_x & inst_x & Hrun & _).
  set (cs := Visualizer.cell_size self) in *.
  set (ox := (Visualizer.screen_width self - w * cs) `div` 2) in *.
  set (oy := (Visualizer.screen_height self - h * cs) `div` 2) in *.
  exists col, text, inst_text, text_x, inst_x, ox, oy.
  split_and!; [done| | | | | |].
  - unfold ox. Z.div_mod_to_equations. lia.
  - unfold ox. Z.div_mod_to_equations. lia.
  - unfold oy. Z.div_mod_to_equations. lia.
  - unfold oy. Z.div_mod_to_equations. lia.
  - intros Hcs [p1 p2] [q1 q2] Hne. unfold apart, cell_rect. simpl.
    fold cs.
    destruct (Z.lt_trichotomy p2 q2) as [?|[->|?]]; [nia| |nia].
    destruct (Z.lt_trichotomy p1 q1) as [?|[->|?]]; [nia|done|nia].
  - intros Hcs Hfw Hfh [p1 p2] [Hp1 Hp2]. unfold on_screen, cell_rect.
    simpl in *. fold cs.
    assert (0 ≤ ox ∧ ox + w * cs ≤ Visualizer.screen_width self) as [? ?].
    { unfold ox. Z.div_mod_to_equations. lia. }
    assert (0 ≤ oy ∧ oy + h * cs ≤ Visualizer.screen_height self) as [? ?].
    { unfold oy. Z.div_mod_to_equations. lia. }
    nia.
Qed.

Lemma generation_view_layout_witness :
  ∃ (col : cell → color) (text inst_text : surface) (text_x inst_x : Z)
    (offset_x offset_y : Z),
    draw_maze_generation (λ _, 0) (Visualizer.__init__ 1920 1080)
                         open_corridor "walking" (PPath [(1, 3)])
    = Done (((λ p, DrawRect (col p)
                     (cell_rect (Visualizer.__init__ 1920 1080)
                                offset_x offset_y p))
               <$> row_major 3 7)
            ++ [Blit text (text_x, 20); Blit inst_text (inst_x, 50)])
    ∧ 0 ≤ Visualizer.screen_width (Visualizer.__init__ 1920 1080)
          - (offset_x + 7 * Visualizer.cell_size (Visualizer.__init__ 1920 1080))
          - offset_x ≤ 1
    ∧ 0 ≤ Visualizer.screen_height (Visualizer.__init__ 1920 1080)
          - (offset_y + 3 * Visualizer.cell_size (Visualizer.__init__ 1920 1080))
          - offset_y ≤ 1
    ∧ (1 ≤ Visualizer.cell_size (Visualizer.__init__ 1920 1080) →
       ∀ p q, p ≠ q →
              apart (cell_rect (Visualizer.__init__ 1920 1080)
                               offset_x offset_y p)
                    (cell_rect (Visualizer.__init__ 1920 1080)
                               offset_x offset_y q))
    ∧ (0 ≤ Visualizer.cell_size (Visualizer.__init__ 1920 1080) →
       7 * Visualizer.cell_size (Visualizer.__init__ 1920 1080)
       ≤ Visualizer.screen_width (Visualizer.__init__ 1920 1080) →
       3 * Visualizer.cell_size (Visualizer.__init__ 1920 1080)
       ≤ Visualizer.screen_height (Visualizer.__init__ 1920 1080) →
       ∀ p, inside 3 7 p →
            on_screen (Visualizer.screen_width (Visualizer.__init__ 1920 1080))
                      (Visualizer.screen_height (Visualizer.__init__ 1920 1080))
                      (cell_rect (Visualizer.__init__ 1920 1080)
                                 offset_x offset_y p)).
Proof.
  apply (generation_view_layout (λ _, 0) (Visualizer.__init__ 1920 1080) 3 7
           open_corridor "walking" (PPath [(1, 3)])).
  - split; [reflexivity|]. vm_compute. repeat constructor.
  - lia.
  - lia.
Defined.

(** X19: the cell size [Visualizer.__init__] computes is the largest for
    which a maze of [MAZE_WIDTH] by [MAZE_HEIGHT] cells fits a quadrant; it
    is one pixel or more exactly when the display is 122 pixels wide and
    162 high or more; and whenever it is not negative the maze fits the
    display. *)
Theorem cell_size_is_largest_fit (current_w current_h : Z) :
  MAZE_WIDTH * Visualizer.cell_size (Visualizer.__init__ current_w current_h)
  ≤ Visualizer.quadrant_width (Visualizer.__init__ current_w current_h)
  ∧ MAZE_HEIGHT * Visualizer.cell_size (Visualizer.__init__ current_w current_h)
    ≤ Visualizer.quadrant_height (Visualizer.__init__ current_w current_h)
  ∧ (Visualizer.quadrant_width (Visualizer.__init__ current_w current_h)
     < MAZE_WIDTH
       * (Visualizer.cell_size (Visualizer.__init__ current_w current_h) + 1)
     ∨ Visualizer.quadrant_height (Visualizer.__init__ current_w current_h)
       < MAZE_HEIGHT
         * (Visualizer.cell_size (Visualizer.__init__ current_w current_h) + 1))
  ∧ (1 ≤ Visualizer.cell_size (Visualizer.__init__ current_w current_h)
     ↔ 122 ≤ current_w ∧ 162 ≤ current_h)
  ∧ (0 ≤ Visualizer.cell_size (Visualizer.__init__ current_w current_h) →
     MAZE_WIDTH * Visualizer.cell_size (Visualizer.__init__ current_w current_h)
     ≤ current_w
     ∧ MAZE_HEIGHT
       * Visualizer.cell_size (Visualizer.__init__ current_w current_h)
       ≤ current_h).
Proof.
  unfold Visualizer.__init__, MAZE_WIDTH, MAZE_HEIGHT, MARGIN. simpl.
  split_and!; try split; intros; Z.div_mod_to_equations; lia.
Qed.

(** ** The colour of the walk *)

Section walls_on_the_walk.
Variable self : MazeGenerator.
Variable rnd : nat → nat.
Hypothesis Hvalid : valid self.

(** In every event of the rounds that carries a path, the cells of the
    path but the last are walls of the grid the event hands out. *)
Lemma rounds_walls (fuel : nat) (maze : grid) (s : gset cell) (k : nat) :
  shape (height self) (width self) maze → layout self maze s →
  (length (remaining_of self s) ≤ fuel)%nat →
  ∃ mazef sf kf evs,
    rounds self rnd fuel maze s (remaining_of self s) k
      = Done (mazef, sf, kf, evs)
    ∧ Forall (λ e, ∀ q, e.2 = PPath q →
                        ∃ c, last q = Some c
                             ∧ ∀ x, x ∈ q → x ≠ c →
                                    peek (snapshot e) x = Some WALL) evs.
Proof.
  revert maze s k. induction fuel as [|fuel IH]; intros maze s k Hsh Hlay Hlen.
  { destruct (remaining_of self s) eqn:Hrem; [|simpl in Hlen; lia].
    exists maze, s, k, []. simpl. by split. }
  destruct (remaining_of self s) as [|c0 rem] eqn:Hrem.
  { exists maze, s, k, []. simpl. by split. }
  simpl.
  set (current := choice rnd k c0 (c0 :: rem)).
  assert (current ∈ remaining_of self s) as Hcur.
  { rewrite Hrem. by apply choice_elem_of. }
  apply list_elem_of_filter in Hcur as Hcur2. destruct Hcur2 as [Hfresh Hpass].
  apply elem_of_all_cells in Hpass.
  pose proof (passage_interior _ _ Hvalid Hpass) as Hint.
  pose proof (walk_stream self rnd max_steps maze s [current] current (S k)
                (trail_start self s current Hint)) as [_ Hwevs].
  destruct (walk _ _ _ _ _ _ _ _) as [[[p c] k1] wevs] eqn:Hwalk.
  simpl in Hwevs.
  apply walk_trail in Hwalk as (Htrail & Hhead & _);
    [|by apply trail_start].
  simpl in Hhead.
  pose proof (trail_interior _ _ _ _ Htrail) as Hpint.
  destruct (connect_Done self maze s p Hsh Hpint)
    as (cevs & Hconn & _ & Hcevs).
  rewrite Hconn, Done_bind.
  assert (length (remaining_of self (list_to_set p ∪ s))
          < length (remaining_of self s))%nat as Hlt.
  { eapply remaining_of_shrinks; [apply union_subseteq_r|done|].
    apply elem_of_union_l, elem_of_list_to_set.
    by apply head_Some_elem_of. }
  rewrite Hrem in Hlt. simpl in Hlt, Hlen.
  destruct (IH (pokes maze (trace p)) (list_to_set p ∪ s) k1)
    as (mazef & sf & kf & evs & Hrec & Hevs).
  { by apply shape_pokes. }
  { by eapply layout_step. }
  { lia. }
  rewrite Hrec, Done_bind.
  eexists mazef, sf, kf, _. split; [reflexivity|].
  constructor; [done|]. apply Forall_app. split.
  { eapply Forall_impl; [exact Hwevs|].
    intros e (Hsnap & q & c' & Hq & Htr & Hhq) q' Hq'.
    rewrite Hq in Hq'. injection Hq' as <-. exists c'.
    split; [apply Htr|]. intros x Hx Hne. rewrite Hsnap.
    destruct (trail_passages self s q c' current Hpass Htr Hhq)
      as [Hqp _].
    rewrite Forall_forall in Hqp. pose proof (Hqp x Hx) as Hxp.
    pose proof (interior_inside self x (passage_interior self x Hvalid Hxp))
      as [ch Hch]%(peek_is_Some _ _ _ _ Hsh).
    rewrite Hch. f_equal.
    destruct (plain_chars _ _ _ (lay_plain _ _ _ Hlay) x ch Hch) as [->| ->];
      [done|].
    destruct (trail_fresh _ _ _ _ Htr x Hx Hne).
    apply (lay_cells _ _ _ Hlay); [by apply passage_odd2 in Hxp|].
    unfold free. by rewrite Hch. }
  apply Forall_app. split.
  { eapply Forall_impl; [exact Hcevs|]. by intros e [_ [c' ->]] q. }
  by constructor.
Qed.

End walls_on_the_walk.

Lemma filter_none {A} (P : A → Prop) `{!∀ x, Decision (P x)} (l : list A) :
  Forall (λ x, ¬ P x) l → filter P l = [].
Proof.
  induction 1 as [|x l Hx _ IH]; [done|]. by rewrite filter_cons_False.
Qed.

Lemma filter_fmap_comp {A B} (f : A → B) (P : B → Prop)
    `{!∀ y, Decision (P y)} (l : list A) :
  filter P (f <$> l) = f <$> filter (λ x, P (f x)) l.
Proof.
  induction l as [|x l IH]; [done|]. rewrite fmap_cons, !filter_cons.
  case_decide; by rewrite IH.
Qed.

Lemma length_filter_one {A} (P : A → Prop) `{!∀ x, Decision (P x)}
    (l : list A) (c : A) :
  NoDup l → (∀ x, x ∈ l → P x → x = c) → (length (filter P l) ≤ 1)%nat.
Proof.
  intros Hnd Hc.
  assert (filter P l ⊆+ [c]) as Hsub; [|by apply submseteq_length in Hsub].
  apply NoDup_submseteq; [by apply NoDup_filter|].
  intros x [Hx Hin]%list_elem_of_filter. apply list_elem_of_singleton.
  by apply Hc.
Qed.

(** X20: at a valid size, in the frame of any event of the run at most one
    rectangle is drawn in the colour of the walk, and none unless the event
    is a walking event: the cells of the path but the last are walls
    still, and a wall is drawn in the colour of the walls. *)
Theorem walk_colour_on_one_cell (get_width : surface → Z)
    (vis : Visualizer.t) (self : MazeGenerator) (rnd : nat → nat) :
  valid self →
  ∃ g' evs,
    wilson_algorithm_generator self rnd = Done (g', evs)
    ∧ Forall (λ e, ∃ cmds,
                draw_maze_generation get_width vis (snapshot e) (tag e) e.2
                = Done cmds
                ∧ (length (filter (λ c, walk_rect c = true) cmds) ≤ 1)%nat
                ∧ (tag e ≠ "walking"%string →
                   filter (λ c, walk_rect c = true) cmds = [])) evs.
Proof.
  intros Hvalid.
  destruct (finished_grid self rnd Hvalid)
    as (maze2 & s2 & k & evs & goal & chosen & final & Hrounds & Hrun & _
        & Hshf & _).
  destruct (rounds_stream self rnd Hvalid
              (length (remaining_of self {[(1, 1)]})) (start_maze self)
              {[(1, 1)]} 0%nat (shape_start_maze self) (Nat.le_refl _))
    as (mazef & sf & kf & evs' & Hrounds' & _ & _ & Hshapes & _).
  rewrite Hrounds in Hrounds'. injection Hrounds' as <- <- <- <-.
  destruct (rounds_walls self rnd Hvalid
              (length (remaining_of self {[(1, 1)]})) (start_maze self)
              {[(1, 1)]} 0%nat (shape_start_maze self)
              (layout_start self Hvalid) (Nat.le_refl _))
    as (mazef & sf & kf & evs' & Hrounds' & Hwalls).
  rewrite Hrounds in Hrounds'. injection Hrounds' as <- <- <- <-.
  eexists _, _. split; [exact Hrun|].
  assert (0 < height self ∧ 0 ≤ width self) as [Hh Hw].
  { destruct Hvalid as [[? _] [? _]]. lia. }
  assert (∀ e, shape (height self) (width self) (snapshot e) →
               (∀ q, e.2 = PPath q →
                     ∃ c, last q = Some c
                          ∧ ∀ x, x ∈ q → x ≠ c →
                                 peek (snapshot e) x = Some WALL) →
               ∃ cmds,
                 draw_maze_generation get_width vis (snapshot e) (tag e) e.2
                 = Done cmds
                 ∧ (length (filter (λ c, walk_rect c = true) cmds) ≤ 1)%nat
                 ∧ (tag e ≠ "walking"%string →
                    filter (λ c, walk_rect c = true) cmds = [])) as Hframe.
  { intros e Hsh Hpath.
    destruct (draw_maze_generation_cells get_width vis _ _ (snapshot e) Hsh
                Hh Hw (tag e) e.2)
      as (col & text & inst_text & text_x & inst_x & Hdraw & Hcol).
    eexists. split; [exact Hdraw|].
    rewrite filter_app, (filter_none _ [_; _]), app_nil_r
      by (repeat constructor; simpl; done).
    rewrite filter_fmap_comp, length_fmap.
    assert (∀ p, p ∈ row_major (height self) (width self) →
                 col p = WALK_COLOR →
                 tag e = "walking"%string
                 ∧ ∃ q, e.2 = PPath q ∧ last q = Some p) as Hone.
    { intros p Hp%elem_of_row_major Hwalk.
      destruct (Hcol p Hp) as (ch & Hch & Hiff & _).
      destruct (proj1 Hiff Hwalk) as [Hopen Hon]. rewrite Hopen in Hch.
      unfold on_walk in Hon.
      apply andb_prop in Hon as [Htag%bool_decide_eq_true Hon].
      split; [done|].
      destruct e.2 as [|q|] eqn:He; try done.
      apply andb_prop in Hon as [_ Hin%bool_decide_eq_true].
      rewrite <-surjective_pairing in Hin.
      exists q. split; [done|].
      destruct (Hpath q eq_refl) as (c & Hlast & Hwall).
      destruct (decide (p = c)) as [->|Hne]; [done|].
      by rewrite (Hwall p Hin Hne) in Hch. }
    split.
    - set (arrived := match e.2 with PPath q => last q | _ => None end).
      assert (∀ p, p ∈ row_major (height self) (width self) →
                   col p = WALK_COLOR → arrived = Some p) as Hat.
      { intros p Hp Hwalk. destruct (Hone p Hp Hwalk) as (_ & q & Hq & Hp').
        unfold arrived. by rewrite Hq. }
      destruct arrived as [c|].
      + apply (length_filter_one _ _ c); [apply NoDup_row_major|].
        intros p Hp Hwalk. simpl in Hwalk.
        apply bool_decide_eq_true in Hwalk.
        specialize (Hat p Hp Hwalk). congruence.
      + rewrite filter_none; [simpl; lia|].
        apply Forall_forall. intros p Hp Hwalk. simpl in Hwalk.
        apply bool_decide_eq_true in Hwalk.
        by specialize (Hat p Hp Hwalk).
    - intros Htag. rewrite filter_none; [done|].
      apply Forall_forall. intros p Hp Hwalk. simpl in Hwalk.
      apply bool_decide_eq_true in Hwalk.
      by destruct (Hone p Hp Hwalk) as (? & _). }
  constructor.
  { apply Hframe; [by apply shape_start_maze|]. by intros q. }
  apply Forall_app. split.
  - apply Forall_forall. intros e He.
    rewrite Forall_forall in Hshapes, Hwalls.
    apply Hframe; [by apply Hshapes|by apply Hwalls].
  - constructor; [|done]. apply Hframe; [done|]. by intros q.
Qed.

Lemma walk_colour_on_one_cell_witness :
  ∃ g' evs,
    wilson_algorithm_generator corridor counting = Done (g', evs)
    ∧ Forall (λ e, ∃ cmds,
                draw_maze_generation (λ _, 0) (Visualizer.__init__ 1920 1080)
                                     (snapshot e) (tag e) e.2
                = Done cmds
                ∧ (length (filter (λ c, walk_rect c = true) cmds) ≤ 1)%nat
                ∧ (tag e ≠ "walking"%string →
                   filter (λ c, walk_rect c = true) cmds = [])) evs.
Proof.
  apply (walk_colour_on_one_cell (λ _, 0) (Visualizer.__init__ 1920 1080)
           corridor counting).
  unfold valid, corridor. simpl. split_and!; (lia || reflexivity).
Defined.

(** ** The frames of a generation *)

Section frames_facts.
Variable get_width : surface → Z.
Variable self : Visualizer.t.
Variable input : nat → list pygame_event.
Variables (h w : Z).
Hypothesis Hh : 0 < h.
Hypothesis Hw : 0 ≤ w.

(** The loop of [generate_maze] over events whose grids have a size: it
    draws a frame an event until an event of the keyboard or the window
    asks to quit. *)
Lemma frames_spec (n : nat) (evs : list event) :
  Forall (λ e, shape h w (snapshot e)) evs →
  ∃ stopped fs,
    frames get_width self input n evs = Done (stopped, fs)
    ∧ (stopped = true ↔
       ∃ i, (i < length evs)%nat ∧ existsb quits (input (n + i)%nat) = true)
    ∧ (length fs ≤ length evs)%nat
    ∧ (stopped = false → length fs = length evs)
    ∧ Forall (λ f, ∃ cs, f = Tick FPS :: Fill (0, 0, 0) :: cs) fs.
Proof.
  intros Hevs. revert n.
  induction Hevs as [|[[maze_data status] extra_data] evs Hsh _ IH]; intros n.
  { exists false, []. split_and!; [done| |done|done|done].
    split; [done|]. intros (i & Hi & _). simpl in Hi. lia. }
  destruct (draw_maze_generation_cells get_width self h w maze_data Hsh Hh Hw
              status extra_data) as (col & t1 & t2 & x1 & x2 & Hdraw & _).
  cbn [frames]. rewrite Hdraw, Done_bind.
  destruct (existsb quits (input n)) eqn:Hquit.
  - eexists true, _. split_and!; [done| |simpl; lia|done|].
    + split; [|done]. intros _. exists 0%nat. simpl.
      rewrite Nat.add_0_r. split; [lia|done].
    + constructor; [|done]. by eexists.
  - destruct (IH (S n)) as (stopped & fs & Hrec & Hiff & Hle & Heq & Hfs).
    rewrite Hrec, Done_bind.
    eexists stopped, _. split_and!; [done| |simpl; lia| |].
    + rewrite Hiff. split.
      * intros (i & Hi & Hq). exists (S i). simpl.
        rewrite <-Nat.add_succ_comm. split; [lia|done].
      * intros ([|i] & Hi & Hq).
        { rewrite Nat.add_0_r in Hq. congruence. }
        exists i. simpl in Hi. rewrite <-Nat.add_succ_comm in Hq.
        split; [lia|done].
    + intros Hs. simpl. by rewrite Heq.
    + constructor; [|done]. by eexists.
Qed.

End frames_facts.

(** X21: [generate_maze] raises nothing.  It returns [None] exactly when,
    in the frame of one of the events of the generator, the window is
    closed or the key Q is pressed; otherwise what it returns is the grid
    the generator has kept in [self.maze], of [MAZE_HEIGHT] rows of
    [MAZE_WIDTH] characters, after one frame an event.  Every frame begins
    with the tick of the clock at [FPS] and a black screen. *)
Theorem generate_maze_returns (get_width : surface → Z)
    (self : Visualizer.t) (rnd : nat → nat)
    (input : nat → list pygame_event) :
  ∃ generator g' evs result fs,
    __init__ MAZE_WIDTH MAZE_HEIGHT (Visualizer.multiple_solutions self)
    = Done generator
    ∧ wilson_algorithm_generator generator rnd = Done (g', evs)
    ∧ generate_maze get_width self rnd input = Done (result, fs)
    ∧ (result = None ↔
       ∃ n, (n < length evs)%nat ∧ existsb quits (input n) = true)
    ∧ (∀ final, result = Some final →
                maze g' = Some final
                ∧ shape MAZE_HEIGHT MAZE_WIDTH final
                ∧ length fs = length evs)
    ∧ (length fs ≤ length evs)%nat
    ∧ Forall (λ f, ∃ cs, f = Tick FPS :: Fill (0, 0, 0) :: cs) fs.
Proof.
  set (generator := {| width := MAZE_WIDTH; height := MAZE_HEIGHT;
                       multiple_solutions := Visualizer.multiple_solutions self;
                       maze := None |}).
  assert (valid generator) as Hvalid.
  { unfold valid, generator, MAZE_WIDTH, MAZE_HEIGHT. simpl.
    split_and!; (lia || reflexivity). }
  destruct (finished_grid generator rnd Hvalid)
    as (maze2 & s2 & k & evs & goal & chosen & final & Hrounds & Hrun & _
        & Hshf & _).
  destruct (rounds_stream generator rnd Hvalid
              (length (remaining_of generator {[(1, 1)]}))
              (start_maze generator) {[(1, 1)]} 0%nat
              (shape_start_maze generator) (Nat.le_refl _))
    as (mazef & sf & kf & evs' & Hrounds' & _ & _ & Hshapes & _).
  rewrite Hrounds in Hrounds'. injection Hrounds' as <- <- <- <-.
  set (all := (start_maze generator, "initial"%string, PCell (1, 1)) :: evs
                ++ [(final, "complete"%string, PNone)]) in *.
  assert (Forall (λ e, shape MAZE_HEIGHT MAZE_WIDTH (snapshot e)) all)
    as Hall.
  { constructor; [apply (shape_start_maze generator)|].
    apply Forall_app. split.
    - eapply Forall_impl; [exact Hshapes|]. by intros e (? & _).
    - by constructor. }
  destruct (frames_spec get_width self input MAZE_HEIGHT MAZE_WIDTH
              ltac:(done) ltac:(done) 0 all Hall)
    as (stopped & fs & Hframes & Hiff & Hle & Heq & Hfs).
  eexists generator, _, all, (if stopped then None else Some final), fs.
  split_and!; [done|exact Hrun| | | |done|done].
  - unfold generate_maze.
    change (__init__ MAZE_WIDTH MAZE_HEIGHT
                     (Visualizer.multiple_solutions self))
      with (Done generator).
    rewrite Done_bind, Hrun, Done_bind, Hframes, Done_bind. done.
  - rewrite <-Hiff. by destruct stopped.
  - intros final' Hres. destruct stopped; [done|].
    injection Hres as <-. split_and!; [done|done|by apply Heq].
Qed.

(** ** The walk has no dead end *)

Section no_dead_end.
Variable self : MazeGenerator.
Variable rnd : nat → nat.
Hypothesis Hvalid : valid self.

(** The neighbours of a passage cell are passage cells. *)
Lemma neighbors_passage (p n : cell) :
  passage self p → n ∈ neighbors self p → passage self n.
Proof.
  intros Hp [Hint Hadj]%elem_of_neighbors.
  apply interior_odd2_passage; [done|].
  apply (coarse_adjacent_odd2 p); [|done]. by apply passage_odd2 in Hp.
Qed.

(** With a second passage cell on the grid, every passage cell has a
    neighbour. *)
Lemma neighbors_nonempty (p other : cell) :
  passage self p → passage self other → other ≠ p → neighbors self p ≠ [].
Proof.
  intros Hp Ho Hne Hnil.
  destruct Hvalid as [[Hh Hhodd] [Hw Hwodd]].
  destruct p as [r c], other as [r' c'].
  destruct Hp as [[Hr Hrodd] [Hc Hcodd]], Ho as [[Hr' Hrodd'] [Hc' Hcodd']].
  cbn [fst snd] in *.
  assert (5 ≤ height self ∨ 5 ≤ width self) as [H5|H5].
  { destruct (decide (height self = 3)) as [H3|];
      [|left; Z.div_mod_to_equations; lia].
    destruct (decide (width self = 3)) as [W3|];
      [|right; Z.div_mod_to_equations; lia].
    destruct Hne. f_equal; Z.div_mod_to_equations; lia. }
  - destruct (decide (r = 1)) as [->|].
    + assert ((3, c) ∈ neighbors self (1, c)) as Hin.
      { apply elem_of_neighbors. unfold interior, coarse_adjacent.
        cbn [fst snd]. Z.div_mod_to_equations. lia. }
      rewrite Hnil in Hin. by apply elem_of_nil in Hin.
    + assert ((r - 2, c) ∈ neighbors self (r, c)) as Hin.
      { apply elem_of_neighbors. unfold interior, coarse_adjacent.
        cbn [fst snd]. Z.div_mod_to_equations. lia. }
      rewrite Hnil in Hin. by apply elem_of_nil in Hin.
  - destruct (decide (c = 1)) as [->|].
    + assert ((r, 3) ∈ neighbors self (r, 1)) as Hin.
      { apply elem_of_neighbors. unfold interior, coarse_adjacent.
        cbn [fst snd]. Z.div_mod_to_equations. lia. }
      rewrite Hnil in Hin. by apply elem_of_nil in Hin.
    + assert ((r, c - 2) ∈ neighbors self (r, c)) as Hin.
      { apply elem_of_neighbors. unfold interior, coarse_adjacent.
        cbn [fst snd]. Z.div_mod_to_equations. lia. }
      rewrite Hnil in Hin. by apply elem_of_nil in Hin.
Qed.

Lemma walk_runs_out (other : cell) (budget : nat) (maze : grid)
    (s : gset cell) (path : list cell) (current : cell) (k : nat) :
  passage self other → other ∈ s →
  passage self current →
  let w := walk self rnd budget maze s path current k in
  passage self (walk_stop w)
  ∧ (walk_stop w ∈ s ∨ length (walk_events_of w) = budget).
Proof.
  intros Ho Hos. revert path current k.
  induction budget as [|budget IH]; intros path current k Hcur; simpl.
  { split; [done|by right]. }
  case_decide as Hin; [split; [done|by left]|].
  assert (other ≠ current) as Hne by (by intros ->).
  pose proof (neighbors_nonempty current other Hcur Ho Hne) as Hnb.
  destruct (neighbors self current) as [|n0 ns] eqn:Hns; [done|].
  rewrite <-Hns.
  set (next_cell := choice rnd k n0 (neighbors self current)).
  assert (next_cell ∈ neighbors self current) as Hnext.
  { apply choice_elem_of. by rewrite Hns. }
  specialize (IH (extend_path path next_cell) next_cell (S k)
                 (neighbors_passage _ _ Hcur Hnext)).
  destruct (walk _ _ _ _ _ _ _ _) as [[[p1 c1] k1] evs1].
  unfold walk_stop, walk_events_of in *. simpl in *.
  destruct IH as [Hp [Hs|Hlen]]; (split; [done|]); [by left|right; lia].
Qed.

End no_dead_end.

(** X22: at a valid size the walk of a round never finds the list of
    neighbours empty.  Started as the round starts it, on a cell that is
    left while (1, 1) is in the in-maze set, the walk stops on a cell of the
    in-maze set or after as many walking events as its bound allows, and
    the cell it stops on is a passage cell. *)
Theorem walk_has_no_dead_end (self : MazeGenerator) (rnd : nat → nat)
    (budget : nat) (maze : grid) (s : gset cell) (start : cell) (k : nat) :
  valid self →
  (1, 1) ∈ s →
  start ∈ remaining_of self s →
  let w := walk self rnd budget maze s [start] start k in
  (∀ p, passage self p → neighbors self p ≠ [])
  ∧ passage self (walk_stop w)
  ∧ (walk_stop w ∈ s ∨ length (walk_events_of w) = budget).
Proof.
  intros Hvalid Hone Hstart.
  apply list_elem_of_filter in Hstart as [Hnin Hstart%elem_of_all_cells].
  pose proof (start_passage self Hvalid) as Hp1.
  assert (start ≠ (1, 1)) as Hne by (by intros ->).
  cbv zeta. split; [|by apply (walk_runs_out self rnd Hvalid (1, 1))].
  intros p Hp. destruct (decide (p = (1, 1))) as [->|Hp'].
  - by apply (neighbors_nonempty self Hvalid (1, 1) start).
  - apply (neighbors_nonempty self Hvalid p (1, 1)); [done..|].
    by intros <-.
Qed.

Lemma walk_has_no_dead_end_witness :
  let w := walk corridor counting 4 (start_maze corridor) {[(1, 1)]}
                [(1, 5)] (1, 5) 1 in
  (∀ p, passage corridor p → neighbors corridor p ≠ [])
  ∧ passage corridor (walk_stop w)
  ∧ (walk_stop w ∈ ({[(1, 1)]} : gset cell)
     ∨ length (walk_events_of w) = 4%nat).
Proof.
  apply (walk_has_no_dead_end corridor counting).
  - unfold valid, corridor. simpl. split_and!; (lia || reflexivity).
  - by apply elem_of_singleton.
  - vm_compute. right. left.
Defined.

(** ** Placing the goal twice *)

Lemma poke_poke (maze : grid) (p : cell) (ch : ascii) :
  poke (poke maze p ch) p ch = poke maze p ch.
Proof.
  unfold poke. rewrite list_alter_alter_eq.
  apply list_alter_ext; [|done].
  intros row _. simpl. apply list_insert_insert_eq.
Qed.

(** X23: placing the goal is idempotent.  On the grid that
    [place_connected_goal] returns, a second call returns the same grid and
    the same answer: the goal it has written does not change what is
    reachable, and the scan finds the same cell again. *)
Theorem goal_placement_twice (self : MazeGenerator) (maze maze' : grid)
    (placed : bool) :
  shape (height self) (width self) maze →
  place_connected_goal self maze = Done (maze', placed) →
  place_connected_goal self maze' = Done (maze', placed).
Proof.
  intros Hsh. unfold place_connected_goal. cbv zeta.
  destruct (get_reachable_positions_spec self maze Hsh (1, 1))
    as (vf & Hreach & Hvf).
  rewrite Hreach, Done_bind.
  assert (∀ g, interior self g → g ∈ vf → g ≠ (1, 1) →
               get_reachable_positions self (poke maze g GOAL) (1, 1)
               = Done vf) as Hsame.
  { intros g Hint Hg Hne.
    destruct (get_reachable_positions_spec self (poke maze g GOAL)
                (shape_poke _ _ maze g GOAL Hsh) (1, 1)) as (vf' & -> & Hvf').
    f_equal. apply set_eq. intros x. rewrite Hvf, Hvf'.
    apply reachable_iff. intros q. apply free_poke_iff.
    - by apply (interior_nonneg self).
    - done.
    - apply Hvf in Hg. by destruct (reachable_free _ _ _ Hg) as [<-|]. }
  destruct (first_reachable vf (1, 1) (candidates self (-2)))
    as [[r c]|] eqn:H1.
  { pose proof H1 as H1'.
    apply first_reachable_Some in H1' as (Hcand & Hin & Hne).
    apply candidates_interior in Hcand; [|lia].
    rewrite (maze_set_interior self maze (r, c)), Done_bind by done.
    intros [= <- <-]. cbn [fst snd].
    rewrite (Hsame (r, c)), Done_bind, H1 by done.
    rewrite (maze_set_interior self _ (r, c)), Done_bind
      by (by apply shape_poke || done).
    cbn [fst snd]. by rewrite poke_poke. }
  destruct (first_reachable vf (1, 1) (candidates self (-1)))
    as [[r c]|] eqn:H2.
  { pose proof H2 as H2'.
    apply first_reachable_Some in H2' as (Hcand & Hin & Hne).
    apply candidates_interior in Hcand; [|lia].
    rewrite (maze_set_interior self maze (r, c)), Done_bind by done.
    intros [= <- <-]. cbn [fst snd].
    rewrite (Hsame (r, c)), Done_bind, H1, H2 by done.
    rewrite (maze_set_interior self _ (r, c)), Done_bind
      by (by apply shape_poke || done).
    cbn [fst snd]. by rewrite poke_poke. }
  intros [= <- <-]. by rewrite Hreach, Done_bind, H1, H2.
Qed.

Lemma goal_placement_twice_witness :
  place_connected_goal corridor (poke open_corridor (1, 5) GOAL)
  = Done (poke open_corridor (1, 5) GOAL, true).
Proof.
  apply (goal_placement_twice corridor open_corridor).
  - split; [reflexivity|]. repeat constructor.
  - vm_compute. reflexivity.
Defined.

(** ** The goal and the start *)

(** The marks do not change which cells are walls. *)
Lemma marked_free (self : MazeGenerator) (maze2 tree : grid) (s2 : gset cell)
    (goal : option cell) :
  plain self maze2 s2 → (1, 1) ∈ s2 →
  (∀ g, goal = Some g → g ∈ s2) →
  (∀ q, peek tree q = if decide (goal = Some q) then Some GOAL
                      else if decide (q = (1, 1)) then Some START
                      else peek maze2 q) →
  ∀ q, free tree q ↔ free maze2 q.
Proof.
  intros Hplain Hstart Hgoal Hpeek q. unfold free. rewrite Hpeek.
  case_decide as Hg.
  { rewrite (plain_open _ _ _ Hplain q) by (by apply Hgoal). done. }
  case_decide as Hq; [|done].
  subst q. by rewrite (plain_open _ _ _ Hplain (1, 1)).
Qed.

(** The walls opened at the end were walls, strictly inside the border, and
    none of them is next to the start. *)
Lemma chosen_walls (self : MazeGenerator) (tree : grid) (w : cell) :
  w ∈ openable self tree →
  interior self w ∧ peek tree w = Some WALL
  ∧ (peek tree (1, 1) = Some START → (1, 1) ∉ around w).
Proof.
  unfold openable. intros [[Hint Hw] _]%elem_of_filter.
  split; [done|].
  destruct w as [r c]. unfold between_rows, between_cols in Hw.
  cbn [fst snd] in Hw.
  destruct Hw as [(H1 & H2 & Ha & Hb & Hc)|(H1 & H2 & Ha & Hb & Hc)].
  - split; [done|]. intros Hs Hin%elem_of_around. cbn [fst snd] in Hin.
    destruct Hin as [[<- _]|[<- Hr]]; [done|].
    unfold interior in Hint. cbn [fst snd] in Hint.
    assert (r = 2) as -> by lia.
    replace (2 - 1) with 1 in Ha by lia. by rewrite Hs in Ha.
  - split; [done|]. intros Hs Hin%elem_of_around. cbn [fst snd] in Hin.
    destruct Hin as [[<- Hr]|[<- _]]; [|done].
    unfold interior in Hint. cbn [fst snd] in Hint.
    assert (c = 2) as -> by lia.
    replace (2 - 1) with 1 in Ha by lia. by rewrite Hs in Ha.
Qed.

(** X24: at a valid size the finished grid lacks the goal exactly when the
    start is walled in: it holds a goal mark if and only if one of the two
    cells next to (1, 1) inside the border, (1, 2) and (2, 1), is not a
    wall. *)
Theorem goal_unless_start_walled_in (self : MazeGenerator)
    (rnd : nat → nat) :
  valid self →
  ∃ final,
    final_maze (wilson_algorithm_generator self rnd) = Some final
    ∧ ((∃ g, peek final g = Some GOAL)
       ↔ free final (1, 2) ∨ free final (2, 1)).
Proof.
  intros Hvalid.
  destruct (finished_stages self rnd Hvalid)
    as (maze2 & s2 & k & evs & goal & tree & chosen & _ & Hrun & Hsh2
        & Hsh5 & Hlay & Hall & _ & Hg & Hnogoal & Hpeek5 & _ & Hchosen & _).
  pose proof (lay_plain _ _ _ Hlay) as Hplain.
  pose proof (Hall _ (start_passage self Hvalid)) as Hstart.
  assert (∀ q, free tree q ↔ free maze2 q) as Hfree.
  { apply (marked_free self maze2 tree s2 goal); [done..| |done].
    intros g Hgoal. by apply Hg. }
  assert (peek tree (1, 1) = Some START) as Hmark.
  { rewrite Hpeek5. rewrite decide_False, decide_True; [done..|].
    intros Hgoal. by destruct (Hg _ Hgoal) as (_ & Hne & _). }
  assert (Forall (inside (height self) (width self)) chosen) as Hin.
  { apply Forall_forall. intros w (Hint & _)%Hchosen%chosen_walls.
    by apply (interior_inside self). }
  assert (Forall nonneg chosen) as Hnn.
  { apply Forall_forall. intros w (Hint & _)%Hchosen%chosen_walls.
    by apply (interior_nonneg self). }
  exists (pokes tree chosen). split; [by rewrite Hrun|]. split.
  - intros (g & Hpeek). rewrite peek_pokes in Hpeek by done.
    case_decide as Hgc.
    { apply Hchosen, chosen_walls in Hgc as (_ & Hwall & _).
      rewrite Hwall in Hpeek. by inversion Hpeek. }
    rewrite Hpeek5 in Hpeek. case_decide as Hgoal.
    2:{ case_decide; [by inversion Hpeek|].
        by destruct (plain_chars _ _ _ Hplain g GOAL Hpeek). }
    destruct (Hg g Hgoal) as (_ & Hne & Hreach & _).
    apply rtc_inv in Hreach as [?|(y & [Hy Hfy] & _)]; [done|].
    pose proof (plain_free _ _ _ Hplain y Hfy) as Hint.
    assert (free (pokes tree chosen) y) as Hfinal.
    { apply free_pokes; [done|]. by apply Hfree. }
    apply elem_of_around in Hy. destruct y as [y1 y2].
    unfold interior in Hint. cbn [fst snd] in *.
    destruct Hy as [[-> Hy]|[-> Hy]].
    + left. by replace y2 with 2 in Hfinal by lia.
    + right. by replace y1 with 2 in Hfinal by lia.
  - intros Hopen.
    assert (∃ y, y ∈ around (1, 1) ∧ free maze2 y) as (y & Hy & Hfy).
    { destruct Hopen as [Hopen|Hopen].
      - exists (1, 2). split; [apply elem_of_around; simpl; lia|].
        apply (free_pokes_iff _ _ _ _ _ Hsh5 Hin) in Hopen as [Hc|Hf];
          [|by apply Hfree].
        apply Hchosen, chosen_walls in Hc as (_ & _ & Hc).
        destruct (Hc Hmark). apply elem_of_around. simpl. lia.
      - exists (2, 1). split; [apply elem_of_around; simpl; lia|].
        apply (free_pokes_iff _ _ _ _ _ Hsh5 Hin) in Hopen as [Hc|Hf];
          [|by apply Hfree].
        apply Hchosen, chosen_walls in Hc as (_ & _ & Hc).
        destruct (Hc Hmark). apply elem_of_around. simpl. lia. }
    destruct (beyond_the_start self maze2 s2 Hlay y Hy Hfy)
      as (z & Hz & Hzs & Hne).
    assert (reachable maze2 (1, 1) z) as Hreach.
    { apply (rtc_l _ _ y); [done|]. apply rtc_once. split; [done|].
      unfold free. by rewrite (plain_open _ _ _ Hplain z Hzs). }
    destruct goal as [g|]; [|by destruct Hne; apply Hnogoal].
    exists g. rewrite peek_pokes by done.
    rewrite decide_False.
    2:{ intros Hc%Hchosen%chosen_walls. destruct Hc as (_ & Hwall & _).
        rewrite Hpeek5, decide_True in Hwall by done. done. }
    by rewrite Hpeek5, decide_True.
Qed.

Lemma goal_unless_start_walled_in_witness :
  ∃ final,
    final_maze (wilson_algorithm_generator corridor first_choice) = Some final
    ∧ ((∃ g, peek final g = Some GOAL)
       ↔ free final (1, 2) ∨ free final (2, 1)).
Proof.
  apply (goal_unless_start_walled_in corridor first_choice).
  unfold valid, corridor. simpl. split_and!; (lia || reflexivity).
Defined.

(** ** A tree and the walls opened in it *)

(** X25: in a run at a valid size where every walk has reached the in-maze
    set, the finished grid is a spanning tree of the passage cells with the
    walls of [add_multiple_paths] opened in it: one in eight, rounded down,
    of the walls of the tree that stand between two open cells when
    [multiple_solutions] is on, none when it is off.  The cleared walls of
    the finished grid are those of the tree and the walls opened, so they
    number one less than the passage cells plus the walls opened. *)
Theorem finished_grid_is_tree_with_openings (self : MazeGenerator)
    (rnd : nat → nat) :
  valid self →
  Forall reached (generation_walks self rnd) →
  ∃ tree chosen,
    final_maze (wilson_algorithm_generator self rnd)
    = Some (pokes tree chosen)
    ∧ tree_maze self tree
    ∧ NoDup chosen
    ∧ (∀ w, w ∈ chosen → w ∈ openable self tree)
    ∧ length chosen = (if multiple_solutions self
                       then size (openable self tree) `div` 8 else 0)%nat
    ∧ cleared_walls self (pokes tree chosen)
      = cleared_walls self tree ∪ list_to_set chosen
    ∧ (size (cleared_walls self (pokes tree chosen)) + 1
       = length (all_cells self) + length chosen)%nat.
Proof.
  intros Hvalid Hok.
  destruct (finished_stages self rnd Hvalid)
    as (maze2 & s2 & k & evs & goal & tree & chosen & _ & Hrun & Hsh2
        & Hsh5 & Hlay & Hall & Hspan & Hg & Hnogoal & Hpeek5 & Hnd & Hchosen
        & Hlen).
  specialize (Hspan Hok).
  pose proof (lay_plain _ _ _ Hlay) as Hplain.
  pose proof (Hall _ (start_passage self Hvalid)) as Hstart.
  assert (∀ q, free tree q ↔ free maze2 q) as Hfree.
  { apply (marked_free self maze2 tree s2 goal); [done..| |done].
    intros g Hgoal. by apply Hg. }
  assert (s2 = list_to_set (all_cells self)) as Hs2.
  { apply set_eq. intros q. rewrite elem_of_list_to_set, elem_of_all_cells.
    split; [apply Hspan|apply Hall]. }
  assert (size (cleared_walls self tree) + 1 = length (all_cells self))%nat
    as Hcount.
  { rewrite (cleared_walls_iff self maze2 tree Hfree).
    rewrite (span_count _ _ _ Hspan), Hs2.
    apply size_list_to_set, NoDup_all_cells. }
  assert (Forall (inside (height self) (width self)) chosen) as Hin.
  { apply Forall_forall. intros w (Hint & _)%Hchosen%chosen_walls.
    by apply (interior_inside self). }
  assert (cleared_walls self (pokes tree chosen)
          = cleared_walls self tree ∪ list_to_set chosen) as Hunion.
  { apply set_eq. intros q. unfold cleared_walls.
    rewrite elem_of_union, !elem_of_filter, elem_of_list_to_set.
    rewrite (free_pokes_iff _ _ _ _ _ Hsh5 Hin). split.
    - intros [[[Hq|Hq] Hodd] Hpos]; [by right|by left].
    - intros [[[Hq Hodd] Hpos]|Hq]; [by split_and!; [right|..]|].
      split_and!; [by left| |].
      + apply Hchosen in Hq. unfold openable in Hq.
        apply elem_of_filter in Hq as [[_ Hq] _]. unfold odd2.
        destruct Hq as [(? & ? & _)|(? & ? & _)]; lia.
      + apply elem_of_positions. rewrite Forall_forall in Hin.
        by apply Hin. }
  exists tree, chosen.
  split_and!; [by rewrite Hrun| |done|done|done|done|].
  - split; [done|].
    destruct (get_reachable_positions_spec self tree Hsh5 (1, 1))
      as (vf & Hvf & Hreach).
    exists vf. split; [done|]. intros p Hodd.
    rewrite Hreach, (reachable_iff maze2 tree) by done. split.
    + intros [<-|Hp%(plain_free _ _ _ Hplain)]%reachable_free.
      * by apply start_passage.
      * by apply interior_odd2_passage.
    + intros Hp. by apply (span_reach _ _ _ Hspan), Hall.
  - rewrite Hunion, size_union.
    + rewrite size_list_to_set by done. lia.
    + intros q [[Hq _] _]%elem_of_filter Hc%elem_of_list_to_set.
      apply Hchosen, chosen_walls in Hc as (_ & Hwall & _).
      unfold free in Hq. by rewrite Hwall in Hq.
Qed.

Lemma finished_grid_is_tree_with_openings_witness :
  ∃ tree chosen,
    final_maze (wilson_algorithm_generator corridor counting)
    = Some (pokes tree chosen)
    ∧ tree_maze corridor tree
    ∧ NoDup chosen
    ∧ (∀ w, w ∈ chosen → w ∈ openable corridor tree)
    ∧ length chosen = (if multiple_solutions corridor
                       then size (openable corridor tree) `div` 8 else 0)%nat
    ∧ cleared_walls corridor (pokes tree chosen)
      = cleared_walls corridor tree ∪ list_to_set chosen
    ∧ (size (cleared_walls corridor (pokes tree chosen)) + 1
       = length (all_cells corridor) + length chosen)%nat.
Proof.
  apply (finished_grid_is_tree_with_openings corridor counting).
  - unfold valid, corridor. simpl. split_and!; (lia || reflexivity).
  - vm_compute. repeat constructor.
Defined.

(** ** The generation stays on the screen *)

(** Every event of a run at a valid size carries a grid of the size of the
    generator. *)
Lemma generator_events_shape (self : MazeGenerator) (rnd : nat → nat) :
  valid self →
  ∃ g' evs,
    wilson_algorithm_generator self rnd = Done (g', evs)
    ∧ Forall (λ e, shape (height self) (width self) (snapshot e)) evs.
Proof.
  intros Hvalid.
  destruct (finished_grid self rnd Hvalid)
    as (maze2 & s2 & k & evs & goal & chosen & final & Hrounds & Hrun & _
        & Hshf & _).
  destruct (rounds_stream self rnd Hvalid
              (length (remaining_of self {[(1, 1)]}))
              (start_maze self) {[(1, 1)]} 0%nat
              (shape_start_maze self) (Nat.le_refl _))
    as (mazef & sf & kf & evs' & Hrounds' & _ & _ & Hshapes & _).
  rewrite Hrounds in Hrounds'. injection Hrounds' as <- <- <- <-.
  eexists _, _. split; [exact Hrun|].
  constructor; [apply (shape_start_maze self)|].
  apply Forall_app. split.
  - eapply Forall_impl; [exact Hshapes|]. by intros e (? & _).
  - by constructor.
Qed.

Section frames_rects.
Variable get_width : surface → Z.
Variable self : Visualizer.t.
Variable input : nat → list pygame_event.
Variables (h w : Z).
Hypothesis Hh : 0 < h.
Hypothesis Hw : 0 ≤ w.

(** The rectangles of a frame are the rectangles of the cells of the
    grid. *)
Lemma frames_cells (n : nat) (evs : list event) (stopped : bool)
    (fs : list (list command)) :
  Forall (λ e, shape h w (snapshot e)) evs →
  frames get_width self input n evs = Done (stopped, fs) →
  Forall (λ f, ∀ col rect, DrawRect col rect ∈ f →
               ∃ p, inside h w p
                    ∧ rect = cell_rect self
                               ((Visualizer.screen_width self
                                 - w * Visualizer.cell_size self) `div` 2)
                               ((Visualizer.screen_height self
                                 - h * Visualizer.cell_size self) `div` 2) p)
         fs.
Proof.
  intros Hevs. revert n stopped fs.
  induction Hevs as [|[[maze_data status] extra_data] evs Hsh _ IH];
    intros n stopped fs.
  { intros [= <- <-]. done. }
  destruct (draw_maze_generation_cells get_width self h w maze_data Hsh Hh Hw
              status extra_data) as (col & t1 & t2 & x1 & x2 & Hdraw & _).
  cbn [frames]. rewrite Hdraw, Done_bind.
  set (ox := (Visualizer.screen_width self
              - w * Visualizer.cell_size self) `div` 2).
  set (oy := (Visualizer.screen_height self
              - h * Visualizer.cell_size self) `div` 2).
  assert (∀ c rect tl,
    DrawRect c rect
      ∈ Tick FPS :: Fill (0, 0, 0)
          :: (((λ p, DrawRect (col p) (cell_rect self ox oy p))
                 <$> row_major h w)
              ++ [Blit t1 (x1, 20); Blit t2 (x2, 50)]) ++ tl →
    (∀ c' r', DrawRect c' r' ∉ tl) →
    ∃ p, inside h w p ∧ rect = cell_rect self ox oy p) as Hrects.
  { intros c rect tl Hin Htl.
    rewrite !elem_of_cons, !elem_of_app in Hin.
    destruct Hin as [?|[?|[[Hin|Hin]|Hin]]]; [done|done| | |].
    - apply list_elem_of_fmap in Hin as (p & [= -> ->] & Hp).
      exists p. split; [by apply elem_of_row_major|done].
    - rewrite !elem_of_cons in Hin.
      destruct Hin as [?|[?|Hin]]; [done|done|by apply elem_of_nil in Hin].
    - by destruct (Htl c rect). }
  destruct (existsb quits (input n)).
  - intros [= <- <-]. constructor; [|done]. intros c rect Hin.
    apply (Hrects c rect []).
    + by rewrite app_nil_r.
    + intros c' r' Hnil. by apply elem_of_nil in Hnil.
  - destruct (frames get_width self input (S n) evs)
      as [[stopped' fs']| |] eqn:Hrec; [|done..].
    rewrite Done_bind. intros [= <- <-]. constructor; [|by eapply IH].
    intros c rect Hin. apply (Hrects c rect [Flip]).
    + by rewrite <-app_assoc in Hin |- *.
    + intros c' r' Hflip. apply list_elem_of_singleton in Hflip. done.
Qed.

End frames_rects.

(** X26: on a display of 40 by 100 pixels or more, with the cell size
    [Visualizer.__init__] computes for it, [generate_maze] raises nothing
    and every rectangle of every frame it draws lies on the display. *)
Theorem generation_stays_on_screen (get_width : surface → Z)
    (self : Visualizer.t) (rnd : nat → nat)
    (input : nat → list pygame_event) (current_w current_h : Z) :
  Visualizer.screen_width self = current_w →
  Visualizer.screen_height self = current_h →
  Visualizer.cell_size self
  = Visualizer.cell_size (Visualizer.__init__ current_w current_h) →
  40 ≤ current_w → 100 ≤ current_h →
  ∃ result fs,
    generate_maze get_width self rnd input = Done (result, fs)
    ∧ Forall (λ f, ∀ col rect, DrawRect col rect ∈ f →
                   on_screen current_w current_h rect) fs.
Proof.
  intros Hsw Hsh Hcs Hcw Hch.
  set (generator := {| width := MAZE_WIDTH; height := MAZE_HEIGHT;
                       multiple_solutions := Visualizer.multiple_solutions self;
                       maze := None |}).
  assert (valid generator) as Hvalid.
  { unfold valid, generator, MAZE_WIDTH, MAZE_HEIGHT. simpl.
    split_and!; (lia || reflexivity). }
  destruct (generator_events_shape generator rnd Hvalid)
    as (g' & evs & Hrun & Hshapes).
  destruct (frames_spec get_width self input MAZE_HEIGHT MAZE_WIDTH
              ltac:(done) ltac:(done) 0 evs Hshapes)
    as (stopped & fs & Hframes & _).
  pose proof (frames_cells get_width self input MAZE_HEIGHT MAZE_WIDTH
                ltac:(done) ltac:(done) 0 evs stopped fs Hshapes Hframes)
    as Hcells.
  eexists _, fs. split.
  { unfold generate_maze.
    change (__init__ MAZE_WIDTH MAZE_HEIGHT
                     (Visualizer.multiple_solutions self))
      with (Done generator).
    by rewrite Done_bind, Hrun, Done_bind, Hframes, Done_bind. }
  eapply Forall_impl; [exact Hcells|].
  intros f Hf col rect Hin.
  destruct (Hf col rect Hin) as ([p1 p2] & [Hp1 Hp2] & ->).
  unfold on_screen, cell_rect. cbn [fst snd] in *.
  rewrite Hsw, Hsh.
  set (cs := Visualizer.cell_size self) in *.
  assert (0 ≤ cs ∧ MAZE_WIDTH * cs ≤ current_w
          ∧ MAZE_HEIGHT * cs ≤ current_h) as (Hcs0 & Hfw & Hfh).
  { rewrite Hcs. unfold Visualizer.__init__, MAZE_WIDTH, MAZE_HEIGHT, MARGIN.
    simpl. split_and!; Z.div_mod_to_equations; lia. }
  set (ox := (current_w - MAZE_WIDTH * cs) `div` 2).
  set (oy := (current_h - MAZE_HEIGHT * cs) `div` 2).
  assert (0 ≤ ox ∧ ox + MAZE_WIDTH * cs ≤ current_w) as [? ?].
  { unfold ox. Z.div_mod_to_equations. lia. }
  assert (0 ≤ oy ∧ oy + MAZE_HEIGHT * cs ≤ current_h) as [? ?].
  { unfold oy. Z.div_mod_to_equations. lia. }
  nia.
Qed.

Lemma generation_stays_on_screen_witness :
  ∃ result fs,
    generate_maze (λ _, 0) (Visualizer.__init__ 1920 1080) counting
                  (λ _, []) = Done (result, fs)
    ∧ Forall (λ f, ∀ col rect, DrawRect col rect ∈ f →
                   on_screen 1920 1080 rect) fs.
Proof.
  apply (generation_stays_on_screen (λ _, 0) (Visualizer.__init__ 1920 1080)
           counting (λ _, []) 1920 1080); (reflexivity || lia).
Defined.

(** ** What a round writes *)

Lemma mids_lookup (path : list cell) (i : nat) (a b : cell) :
  path !! i = Some a → path !! S i = Some b → midpoint a b ∈ mids path.
Proof.
  revert i. induction path as [|x [|y rest] IH]; intros i Ha Hb.
  - done.
  - destruct i; done.
  - change (mids (x :: y :: rest)) with (midpoint x y :: mids (y :: rest)).
    destruct i as [|i].
    + injection Ha as <-. injection Hb as <-. left.
    + right. by apply (IH i).
Qed.

(** X27: lines 56-70 connect the path of the walk of a round whatever made
    the walk stop.  They raise nothing and yield one event a cell of the
    path; the path begins at the cell the round started from; the cells of
    the path and the cells half way between two consecutive cells of the
    path are open afterwards, every other cell keeps its character, and
    the in-maze set has gained the cells of the path and no other. *)
Theorem round_carves_its_path (self : MazeGenerator) (rnd : nat → nat)
    (maze : grid) (s : gset cell) (current : cell) (k : nat) :
  valid self → shape (height self) (width self) maze →
  current ∈ remaining_of self s →
  let path :=
    walk_path (walk self rnd max_steps maze s [current] current k) in
  ∃ maze' s' evs,
    connect maze s path = Done (maze', s', evs)
    ∧ head path = Some current
    ∧ length evs = length path
    ∧ (∀ p, p ∈ s' ↔ p ∈ path ∨ p ∈ s)
    ∧ (∀ p, p ∈ path → peek maze' p = Some OPEN)
    ∧ (∀ i a b, path !! i = Some a → path !! S i = Some b →
                peek maze' (midpoint a b) = Some OPEN)
    ∧ (∀ q, q ∉ path → q ∉ mids path → peek maze' q = peek maze q).
Proof.
  intros Hvalid Hsh Hcur.
  apply list_elem_of_filter in Hcur as [Hfresh Hpass%elem_of_all_cells].
  pose proof (passage_interior _ _ Hvalid Hpass) as Hint.
  destruct (walk _ _ _ _ _ _ _ _) as [[[p c] k1] wevs] eqn:Hwalk.
  apply walk_trail in Hwalk as (Htrail & Hhead & _); [|by apply trail_start].
  pose proof (trail_interior _ _ _ _ Htrail) as Hp.
  destruct (connect_Done self maze s p Hsh Hp) as (cevs & Hconn & Hlen & _).
  unfold walk_path. cbn [fst snd]. cbv zeta. rewrite Hconn.
  pose proof (trace_interior self p Hp) as Htr.
  assert (Forall nonneg (trace p)) as Hnn.
  { eapply Forall_impl; [exact Htr|]. apply interior_nonneg. }
  assert (∀ q, q ∈ trace p → peek (pokes maze (trace p)) q = Some OPEN)
    as Hopen.
  { intros q Hq. rewrite peek_pokes, decide_True by done.
    rewrite Forall_forall in Htr.
    by apply Htr, interior_inside, (peek_is_Some _ _ _ _ Hsh) in Hq
      as [ch ->]. }
  eexists _, _, _. split_and!; [done|done|done| | | |].
  - intros q. by rewrite elem_of_union, elem_of_list_to_set.
  - intros q Hq. by apply Hopen, elem_of_trace_path.
  - intros i a b Ha Hb. apply Hopen, elem_of_trace. right.
    by apply (mids_lookup p i).
  - intros q Hq Hm. rewrite peek_pokes by done.
    rewrite decide_False; [done|]. by intros [?|?]%elem_of_trace.
Qed.

Lemma round_carves_its_path_witness :
  let path :=
    walk_path (walk long_corridor first_choice max_steps
                    (start_maze long_corridor) {[(1, 1)]} [(1, 3)] (1, 3) 1) in
  path = [(1, 3); (1, 5); (1, 7)]
  ∧ (walk_stop (walk long_corridor first_choice max_steps
                     (start_maze long_corridor) {[(1, 1)]} [(1, 3)] (1, 3) 1)
     ∉ ({[(1, 1)]} : gset cell))
  ∧ ∃ maze' s' evs,
      connect (start_maze long_corridor) {[(1, 1)]} path
      = Done (maze', s', evs)
      ∧ head path = Some (1, 3)
      ∧ length evs = length path
      ∧ (∀ p, p ∈ s' ↔ p ∈ path ∨ p ∈ ({[(1, 1)]} : gset cell))
      ∧ (∀ p, p ∈ path → peek maze' p = Some OPEN)
      ∧ (∀ i a b, path !! i = Some a → path !! S i = Some b →
                  peek maze' (midpoint a b) = Some OPEN)
      ∧ (∀ q, q ∉ path → q ∉ mids path →
              peek maze' q = peek (start_maze long_corridor) q).
Proof.
  cbv zeta. split_and!.
  - vm_compute. reflexivity.
  - assert (walk_stop (walk long_corridor first_choice max_steps
                            (start_maze long_corridor) {[(1, 1)]} [(1, 3)]
                            (1, 3) 1) = (1, 7)) as ->
      by (vm_compute; reflexivity).
    intros Hin. apply elem_of_singleton in Hin. discriminate Hin.
  - apply (round_carves_its_path long_corridor first_choice
             (start_maze long_corridor) {[(1, 1)]} (1, 3) 1).
    + unfold valid, long_corridor. simpl. split_and!; (lia || reflexivity).
    + split; [reflexivity|]. vm_compute. repeat constructor.
    + apply (bool_decide_unpack _). vm_compute. exact I.
Defined.

(** ** The goal of the finished grid *)

(** X28: at a valid size a goal on the finished grid can be reached from
    the start through cells of the finished grid that are not walls, with
    [multiple_solutions] on or off and whatever the walks did; and
    [get_reachable_positions] finds it from (1, 1). *)
Theorem finished_goal_is_reachable (self : MazeGenerator) (rnd : nat → nat) :
  valid self →
  ∃ final,
    final_maze (wilson_algorithm_generator self rnd) = Some final
    ∧ ∀ g, peek final g = Some GOAL →
           reachable final (1, 1) g
           ∧ ∃ vf, get_reachable_positions self final (1, 1) = Done vf
                   ∧ g ∈ vf.
Proof.
  intros Hvalid.
  destruct (conditional_run self rnd Hvalid)
    as (maze2 & s2 & maze5 & walls & Hsh2 & Hplain & Hstart & _ & Hgoal
        & Hsh5 & Hwalls & Hrun).
  pose proof (shape_poke _ _ maze2 (1, 1) START Hsh2) as Hsh3.
  set (maze3 := poke maze2 (1, 1) START) in *.
  assert (Forall nonneg walls) as Hnn.
  { eapply Forall_impl; [exact Hwalls|]. intros w [Hw _].
    by apply (interior_nonneg self). }
  assert (∀ g, peek (pokes maze5 walls) g = Some GOAL → peek maze5 g = Some GOAL)
    as Hfinal.
  { intros g. rewrite peek_pokes by done. case_decide as Hg; [|done].
    rewrite Forall_forall in Hwalls. destruct (Hwalls g Hg) as [_ ->].
    simpl. intros [= ?]. }
  assert (∀ g, peek maze3 g ≠ Some GOAL) as Hnone.
  { intros g. unfold maze3. rewrite peek_poke by done. case_decide.
    - destruct (peek maze2 (1, 1)); simpl; by intros [= ?].
    - intros Hg. by apply (plain_chars _ _ _ Hplain) in Hg as [?|?]. }
  exists (pokes maze5 walls). split; [done|].
  intros g Hg%Hfinal.
  assert (reachable (pokes maze5 walls) (1, 1) g) as Hreach.
  { eapply reachable_mono; [intros q; by apply free_pokes|].
    destruct (goal_placement_spec self maze3 Hsh3) as (maze5' & Hgoal' & Hm).
    rewrite Hgoal in Hgoal'. injection Hgoal' as <-.
    destruct Hm as [->|(g0 & -> & _ & Hfree & Hreach)];
      [by destruct (Hnone g)|].
    assert (nonneg g0) as [? ?].
    { apply (free_inside _ _ _ _ Hsh3) in Hfree.
      unfold inside, nonneg in *. lia. }
    rewrite peek_poke in Hg by done.
    case_decide as Heq; [subst g0|by destruct (Hnone g)].
    eapply reachable_mono; [|exact Hreach].
    intros q. by apply free_poke. }
  split; [done|].
  destruct (get_reachable_positions_spec self (pokes maze5 walls)
              (shape_pokes _ _ _ _ Hsh5) (1, 1)) as (vf & Hvf & Hiff).
  exists vf. split; [done|]. by apply Hiff.
Qed.

Lemma finished_goal_is_reachable_witness :
  ∃ final,
    final_maze (wilson_algorithm_generator corridor counting) = Some final
    ∧ ∀ g, peek final g = Some GOAL →
           reachable final (1, 1) g
           ∧ ∃ vf, get_reachable_positions corridor final (1, 1) = Done vf
                   ∧ g ∈ vf.
Proof.
  apply (finished_goal_is_reachable corridor counting).
  unfold valid, corridor. simpl. split_and!; (lia || reflexivity).
Defined.
